(** * PyBenQaseIO: a shallow embedding of [pybenqaseio/qase_io.py]

    The client code of [QaseIO] is embedded as state-passing functions in a
    small state-and-exception monad.  The generated Qase API client is an
    interface ([RemoteApi]); every request the client issues is recorded in a
    trace, so that statements such as "no update is written" or "exactly k
    requests" are statements about that trace. *)

From Stdlib Require Import ZArith String Ascii List Lia Bool.
From stdpp Require Import base gmap strings list fin_maps.

Set Warnings "-register-all".

Local Open Scope string_scope.
Local Open Scope list_scope.
Local Open Scope Z_scope.

(** ** Python exceptions and results *)

Inductive exn : Type :=
| ApiException (reason : string)
| KeyError (key : string)
| IndexError
| AttributeError
| AssertionError (msg : string)
| TypeError
| FileNotFoundError (path : string)
| RecursionError
| ClientError (name : string).

Inductive result (A : Type) : Type :=
| Ok (a : A)
| Raise (e : exn).
Arguments Ok {A} a.
Arguments Raise {A} e.

(** A computation over a state [St]: it returns a value or raises, and in both
    cases leaves a state behind (effects done before a raise persist). *)
Definition M (St A : Type) : Type := St -> result A * St.

Definition ret {St A} (a : A) : M St A := fun s => (Ok a, s).

Definition raise {St A} (e : exn) : M St A := fun s => (Raise e, s).

Definition bind {St A B} (m : M St A) (k : A -> M St B) : M St B :=
  fun s =>
    match m s with
    | (Ok a, s') => k a s'
    | (Raise e, s') => (Raise e, s')
    end.

Definition modify {St} (f : St -> St) : M St unit := fun s => (Ok tt, f s).

Definition lift_result {St A} (r : result A) : M St A := fun s => (r, s).

Notation "'let*' x ':=' m 'in' k" := (bind m (fun x => k))
  (at level 10, x name, m at level 100, k at level 200).
Notation "m ;;; k" := (bind m (fun _ => k))
  (at level 100, k at level 200, right associativity).

(** [for x in xs: body x] *)
Fixpoint for_each {St A} (xs : list A) (body : A -> M St unit) : M St unit :=
  match xs with
  | [] => ret tt
  | x :: rest => body x ;;; for_each rest body
  end.

(** ** Paginated fetch *)

(** The envelope of a list response: [res.result.entities] and
    [res.result.filtered].  A response object may lack the [result]
    attribute ([hasattr(res, 'result')]). *)
Record ListResult (E : Type) : Type := mkListResult {
  entities : list E;
  filtered : Z
}.
Arguments mkListResult {E} _ _.
Arguments entities {E} _.
Arguments filtered {E} _.

Record ListResponse (E : Type) : Type := mkListResponse {
  list_result : option (ListResult E)
}.
Arguments mkListResponse {E} _.
Arguments list_result {E} _.

(** [get_all_instances(func, code, limit, offset)].  The recursion of the
    source is bounded by [depth], the number of nested calls the interpreter
    still allows; when it is used up the call raises [RecursionError]. *)
Fixpoint get_all_instances {St E} (depth : nat)
    (func : Z -> Z -> M St (ListResponse E)) (limit offset : Z)
    : M St (list E) :=
  let* res := func limit offset in
  match list_result res with
  | Some r =>
      if limit + offset <? filtered r then
        match depth with
        | O => raise RecursionError
        | S d =>
            let* rest := get_all_instances d func limit (offset + limit) in
            ret (entities r ++ rest)
        end
      else ret (entities r)
  | None => raise AttributeError
  end.

(** What a well-behaved remote list operation over the collection [db]
    answers for a window: the slice [db[offset : offset + limit]] and the
    total number of entities. *)
Definition page {E} (db : list E) (limit offset : Z) : ListResponse E :=
  mkListResponse (Some (mkListResult
    (firstn (Z.to_nat limit) (skipn (Z.to_nat offset) db))
    (Z.of_nat (length db)))).

(** ceil(N / P), and the number of requests the fetch issues. *)
Definition ceil_div (n p : Z) : Z := (n + p - 1) / p.

Definition requests_needed (n p : Z) : nat := Z.to_nat (Z.max 1 (ceil_div n p)).

(** ** Config store *)

Module QaseConfig.

(** JSON documents, as [json.load] builds them. *)
Inductive json : Type :=
| JNull
| JBool (b : bool)
| JInt (z : Z)
| JStr (s : string)
| JList (l : list json)
| JObj (m : gmap string json).

Definition obj (kvs : list (string * json)) : json := JObj (list_to_map kvs).

Definition config_file_name : string := "qase.config.json".

Definition qase_default_config (project_code qase_pytest_api_key : string) : json :=
  obj [ ("mode", JStr "testops");
        ("fallback", JStr "report");
        ("report", obj [ ("driver", JStr "local");
                         ("connection", obj [ ("local", obj [ ("path", JStr "./build/qase-report");
                                                              ("format", JStr "json") ]) ]) ]);
        ("testops", obj [ ("project", JStr project_code);
                          ("api", obj [ ("token", JStr qase_pytest_api_key);
                                        ("host", JStr "qase.io") ]);
                          ("run", obj [ ("complete", JBool false) ]);
                          ("defect", JBool false);
                          ("bulk", JBool true);
                          ("chunk", JInt 200) ]);
        ("framework", obj [ ("pytest", obj [ ("capture", obj [ ("logs", JBool true);
                                                                ("http", JBool true) ]) ]) ]);
        ("environment", JStr "local") ].

(** The store: the in-memory document and the content of
    [qase.config.json] on disk, if the file exists. *)
Record store : Type := mkStore {
  config_obj : json;
  file : option json
}.

(** [__init__]: read the file when it exists, else take the default. *)
Definition init (project_code qase_pytest_api_key : string) (disk : option json) : store :=
  match disk with
  | Some doc => mkStore doc disk
  | None => mkStore (qase_default_config project_code qase_pytest_api_key) None
  end.

(** One statement of the form
    [self.config_obj['testops']['run'].<mutation>]: the two subscripts are
    evaluated, the run dict is mutated in place, and the change is seen
    through [config_obj]. *)
Definition on_run (f : gmap string json -> gmap string json) (doc : json) : result json :=
  match doc with
  | JObj top =>
      match top !! "testops" with
      | Some (JObj testops) =>
          match testops !! "run" with
          | Some (JObj run) =>
              Ok (JObj (<["testops" := JObj (<["run" := JObj (f run)]> testops)]> top))
          | Some _ => Raise TypeError
          | None => Raise (KeyError "run")
          end
      | Some _ => Raise TypeError
      | None => Raise (KeyError "testops")
      end
  | _ => Raise TypeError
  end.

Definition mutate_run (f : gmap string json -> gmap string json) : M store unit :=
  fun st =>
    match on_run f (config_obj st) with
    | Ok doc => (Ok tt, mkStore doc (file st))
    | Raise e => (Raise e, st)
    end.

Definition write : M store unit :=
  modify (fun st => mkStore (config_obj st) (Some (config_obj st))).

Definition read : M store unit :=
  fun st =>
    match file st with
    | Some doc => (Ok tt, mkStore doc (file st))
    | None => (Raise (FileNotFoundError config_file_name), st)
    end.

Definition remove : M store unit :=
  modify (fun st => mkStore (config_obj st) None).

(** [add_run_id(run_id)] for an integer [run_id] ([int(run_id)] is then
    [run_id]). *)
Definition add_run_id (run_id : Z) : M store unit :=
  mutate_run (fun run => <["id" := JInt run_id]> run) ;;;
  mutate_run (fun run => delete "title" run) ;;;
  mutate_run (fun run => <["complete" := JBool false]> run) ;;;
  write.

Definition add_run_title (run_title : string) : M store unit :=
  mutate_run (fun run => <["title" := JStr run_title]> run) ;;;
  mutate_run (fun run => delete "id" run) ;;;
  mutate_run (fun run => <["complete" := JBool true]> run) ;;;
  write.

Definition complete_run : M store unit :=
  mutate_run (fun run => <["complete" := JBool true]> run) ;;;
  write.

Definition dont_complete_run : M store unit :=
  mutate_run (fun run => <["complete" := JBool false]> run) ;;;
  write.

(** Reading [testops.run.<key>] of a document. *)
Definition run_section (doc : json) : option (gmap string json) :=
  match doc with
  | JObj top =>
      match top !! "testops" with
      | Some (JObj testops) =>
          match testops !! "run" with
          | Some (JObj run) => Some run
          | _ => None
          end
      | _ => None
      end
  | _ => None
  end.

Definition run_key (doc : json) (k : string) : option json :=
  match run_section doc with
  | Some run => run !! k
  | None => None
  end.

(** The run section never holds an id and a title together. *)
Definition never_both (doc : json) : Prop :=
  ~ (is_Some (run_key doc "id") /\ is_Some (run_key doc "title")).

(** The stores the operations can produce from a default document. *)
Inductive reachable (project_code key : string) : store -> Prop :=
| reach_init : reachable project_code key (init project_code key None)
| reach_step (op : M store unit) st st' :
    reachable project_code key st ->
    In op [write; remove] \/ (exists i, op = add_run_id i) \/ (exists t, op = add_run_title t)
      \/ op = complete_run \/ op = dont_complete_run ->
    op st = (Ok tt, st') ->
    reachable project_code key st'.

End QaseConfig.

(** ** Python string primitives

    Strings are sequences of ASCII characters; a character above 127 has no
    case and is no white space. *)

Module Py.

(** [c.isspace()]: tab, line feed, vertical tab, form feed, carriage return,
    the four separators 0x1c-0x1f and the space. *)
Definition is_space (c : ascii) : bool :=
  let n := nat_of_ascii c in
  (Nat.leb 9 n && Nat.leb n 13) || (Nat.leb 28 n && Nat.leb n 32).

Definition lower_char (c : ascii) : ascii :=
  let n := nat_of_ascii c in
  if Nat.leb 65 n && Nat.leb n 90 then ascii_of_nat (n + 32) else c.

(** [s.lower()] *)
Fixpoint lower (s : string) : string :=
  match s with
  | EmptyString => EmptyString
  | String c r => String (lower_char c) (lower r)
  end.

(** [s.split(sep, 1)[0]] for a one-character [sep]: the part of [s] before
    the first [sep], all of [s] when there is none. *)
Fixpoint split_once_head (sep : ascii) (s : string) : string :=
  match s with
  | EmptyString => EmptyString
  | String c r => if Ascii.eqb c sep then EmptyString else String c (split_once_head sep r)
  end.

Fixpoint lstrip (s : string) : string :=
  match s with
  | EmptyString => EmptyString
  | String c r => if is_space c then lstrip r else s
  end.

Fixpoint rstrip (s : string) : string :=
  match s with
  | EmptyString => EmptyString
  | String c r =>
      match rstrip r with
      | EmptyString => if is_space c then EmptyString else String c EmptyString
      | r' => String c r'
      end
  end.

(** [s.strip()] *)
Definition strip (s : string) : string := rstrip (lstrip s).

(** [s.replace(old, '')] for a one-character [old]. *)
Fixpoint replace_with_empty (old : ascii) (s : string) : string :=
  match s with
  | EmptyString => EmptyString
  | String c r =>
      if Ascii.eqb c old then replace_with_empty old r
      else String c (replace_with_empty old r)
  end.

Definition starts_token (s : string) : bool :=
  match s with
  | EmptyString => false
  | String c _ => negb (is_space c)
  end.

(** [s.split()]: the maximal runs of non-space characters. *)
Fixpoint split (s : string) : list string :=
  match s with
  | EmptyString => []
  | String c r =>
      if is_space c then split r
      else if starts_token r then
        match split r with
        | t :: ts => String c t :: ts
        | [] => [String c EmptyString]
        end
      else String c EmptyString :: split r
  end.

(** [sep.join(parts)] *)
Fixpoint join (sep : string) (parts : list string) : string :=
  match parts with
  | [] => EmptyString
  | [t] => t
  | t :: rest => t +:+ sep +:+ join sep rest
  end.

(** [xs[i]] on a list, for an index [i >= 0]. *)
Definition index {A} (xs : list A) (i : nat) : result A :=
  match nth_error xs i with
  | Some x => Ok x
  | None => Raise IndexError
  end.

(** Identifiers as Python holds them: an int, or [None]. *)
Abbreviation pyid := (option Z) (only parsing).

(** Truth value of an int-or-None. *)
Definition truthy (v : pyid) : bool :=
  match v with
  | Some z => negb (z =? 0)
  | None => false
  end.

(** [list(set(xs))]: the distinct elements of [xs], in an order the
    interpreter chooses. *)
Class SetOrder : Type := {
  list_of_set : list string -> list string;
  list_of_set_NoDup : forall xs, NoDup (list_of_set xs);
  list_of_set_elem : forall x xs, x ∈ list_of_set xs <-> x ∈ xs
}.

(** [f'"{s}"']: [s] between double quotes. *)
Definition quoted (s : string) : string :=
  String "034"%char (s +:+ String "034"%char EmptyString).

(** [xs.remove(x)]: drops the first occurrence of [x]. *)
Fixpoint list_remove (x : string) (xs : list string) : list string :=
  match xs with
  | [] => []
  | y :: rest => if String.eqb x y then rest else y :: list_remove x rest
  end.

End Py.

(** One admissible order for [list(set(xs))]: first occurrences, in the order
    of [xs]. *)
#[export] Instance first_occurrence_order : Py.SetOrder := {|
  Py.list_of_set := remove_dups;
  Py.list_of_set_NoDup := NoDup_remove_dups;
  Py.list_of_set_elem := fun x xs => elem_of_remove_dups xs x
|}.

(** ** Remote entities and the API client *)

Module Suite.
Record t : Type := mk { id : Z; title : string; parent_id : option Z }.
End Suite.

(** A test case as the client reads it: [params] is what
    [case.params.to_dict()] gives, a dict from parameter names to lists of
    values.  For a case without parameters the API answers the empty list
    instead of a dict; the model reads that answer as the empty map. *)
Module TestCase.
Record t : Type := mk {
  id : Z;
  suite_id : option Z;
  params : gmap string (list string)
}.
End TestCase.

(** [TestCaseUpdate] built from [update_dict]: the keys this client sends. *)
Record TestCaseUpdate : Type := mkTestCaseUpdate {
  upd_suite_id : option Py.pyid;
  upd_params : option (gmap string (list string))
}.

(** [SuiteCreate(title=..., parent_id=...)] *)
Record SuiteCreate : Type := mkSuiteCreate {
  sc_title : string;
  sc_parent_id : option Z
}.

(** [RunCreate(title=..., is_autotest=True, custom_field=...)] *)
Record RunCreate : Type := mkRunCreate {
  rc_title : string;
  rc_is_autotest : bool;
  rc_custom_field : option (list (string * string))
}.

(** [TestCaseCreate] built from [payload_dict] *)
Record TestCaseCreate : Type := mkTestCaseCreate {
  tc_title : string;
  tc_suite_id : option Z
}.

(** [SuiteUpdate] built from the keyword arguments *)
Record SuiteUpdate : Type := mkSuiteUpdate {
  su_title : option string;
  su_parent_id : option Z
}.

(** What the client sends ... *)
Inductive request : Type :=
| GetCase (code : string) (case_id : Z)
| UpdateCase (code : string) (case_id : Z) (upd : TestCaseUpdate)
| DeleteCase (code : string) (case_id : Z)
| CreateCase (code : string) (payload : TestCaseCreate)
| GetCases (code : string) (limit offset : Z)
| GetSuites (code : string) (limit offset : Z)
| CreateSuite (code : string) (payload : SuiteCreate)
| UpdateSuite (code : string) (suite_id : Z) (payload : SuiteUpdate)
| CreateRun (code : string) (payload : RunCreate)
| CompleteRun (code : string) (run_id : Z)
| GetRun (code : string) (run_id : Z)
| CreateMilestone (code : string) (title : string).

(** ... and what it gets back. *)
Inductive response : Type :=
| CaseResponse (case : TestCase.t)
| BaseResponse (status : bool)
| IdResponse (id : Z)
| CasesResponse (page : ListResponse TestCase.t)
| SuitesResponse (page : ListResponse Suite.t).

(** A remote call answers, or the client raises [ApiException] (the server
    refused the request), or the client raises something else: a transport
    error when the connection is refused, a validation error on an argument.
    [Crash name] stands for the latter; the handlers of the wrappers below
    do not catch it. *)
Inductive outcome (A : Type) : Type :=
| Success (a : A)
| Failure (reason : string)
| Crash (name : string).
Arguments Success {A} a.
Arguments Failure {A} reason.
Arguments Crash {A} name.

Definition outcome_map {A B} (f : A -> B) (o : outcome A) : outcome B :=
  match o with
  | Success a => Success (f a)
  | Failure reason => Failure reason
  | Crash name => Crash name
  end.

(** The generated API client over a remote of type [R]: [CasesApi],
    [SuitesApi], [RunsApi] and [MilestonesApi]. *)
Class RemoteApi (R : Type) : Type := {
  CasesApi_get_case : string -> Z -> R -> outcome TestCase.t * R;
  CasesApi_update_case : string -> Z -> TestCaseUpdate -> R -> outcome bool * R;
  CasesApi_delete_case : string -> Z -> R -> outcome bool * R;
  CasesApi_create_case : string -> TestCaseCreate -> R -> outcome Z * R;
  CasesApi_get_cases : string -> Z -> Z -> R -> outcome (ListResponse TestCase.t) * R;
  SuitesApi_get_suites : string -> Z -> Z -> R -> outcome (ListResponse Suite.t) * R;
  SuitesApi_create_suite : string -> SuiteCreate -> R -> outcome Z * R;
  SuitesApi_update_suite : string -> Z -> SuiteUpdate -> R -> outcome bool * R;
  RunsApi_create_run : string -> RunCreate -> R -> outcome Z * R;
  RunsApi_complete_run : string -> Z -> R -> outcome bool * R;
  RunsApi_get_run : string -> Z -> R -> outcome bool * R;
  MilestonesApi_create_milestone : string -> string -> R -> outcome Z * R
}.

Inductive log_level : Type := INFO | WARNING | ERROR.

(** A log record: level, the text of the message template, and the values
    formatted into it. *)
Record log_record : Type := mkLog {
  level : log_level;
  message : string;
  about : list string
}.

(** The world the client runs in: the remote, the history of its calls, and
    the log. *)
Record env (R : Type) : Type := mkEnv {
  remote : R;
  trace : list (request * outcome response);
  logged : list log_record
}.
Arguments mkEnv {R} _ _ _.
Arguments remote {R} _.
Arguments trace {R} _.
Arguments logged {R} _.

(** One call through the API client: the remote moves, the call is recorded;
    a refusal by the server surfaces as [ApiException], any other failure of
    the client as [ClientError]. *)
Definition call {R A} (rq : request) (inj : A -> response)
    (f : R -> outcome A * R) : M (env R) A :=
  fun e =>
    let (o, r') := f (remote e) in
    let e' := mkEnv r' (trace e ++ [(rq, outcome_map inj o)]) (logged e) in
    match o with
    | Success a => (Ok a, e')
    | Failure reason => (Raise (ApiException reason), e')
    | Crash name => (Raise (ClientError name), e')
    end.

Definition logger {R} (lvl : log_level) (msg : string) (args : list string)
    : M (env R) unit :=
  modify (fun e => mkEnv (remote e) (trace e) (logged e ++ [mkLog lvl msg args])).

(** [try: body except ApiException as ex: handler ex] *)
Definition try_except_ApiException {St A} (body : M St A)
    (handler : string -> M St A) : M St A :=
  fun s =>
    match body s with
    | (Raise (ApiException reason), s') => handler reason s'
    | other => other
    end.

(** ** The client: class [QaseIO] *)

Record QaseIO : Type := mkQaseIO { project_code : string }.

Section Client.
Context {R : Type} `{RemoteApi R}.
Variable self : QaseIO.

Definition get_test_case (case_id : Z) : M (env R) (option TestCase.t) :=
  if case_id =? 0 then raise (AssertionError "case_id is required")
  else
    try_except_ApiException
      (let* origin := call (GetCase (project_code self) case_id) CaseResponse
                           (CasesApi_get_case (project_code self) case_id) in
       ret (Some origin))
      (fun ex =>
         logger ERROR "Exception while trying to get Qase test case" [ex] ;;;
         ret None).

(** [get_suites()] and [get_cases()]: the paginated fetch with its default
    window, [limit=100, offset=0].  Keyword arguments are handed through to
    the API client and are not modelled; a client that does not accept one
    of them raises on the request, which is a [Crash] of that request. *)
Definition get_suites (depth : nat) : M (env R) (list Suite.t) :=
  get_all_instances depth
    (fun limit offset =>
       call (GetSuites (project_code self) limit offset) SuitesResponse
            (SuitesApi_get_suites (project_code self) limit offset))
    100 0.

Definition get_cases (depth : nat) : M (env R) (list TestCase.t) :=
  get_all_instances depth
    (fun limit offset =>
       call (GetCases (project_code self) limit offset) CasesResponse
            (CasesApi_get_cases (project_code self) limit offset))
    100 0.

(** [create_qase_test_run(title, custom_fields)], without further keyword
    arguments. *)
Definition create_qase_test_run (title : string)
    (custom_fields : option (list (string * string))) : M (env R) (option Z) :=
  let args := mkRunCreate title true custom_fields in
  try_except_ApiException
    (let* api_response := call (CreateRun (project_code self) args) IdResponse
                               (RunsApi_create_run (project_code self) args) in
     ret (Some api_response))
    (fun e =>
       logger ERROR "Exception while trying to create a Qase run" [e] ;;;
       ret None).

Definition complete_qase_test_run (run_id : Z) : M (env R) (option bool) :=
  try_except_ApiException
    (logger INFO "Attempting to complete a Qase test run" [project_code self] ;;;
     let* api_response := call (CompleteRun (project_code self) run_id) BaseResponse
                               (RunsApi_complete_run (project_code self) run_id) in
     ret (Some api_response))
    (fun e =>
       logger ERROR "Exception while trying to complete a Qase run" [e] ;;;
       ret None).

Definition delete_a_test_case (case_id : Z) : M (env R) (option bool) :=
  try_except_ApiException
    (let* api_response := call (DeleteCase (project_code self) case_id) BaseResponse
                               (CasesApi_delete_case (project_code self) case_id) in
     ret (Some api_response))
    (fun e =>
       logger ERROR "Exception while trying to delete a Qase test case" [e] ;;;
       ret None).

Definition update_a_test_case (case_id : Z) (update_dict : TestCaseUpdate)
    : M (env R) (option bool) :=
  try_except_ApiException
    (let* api_response := call (UpdateCase (project_code self) case_id update_dict) BaseResponse
                               (CasesApi_update_case (project_code self) case_id update_dict) in
     ret (Some api_response))
    (fun e =>
       logger ERROR "Exception while trying to update a Qase test case" [e] ;;;
       ret None).

Definition create_test_case (payload_dict : TestCaseCreate) : M (env R) (option Z) :=
  try_except_ApiException
    (let* api_response := call (CreateCase (project_code self) payload_dict) IdResponse
                               (CasesApi_create_case (project_code self) payload_dict) in
     ret (Some api_response))
    (fun ex =>
       logger ERROR "Exception while trying to create a new Qase test case" [ex] ;;;
       ret None).

(** [create_milestone]: the call is not inside a [try]. *)
Definition create_milestone (milestone_title : string) : M (env R) Z :=
  let* res := call (CreateMilestone (project_code self) milestone_title) IdResponse
                   (MilestonesApi_create_milestone (project_code self) milestone_title) in
  ret res.

(** [get_run(run_id=0)]: the call is made only for a truthy [run_id]; in
    every other case the function falls off its end and returns [None]. *)
Definition get_run (run_id : Py.pyid) : M (env R) (option bool) :=
  try_except_ApiException
    (match run_id with
     | Some rid =>
         if Py.truthy run_id then
           let* api_response := call (GetRun (project_code self) rid) BaseResponse
                                     (RunsApi_get_run (project_code self) rid) in
           ret (Some api_response)
         else ret None
     | None => ret None
     end)
    (fun ex =>
       logger ERROR "Exception while trying to get a Qase run" [ex] ;;;
       ret None).

(** [create_qase_suite(suite_name, parent_id)]: returns the new id, or
    [None] after a logged failure.  [parent_id] goes into the payload only
    when it is truthy. *)
Definition create_qase_suite (suite_name : string) (parent_id : Py.pyid)
    : M (env R) Py.pyid :=
  let args := mkSuiteCreate suite_name (if Py.truthy parent_id then parent_id else None) in
  try_except_ApiException
    (let* api_response := call (CreateSuite (project_code self) args) IdResponse
                               (SuitesApi_create_suite (project_code self) args) in
     ret (Some api_response))
    (fun e =>
       logger ERROR "Exception while trying to create a Qase suite" [e] ;;;
       ret None).

Definition update_suite (suite_id : Z) (kwargs : SuiteUpdate)
    : M (env R) (option bool) :=
  try_except_ApiException
    (let* api_response := call (UpdateSuite (project_code self) suite_id kwargs) BaseResponse
                               (SuitesApi_update_suite (project_code self) suite_id kwargs) in
     ret (Some api_response))
    (fun e =>
       logger ERROR "Exception while trying to update a Qase suite" [e] ;;;
       ret None).

(** *** Case field editor *)

(** The loop over [unwanted_values] for one key that was found in
    [origin_params].  [origin_params[unwanted_key]] is read again for every
    value, also after the key was deleted. *)
Fixpoint remove_values (unwanted_key : string) (unwanted_values : list string)
    (origin_params : gmap string (list string)) (found : bool)
    : result (gmap string (list string) * bool) :=
  match unwanted_values with
  | [] => Ok (origin_params, found)
  | unwanted_value :: rest =>
      match origin_params !! unwanted_key with
      | None => Raise (KeyError unwanted_key)
      | Some values =>
          if bool_decide (unwanted_value ∈ values) then
            let values' := Py.list_remove unwanted_value values in
            let removed := <[unwanted_key := values']> origin_params in
            let pruned :=
              match values' with
              | [] => delete unwanted_key removed
              | _ => removed
              end in
            remove_values unwanted_key rest pruned true
          else remove_values unwanted_key rest origin_params found
      end
  end.

(** The loop over [unwanted_params.items()]. *)
Fixpoint remove_unwanted (unwanted_params : list (string * list string))
    (origin_params : gmap string (list string)) (found : bool)
    : result (gmap string (list string) * bool) :=
  match unwanted_params with
  | [] => Ok (origin_params, found)
  | (unwanted_key, unwanted_values) :: rest =>
      match origin_params !! unwanted_key with
      | Some _ =>
          match remove_values unwanted_key unwanted_values origin_params found with
          | Ok (origin_params', found') => remove_unwanted rest origin_params' found'
          | Raise e => Raise e
          end
      | None => remove_unwanted rest origin_params found
      end
  end.

(** One round of the loop over [params.items()] of the Add operation. *)
Definition add_param `{Py.SetOrder} (origin_params : gmap string (list string))
    (item : string * list string) : gmap string (list string) :=
  let (key, values) := item in
  match origin_params !! key with
  | None => <[key := values]> origin_params
  | Some existing => <[key := Py.list_of_set (existing ++ values)]> origin_params
  end.

Definition add_params `{Py.SetOrder} (params : list (string * list string))
    (origin_params : gmap string (list string)) : gmap string (list string) :=
  fold_left add_param params origin_params.

Definition params_update (origin_params : gmap string (list string)) : TestCaseUpdate :=
  mkTestCaseUpdate None (Some origin_params).

Definition qase_remove_unwanted_params_from_case
    (unwanted_params : list (string * list string)) (case : Z) : M (env R) unit :=
  let* origin := get_test_case case in
  match origin with
  | None => ret tt
  | Some origin =>
      let* removal := lift_result (remove_unwanted unwanted_params (TestCase.params origin) false) in
      let (origin_params, unwanted_found) := removal : gmap string (list string) * bool in
      if unwanted_found then
        logger INFO "Removing params from case" [] ;;;
        update_a_test_case case (params_update origin_params) ;;;
        ret tt
      else ret tt
  end.

Definition qase_remove_unwanted_params_from_cases (cases : list Z)
    (unwanted_params : list (string * list string)) : M (env R) unit :=
  for_each cases (qase_remove_unwanted_params_from_case unwanted_params).

Definition qase_add_params_to_case `{Py.SetOrder}
    (params : list (string * list string)) (case : Z) : M (env R) unit :=
  let* origin := get_test_case case in
  match origin with
  | None => ret tt
  | Some origin =>
      let origin_params := add_params params (TestCase.params origin) in
      logger INFO "Updating params to case" [] ;;;
      update_a_test_case case (params_update origin_params) ;;;
      ret tt
  end.

Definition qase_add_params_to_cases `{Py.SetOrder} (cases : list Z)
    (params : list (string * list string)) : M (env R) unit :=
  for_each cases (qase_add_params_to_case params).

Definition replace_params_in_case `{Py.SetOrder}
    (unwanted_params wanted_params : list (string * list string)) (case : Z)
    : M (env R) unit :=
  let* origin := get_test_case case in
  match origin with
  | None => ret tt
  | Some origin =>
      let* removal := lift_result (remove_unwanted unwanted_params (TestCase.params origin) false) in
      let (origin_params, add_wanted_params) := removal : gmap string (list string) * bool in
      if add_wanted_params then
        let origin_params := add_params wanted_params origin_params in
        logger INFO "Removing params from case" [] ;;;
        logger INFO "Updating params to case" [] ;;;
        update_a_test_case case (params_update origin_params) ;;;
        ret tt
      else ret tt
  end.

Definition replace_params_in_cases `{Py.SetOrder} (cases : list Z)
    (unwanted_params wanted_params : list (string * list string)) : M (env R) unit :=
  for_each cases (replace_params_in_case unwanted_params wanted_params).

End Client.

(** *** Suite synchronizer *)

(** An entry of the local test index: [test_case.get('Qase ID', '')] ... *)
Record test_case : Type := mkTestCase { qase_id : Py.pyid }.

(** ... and [test_file.get('Suite Name', '')], [test_file['Test Cases']]. *)
Record test_file : Type := mkTestFile {
  suite_name_field : option string;
  test_cases : list test_case
}.

(** The values held by [qase_new_dict[parent_suite]]: under ['id'] the id of
    the parent suite, under a leaf-suite name [{'cases': [...], 'id': ...}]. *)
Inductive suite_entry : Type :=
| IdEntry (id : Py.pyid)
| LeafEntry (cases : list Z) (id : Py.pyid).

(** The variables the loop over the files updates. *)
Record sync_state : Type := mkSync {
  qase_suites : list Suite.t;
  qase_new_dict : gmap string (gmap string suite_entry);
  known_suites : gmap string Py.pyid
}.

(** [' '.join(suite.title.lower().split('(', 1)[0].strip().replace('-', '').split())] *)
Definition clean_suite_name (title : string) : string :=
  Py.join " "
    (Py.split (Py.replace_with_empty "-" (Py.strip (Py.split_once_head "(" (Py.lower title))))).

(** [clean_suite_name == name.lower()] *)
Definition suite_matches (suite : Suite.t) (name : string) : bool :=
  String.eqb (clean_suite_name (Suite.title suite)) (Py.lower name).

(** [suite_id = 0], then the id of the first remote suite that matches. *)
Definition find_suite_id (suites : list Suite.t) (name : string) : Py.pyid :=
  match List.find (fun suite => suite_matches suite name) suites with
  | Some suite => Some (Suite.id suite)
  | None => Some 0
  end.

(** A loop that carries its variables from one round to the next. *)
Fixpoint fold_m {St A S} (xs : list A) (body : A -> S -> M St S) (s : S) : M St S :=
  match xs with
  | [] => ret s
  | x :: rest => let* s' := body x s in fold_m rest body s'
  end.

Section Synchronizer.
Context {R : Type} `{RemoteApi R}.
Variable self : QaseIO.
Variable depth : nat.
Variable move_cases : bool.
Variable root_parent_suite : Py.pyid.
Variable assert_parent_suite : bool.

(** [if parent_suite not in qase_new_dict: ...] *)
Definition resolve_parent (parent_suite suite_name : string) (st : sync_state)
    : M (env R) sync_state :=
  match qase_new_dict st !! parent_suite with
  | Some _ => ret st
  | None =>
      let* st1 :=
        (if assert_parent_suite then
           match known_suites st !! parent_suite with
           | Some _ => ret st
           | None =>
               raise (AssertionError ("Parent suite " +:+ Py.quoted parent_suite
                                      +:+ " not found in known suites"))
           end
         else
           let suite_id := find_suite_id (qase_suites st) parent_suite in
           if Py.truthy suite_id then ret st
           else
             let* suite_id := create_qase_suite self parent_suite root_parent_suite in
             logger INFO "New suite created" [suite_name] ;;;
             let* suites := get_suites self depth in
             ret (mkSync suites (qase_new_dict st)
                         (<[parent_suite := suite_id]> (known_suites st)))) in
      match known_suites st1 !! parent_suite with
      | None => raise (KeyError parent_suite)
      | Some parent_suite_id =>
          ret (mkSync (qase_suites st1)
                      (<[parent_suite := {["id" := IdEntry parent_suite_id]}]> (qase_new_dict st1))
                      (known_suites st1))
      end
  end.

(** [if suite_name not in qase_new_dict[parent_suite]: ...] *)
Definition resolve_leaf (parent_suite suite_name : string) (st : sync_state)
    : M (env R) sync_state :=
  match qase_new_dict st !! parent_suite with
  | None => raise (KeyError parent_suite)
  | Some inner =>
      match inner !! suite_name with
      | Some _ => ret st
      | None =>
          let suite_id :=
            match known_suites st !! suite_name with
            | Some known_id => known_id
            | None => find_suite_id (qase_suites st) suite_name
            end in
          let* created :=
            (if Py.truthy suite_id then ret (suite_id, qase_suites st)
             else
               let* parent_id :=
                 match inner !! "id" with
                 | Some (IdEntry id) => ret id
                 | Some (LeafEntry _ _) => raise TypeError
                 | None => ret root_parent_suite
                 end in
               let* suite_id := create_qase_suite self suite_name parent_id in
               logger INFO "New suite created" [suite_name] ;;;
               let* suites := get_suites self depth in
               ret (suite_id, suites)) in
          let (suite_id, suites) := created : Py.pyid * list Suite.t in
          ret (mkSync suites
                      (<[parent_suite := <[suite_name := LeafEntry [] suite_id]> inner]>
                         (qase_new_dict st))
                      (known_suites st))
      end
  end.

(** One round of [for test_case in test_file['Test Cases']: ...] *)
Definition record_case (qase_cases : list TestCase.t) (parent_suite suite_name : string)
    (case : test_case) (st : sync_state) : M (env R) sync_state :=
  match qase_id case with
  | Some qid =>
      if Py.truthy (qase_id case) then
        match qase_new_dict st !! parent_suite with
        | None => raise (KeyError parent_suite)
        | Some inner =>
            match inner !! suite_name with
            | None => raise (KeyError suite_name)
            | Some (IdEntry _) => raise TypeError
            | Some (LeafEntry cases leaf_id) =>
                let st' :=
                  mkSync (qase_suites st)
                         (<[parent_suite := <[suite_name := LeafEntry (cases ++ [qid]) leaf_id]> inner]>
                            (qase_new_dict st))
                         (known_suites st) in
                match List.find (fun qase_case => TestCase.id qase_case =? qid) qase_cases with
                | Some qase_case =>
                    if bool_decide (TestCase.suite_id qase_case <> leaf_id) then
                      if move_cases then
                        logger INFO "Moving Test case to Qase suite" [suite_name] ;;;
                        update_a_test_case self qid (mkTestCaseUpdate (Some leaf_id) None) ;;;
                        ret st'
                      else
                        logger WARNING "Test case needs to be moved to Qase suite" [suite_name] ;;;
                        ret st'
                    else ret st'
                | None => ret st'
                end
            end
        end
      else ret st
  | None => ret st
  end.

(** The body of [for test_file in full_index: ...] *)
Definition sync_file (qase_cases : list TestCase.t) (file : test_file) (st : sync_state)
    : M (env R) sync_state :=
  let name_split := Py.split (default "" (suite_name_field file)) in
  match name_split with
  | [] => ret st
  | _ :: _ =>
      let* parent_suite := lift_result (Py.index name_split 1) in
      let suite_name := Py.join " " (skipn 1 name_split) in
      let* st := resolve_parent parent_suite suite_name st in
      let* st := resolve_leaf parent_suite suite_name st in
      fold_m (test_cases file) (record_case qase_cases parent_suite suite_name) st
  end.

(** [update_test_suites_from_pytest]; [full_index] is what
    [get_pytest_files_index] found. *)
Definition update_test_suites_from_pytest (full_index : list test_file)
    (known_suites : gmap string Py.pyid)
    : M (env R) (gmap string (gmap string suite_entry)) :=
  let* qase_suites := get_suites self depth in
  let* qase_cases := get_cases self depth in
  let* st := fold_m full_index (sync_file qase_cases) (mkSync qase_suites ∅ known_suites) in
  ret (qase_new_dict st).

End Synchronizer.

(** ** An in-memory remote

    A small Qase project held in memory, to run the client on concrete
    inputs: cases and suites are stored in lists, new suites get the next free
    id, and [faults] schedules transport failures (the head decides whether
    the next call fails). *)

Module Sim.

Record t : Type := mk {
  cases : list TestCase.t;
  suites : list Suite.t;
  next_id : Z;
  faults : list bool
}.

Definition attempt {A} (r : t) (k : t -> outcome A * t) : outcome A * t :=
  match faults r with
  | true :: rest => (Failure "connection failed", mk (cases r) (suites r) (next_id r) rest)
  | false :: rest => k (mk (cases r) (suites r) (next_id r) rest)
  | [] => k r
  end.

Definition apply_update (upd : TestCaseUpdate) (c : TestCase.t) : TestCase.t :=
  TestCase.mk (TestCase.id c)
    (match upd_suite_id upd with Some sid => sid | None => TestCase.suite_id c end)
    (match upd_params upd with Some p => p | None => TestCase.params c end).

Definition has_case (case_id : Z) (r : t) : bool :=
  existsb (fun c => TestCase.id c =? case_id) (cases r).

Definition sim_get_case (case_id : Z) (r : t) : outcome TestCase.t * t :=
  attempt r (fun r =>
    match List.find (fun c => TestCase.id c =? case_id) (cases r) with
    | Some c => (Success c, r)
    | None => (Failure "404 Not Found", r)
    end).

Definition sim_update_case (case_id : Z) (upd : TestCaseUpdate) (r : t) : outcome bool * t :=
  attempt r (fun r =>
    if has_case case_id r then
      (Success true,
       mk (map (fun c => if TestCase.id c =? case_id then apply_update upd c else c) (cases r))
          (suites r) (next_id r) (faults r))
    else (Failure "404 Not Found", r)).

Definition sim_delete_case (case_id : Z) (r : t) : outcome bool * t :=
  attempt r (fun r =>
    if has_case case_id r then
      (Success true,
       mk (List.filter (fun c => negb (TestCase.id c =? case_id)) (cases r))
          (suites r) (next_id r) (faults r))
    else (Failure "404 Not Found", r)).

Definition sim_create_case (payload : TestCaseCreate) (r : t) : outcome Z * t :=
  attempt r (fun r =>
    (Success (next_id r),
     mk (cases r ++ [TestCase.mk (next_id r) (tc_suite_id payload) ∅])
        (suites r) (next_id r + 1) (faults r))).

Definition sim_create_suite (payload : SuiteCreate) (r : t) : outcome Z * t :=
  attempt r (fun r =>
    (Success (next_id r),
     mk (cases r)
        (suites r ++ [Suite.mk (next_id r) (sc_title payload) (sc_parent_id payload)])
        (next_id r + 1) (faults r))).

Definition sim_list {E} (db : t -> list E) (limit offset : Z) (r : t)
    : outcome (ListResponse E) * t :=
  attempt r (fun r => (Success (page (db r) limit offset), r)).

Definition sim_ack {A} (a : A) (r : t) : outcome A * t :=
  attempt r (fun r => (Success a, r)).

End Sim.

#[export] Instance sim_api : RemoteApi Sim.t := {|
  CasesApi_get_case := fun _ => Sim.sim_get_case;
  CasesApi_update_case := fun _ => Sim.sim_update_case;
  CasesApi_delete_case := fun _ => Sim.sim_delete_case;
  CasesApi_create_case := fun _ => Sim.sim_create_case;
  CasesApi_get_cases := fun _ => Sim.sim_list Sim.cases;
  SuitesApi_get_suites := fun _ => Sim.sim_list Sim.suites;
  SuitesApi_create_suite := fun _ => Sim.sim_create_suite;
  SuitesApi_update_suite := fun _ _ _ => Sim.sim_ack true;
  RunsApi_create_run := fun _ _ r => Sim.sim_ack (Sim.next_id r) r;
  RunsApi_complete_run := fun _ _ => Sim.sim_ack true;
  RunsApi_get_run := fun _ _ => Sim.sim_ack true;
  MilestonesApi_create_milestone := fun _ _ r => Sim.sim_ack (Sim.next_id r) r
|}.

(** A fresh client world over a remote. *)
Definition start {R} (r : R) : env R := mkEnv r [] [].

(** ** Predicates used in the statements *)

(** Some listed unwanted (key, value) pair occurs in the parameter map. *)
Definition unwanted_occurs (unwanted_params : list (string * list string))
    (origin_params : gmap string (list string)) : bool :=
  existsb (fun item : string * list string =>
             match origin_params !! item.1 with
             | Some values => existsb (fun v => bool_decide (v ∈ values)) item.2
             | None => false
             end) unwanted_params.

(** Two parameter maps with the same keys and, under each key, the same set
    of values. *)
Definition same_params (m1 m2 : gmap string (list string)) : Prop :=
  forall key,
    (is_Some (m1 !! key) <-> is_Some (m2 !! key))
    /\ (forall v, v ∈ default [] (m1 !! key) <-> v ∈ default [] (m2 !! key)).

(** The character [c] occurs in [s]. *)
Fixpoint contains_char (c : ascii) (s : string) : bool :=
  match s with
  | EmptyString => false
  | String d r => Ascii.eqb d c || contains_char c r
  end.

(** A token of [str.split()]: not empty, no white space. *)
Fixpoint no_space (s : string) : bool :=
  match s with
  | EmptyString => true
  | String c r => negb (Py.is_space c) && no_space r
  end.

Definition is_token (t : string) : bool :=
  match t with
  | EmptyString => false
  | String _ _ => no_space t
  end.

(** The last character of [s] is no white space. *)
Fixpoint ends_token (s : string) : bool :=
  match s with
  | EmptyString => false
  | String c EmptyString => negb (Py.is_space c)
  | String _ r => ends_token r
  end.

(** A computation that never lets an [ApiException] out. *)
Definition contains_api_failures {R A} (m : M (env R) A) : Prop :=
  forall e reason e', m e <> (Raise (ApiException reason), e').

(** The requests a computation adds to the history. *)
Definition issued {R A} (m : M (env R) A) (e : env R) : list (request * outcome response) :=
  drop (length (trace e)) (trace (m e).2).

Definition is_update_of (case_id : Z) (ev : request * outcome response) : bool :=
  match ev.1 with
  | UpdateCase _ id _ => id =? case_id
  | _ => false
  end.

(** ** Reading the history of a synchronization pass *)

(** The title a create-suite request asks for. *)
Definition create_title (ev : request * outcome response) : option string :=
  match ev.1 with
  | CreateSuite _ payload => Some (sc_title payload)
  | _ => None
  end.

(** A create-suite request that was answered with a usable (non-zero) id:
    the title and the id of the suite that was created. *)
Definition created (ev : request * outcome response) : option (string * Z) :=
  match ev with
  | (CreateSuite _ payload, Success (IdResponse id)) =>
      if id =? 0 then None else Some (sc_title payload, id)
  | _ => None
  end.

Definition titles (evs : list (request * outcome response)) : list string :=
  omap create_title evs.

Definition creations (evs : list (request * outcome response)) : list (string * Z) :=
  omap created evs.

(** The request for the first page of the suite list, as [get_suites()]
    issues it. *)
Definition is_first_page_of_suites (ev : request * outcome response) : bool :=
  match ev.1 with
  | GetSuites _ limit offset => (limit =? 100) && (offset =? 0)
  | _ => false
  end.

(** The client raised something else than [ApiException] on the request. *)
Definition crashed (ev : request * outcome response) : bool :=
  match ev.2 with
  | Crash _ => true
  | _ => false
  end.

(** Every create-suite request that the client came back from is directly
    followed by a refresh. *)
Fixpoint refreshed (evs : list (request * outcome response)) : bool :=
  match evs with
  | [] => true
  | ev :: rest =>
      (match create_title ev with
       | Some _ =>
           crashed ev
           || match rest with
              | next :: _ => is_first_page_of_suites next
              | [] => false
              end
       | None => true
       end) && refreshed rest
  end.

(** Once a suite was created, no later request creates one of that title. *)
Fixpoint no_recreate (evs : list (request * outcome response)) : Prop :=
  match evs with
  | [] => True
  | ev :: rest =>
      match created ev with
      | Some (title, _) => title ∉ titles rest
      | None => True
      end /\ no_recreate rest
  end.

(** The page of the suite list that an answered list request delivered, with
    the offset it was asked at. *)
Definition suites_page (ev : request * outcome response) : option (Z * list Suite.t) :=
  match ev with
  | (GetSuites _ _ offset, Success (SuitesResponse res)) =>
      match list_result res with
      | Some r => Some (offset, entities r)
      | None => None
      end
  | _ => None
  end.

(** The suite list as the history last delivered it: the page at offset 0
    starts the list anew, a later page extends it. *)
Fixpoint suites_fetched (acc : list Suite.t) (evs : list (request * outcome response))
    : list Suite.t :=
  match evs with
  | [] => acc
  | ev :: rest =>
      match suites_page ev with
      | Some (offset, page) => suites_fetched (if offset =? 0 then page else acc ++ page) rest
      | None => suites_fetched acc rest
      end
  end.

(** What allows a create-suite request for [title] after the history [pre]:
    no suite of the list last fetched matches the title; or [known_suites]
    names the title with an absent id; or an earlier request of the pass
    asked to create it. *)
Definition unmatched (known : gmap string Py.pyid) (pre : list (request * outcome response))
    (title : string) : Prop :=
  Py.truthy (find_suite_id (suites_fetched [] pre) title) = false
  \/ (exists v, known !! title = Some v /\ Py.truthy v = false)
  \/ title ∈ titles pre.

(** Every create-suite request of [evs], issued after [pre], was allowed. *)
Fixpoint creates_unmatched (known : gmap string Py.pyid)
    (pre evs : list (request * outcome response)) : Prop :=
  match evs with
  | [] => True
  | ev :: rest =>
      match create_title ev with
      | Some title => unmatched known pre title
      | None => True
      end /\ creates_unmatched known (pre ++ [ev]) rest
  end.

Definition entry_id (entry : suite_entry) : Py.pyid :=
  match entry with
  | IdEntry id => id
  | LeafEntry _ id => id
  end.

(** What the variables of the pass have in common with its history [evs]:
    every resolved parent is a token whose ['id'] entry is its entry in
    [known_suites]; every other entry is a leaf whose name starts with its
    parent; a leaf named like its parent took the known id unless that was
    absent; and every suite created so far is recorded under its title, as a
    parent (dict and [known_suites]) or as a leaf. *)
Record sync_inv (st : sync_state) (evs : list (request * outcome response)) : Prop := {
  inv_refreshed : refreshed evs = true;
  inv_no_recreate : no_recreate evs;
  inv_parent : forall p inner,
    qase_new_dict st !! p = Some inner ->
    is_token p = true
    /\ exists v, inner !! "id" = Some (IdEntry v) /\ known_suites st !! p = Some v;
  inv_leaf : forall p inner name entry,
    qase_new_dict st !! p = Some inner -> inner !! name = Some entry -> name <> "id" ->
    (exists rest, forallb is_token rest = true /\ name = Py.join " " (p :: rest))
    /\ exists cases v, entry = LeafEntry cases v;
  inv_own_leaf : forall p inner cases v,
    qase_new_dict st !! p = Some inner -> inner !! p = Some (LeafEntry cases v) ->
    known_suites st !! p = Some v
    \/ exists w, known_suites st !! p = Some w /\ Py.truthy w = false;
  inv_created : forall title id,
    (title, id) ∈ creations evs ->
    (is_token title = true
     /\ is_Some (qase_new_dict st !! title)
     /\ known_suites st !! title = Some (Some id))
    \/ (exists p rest inner cases,
          is_token p = true /\ forallb is_token rest = true
          /\ title = Py.join " " (p :: rest)
          /\ qase_new_dict st !! p = Some inner
          /\ inner !! title = Some (LeafEntry cases (Some id)))
}.

(** What the variables of the pass have in common with the suite lists the
    history delivered: the list that is searched is the list last fetched;
    an entry of [known_suites] is the caller's, or the answer to a create
    request of the pass; and every create request was allowed. *)
Record fresh_inv (known : gmap string Py.pyid) (st : sync_state)
    (evs : list (request * outcome response)) : Prop := {
  fresh_suites : qase_suites st = suites_fetched [] evs;
  fresh_known : forall key v,
    known_suites st !! key = Some v -> known !! key = Some v \/ key ∈ titles evs;
  fresh_creates : creates_unmatched known [] evs
}.

Definition fresh_ok {R} (known : gmap string Py.pyid)
    (base : list (request * outcome response)) (st : sync_state) (e : env R) : Prop :=
  exists evs, trace e = base ++ evs /\ fresh_inv known st evs.

Definition unmatched_ok {R} (known : gmap string Py.pyid)
    (base : list (request * outcome response)) (e : env R) : Prop :=
  exists evs, trace e = base ++ evs /\ creates_unmatched known [] evs.

Definition fresh_post {R} (known : gmap string Py.pyid)
    (base : list (request * outcome response)) (out : result sync_state * env R) : Prop :=
  match out with
  | (Ok st, e) => fresh_ok known base st e
  | (Raise _, e) => unmatched_ok known base e
  end.

(** The same, for a world: [base] is the history before the pass. *)
Definition sync_ok {R} (base : list (request * outcome response)) (st : sync_state)
    (e : env R) : Prop :=
  exists evs, trace e = base ++ evs /\ sync_inv st evs.

Definition trace_ok {R} (base : list (request * outcome response)) (e : env R) : Prop :=
  exists evs, trace e = base ++ evs /\ refreshed evs = true /\ no_recreate evs.

Definition sync_post {R} (base : list (request * outcome response))
    (out : result sync_state * env R) : Prop :=
  match out with
  | (Ok st, e) => sync_ok base st e
  | (Raise _, e) => trace_ok base e
  end.

(** Every entry of [d] is still present in [d']. *)
Definition keeps (d d' : gmap string (gmap string suite_entry)) : Prop :=
  forall p inner name,
    d !! p = Some inner -> is_Some (inner !! name) ->
    exists inner', d' !! p = Some inner' /\ is_Some (inner' !! name).

(** The index holds the parent and the leaf of a file with two tokens or
    more. *)
Definition covered (file : test_file) (d : gmap string (gmap string suite_entry)) : Prop :=
  forall first p rest,
    Py.split (default "" (suite_name_field file)) = first :: p :: rest ->
    exists inner, d !! p = Some inner /\ is_Some (inner !! Py.join " " (p :: rest)).

(** ** Sample data for running the client *)

Definition demo : QaseIO := mkQaseIO "DEMO".

Definition case_with (case_id : Z) (params : list (string * list string)) : TestCase.t :=
  TestCase.mk case_id (Some 3) (list_to_map params).

Definition project_with (cases : list TestCase.t) : Sim.t := Sim.mk cases [] 10 [].


(** ** More of the client: copy, clear-all, search, milestones, results *)

Module Milestone.
Record t : Type := mk { id : Z; title : string }.
End Milestone.

Section MoreOfTheClient.
Context {R : Type} `{RemoteApi R}.
Variable self : QaseIO.

(** [qase_copy_params(case_to_copy, cases_to_update)]: [origin.result] is
    read without looking whether the fetch gave a result. *)
Definition qase_copy_params (case_to_copy : Z) (cases_to_update : list Z) : M (env R) unit :=
  let* origin := get_test_case self case_to_copy in
  match origin with
  | None => raise AttributeError
  | Some origin =>
      let origin_params := TestCase.params origin in
      logger INFO "Updating parameters dict from case to cases" [] ;;;
      for_each cases_to_update (fun case_to_update =>
        update_a_test_case self case_to_update (params_update origin_params) ;;;
        ret tt)
  end.

(** One round of [qase_remove_all_params_from_cases]. *)
Definition qase_remove_all_params_from_case (case : Z) : M (env R) unit :=
  let* origin := get_test_case self case in
  match origin with
  | Some origin =>
      let origin_params := TestCase.params origin in
      if bool_decide (origin_params = ∅) then ret tt
      else
        logger INFO "Removing all params from case" [] ;;;
        update_a_test_case self case (params_update ∅) ;;;
        ret tt
  | None => ret tt
  end.

Definition qase_remove_all_params_from_cases (cases : list Z) : M (env R) unit :=
  for_each cases qase_remove_all_params_from_case.

(** [get_milestone_id(milestone_title, create_missing)].  [get_milestones]
    stands for [MilestonesApi.get_milestones(code, limit)]; its call is not
    inside a [try]. *)
Definition get_milestone_id
    (get_milestones : string -> Z -> M (env R) (ListResponse Milestone.t))
    (milestone_title : string) (create_missing : bool) : M (env R) Z :=
  let* res := get_milestones (project_code self) 100 in
  match list_result res with
  | None => raise AttributeError
  | Some result =>
      let matches :=
        List.filter (fun i => String.eqb milestone_title (Milestone.title i))
                    (entities result) in
      match matches with
      | first :: _ => ret (Milestone.id first)
      | [] =>
          if create_missing then create_milestone self milestone_title
          else ret 0
      end
  end.

End MoreOfTheClient.

(** *** Search *)

(** The envelope of a search response: [res.result.entities] and
    [res.result.total]. *)
Record SearchResult (W : Type) : Type := mkSearchResult {
  search_entities : list W;
  total : Z
}.
Arguments mkSearchResult {W} _ _.
Arguments search_entities {W} _.
Arguments total {W} _.

Record SearchResponse (W : Type) : Type := mkSearchResponse {
  search_result : option (SearchResult W)
}.
Arguments mkSearchResponse {W} _.
Arguments search_result {W} _.

(** [qase_search_query(query, limit, offset)]; [func] is
    [SearchApi.search] for the query.  An entity [i] of a page that is
    followed by another page goes into the list as it is ([inl]); an entity
    of the page that ends the fetch goes in as [i.actual_instance] ([inr]). *)
Fixpoint qase_search_query {St W A} (actual_instance : W -> A) (depth : nat)
    (func : Z -> Z -> M St (SearchResponse W)) (limit offset : Z)
    : M St (list (W + A)) :=
  let* res := func limit offset in
  match search_result res with
  | Some r =>
      if limit + offset <? total r then
        match depth with
        | O => raise RecursionError
        | S d =>
            let* rest := qase_search_query actual_instance d func limit (offset + limit) in
            ret (map inl (search_entities r) ++ rest)
        end
      else ret (map (fun i => inr (actual_instance i)) (search_entities r))
  | None => raise AttributeError
  end.

(** A search operation that serves the collection [db] page by page. *)
Definition search_page {W} (db : list W) (limit offset : Z) : SearchResponse W :=
  mkSearchResponse (Some (mkSearchResult
    (firstn (Z.to_nat limit) (skipn (Z.to_nat offset) db))
    (Z.of_nat (length db)))).

(** *** Test results *)

(** [ResultCreate] built from [result_dict]. *)
Record ResultCreate : Type := mkResultCreate {
  res_case_id : Z;
  res_status : string;
  res_comment : string;
  res_time_ms : Z;
  res_param : option (gmap string string)
}.

(** Truth value of a str. *)
Definition nonempty (s : string) : bool :=
  match s with
  | EmptyString => false
  | String _ _ => true
  end.

(** The f-string of [update_test_results]. *)
Definition params_string (trans_mode test_params : string) : string :=
  (if nonempty trans_mode then "Transparency mode: " +:+ trans_mode else "")
  +:+ (if nonempty test_params then "; Other params: " +:+ test_params else "").

(** [result_dict] as [update_test_results] hands it to [ResultCreate]. *)
Definition result_dict (case_id : Z) (status comment os_name trans_mode test_params : string)
    (test_time : Z) : ResultCreate :=
  let param : option (gmap string string) :=
    if nonempty os_name then Some {["OS" := os_name]} else None in
  let param :=
    if nonempty trans_mode || nonempty test_params then
      match param with
      | Some p => Some (<["Test params" := params_string trans_mode test_params]> p)
      | None => Some {["Test params" := params_string trans_mode test_params]}
      end
    else param in
  mkResultCreate case_id status comment test_time param.

(** ** What a computation leaves in the history *)

(** Every request the computation adds to the history satisfies [P]. *)
Definition emits {R A} (P : request * outcome response -> Prop) (m : M (env R) A) : Prop :=
  forall e, exists new, trace (m e).2 = trace e ++ new /\ Forall P new.

(** The requests a synchronization pass may issue: the two list requests,
    create-suite, and, when cases are to be moved, an update that carries a
    suite id and nothing else. *)
Definition sync_request (move_cases : bool) (ev : request * outcome response) : Prop :=
  match ev.1 with
  | GetSuites _ _ _ => True
  | GetCases _ _ _ => True
  | CreateSuite _ _ => True
  | UpdateCase _ _ upd => move_cases = true /\ upd_params upd = None /\ is_Some (upd_suite_id upd)
  | _ => False
  end.

(** The requests of the case field editor: fetches, and updates that carry
    a parameter map accepted by [ok] and no suite id. *)
Definition editor_request (ok : gmap string (list string) -> Prop)
    (ev : request * outcome response) : Prop :=
  match ev.1 with
  | GetCase _ _ => True
  | UpdateCase _ _ upd => upd_suite_id upd = None /\ exists p, upd_params upd = Some p /\ ok p
  | _ => False
  end.

(** Every parameter map. *)
Definition any_params (params : gmap string (list string)) : Prop := True.

(** No key of the parameter map holds an empty list. *)
Definition no_empty_list (params : gmap string (list string)) : Prop :=
  forall key values, params !! key = Some values -> values <> [].

(** Every character of [s] passes [p]. *)
Fixpoint all_chars (p : ascii -> bool) (s : string) : bool :=
  match s with
  | EmptyString => true
  | String c r => p c && all_chars p r
  end.

(** A character that [str.lower()] leaves as it is. *)
Definition is_lowered (c : ascii) : bool := Ascii.eqb (Py.lower_char c) c.

(** ** What a pass records in the index it returns *)

(** The case a test case of a file under ([parent], [leaf]) adds to the
    index: its Qase id, when that is truthy. *)
Definition case_records (parent leaf : string) (case : test_case)
    : list (string * string * Z) :=
  match qase_id case with
  | Some qid => if Py.truthy (Some qid) then [(parent, leaf, qid)] else []
  | None => []
  end.

(** The cases of a file, with the parent- and leaf-suite name of the file. *)
Definition file_records (file : test_file) : list (string * string * Z) :=
  match Py.split (default "" (suite_name_field file)) with
  | _ :: parent :: rest =>
      flat_map (case_records parent (Py.join " " (parent :: rest))) (test_cases file)
  | _ => []
  end.

Definition pass_records (full_index : list test_file) : list (string * string * Z) :=
  flat_map file_records full_index.

(** The ids recorded under ([parent], [leaf]), in the order of the records. *)
Definition ids_under (parent leaf : string) (records : list (string * string * Z)) : list Z :=
  map snd (List.filter (fun r => bool_decide (r.1 = (parent, leaf))) records).

(** The index agrees with the records: every record has a leaf entry, and a
    leaf entry lists the ids recorded under its names, in order. *)
Record index_agrees (d : gmap string (gmap string suite_entry))
    (records : list (string * string * Z)) : Prop := {
  agrees_listed : forall parent leaf qid,
    (parent, leaf, qid) ∈ records ->
    exists inner cases id, d !! parent = Some inner /\ inner !! leaf = Some (LeafEntry cases id);
  agrees_cases : forall parent inner leaf cases id,
    d !! parent = Some inner -> inner !! leaf = Some (LeafEntry cases id) ->
    cases = ids_under parent leaf records
}.

(** The map after one value was taken from the list under [key]. *)
Definition after_removal (key value : string) (values : list string)
    (params : gmap string (list string)) : gmap string (list string) :=
  match Py.list_remove value values with
  | [] => delete key (<[key := Py.list_remove value values]> params)
  | _ :: _ => <[key := Py.list_remove value values]> params
  end.

(** ** Reading the history of a batch of the case field editor *)

(** The cases a history fetched, in order. *)
Definition fetched_ids (evs : list (request * outcome response)) : list Z :=
  omap (fun ev : request * outcome response =>
          match ev.1 with
          | GetCase _ case_id => Some case_id
          | _ => None
          end) evs.

(** A fetch that was answered delivered a case with parameters.  For a case
    without parameters the API answers the empty list where the code expects
    a dict; the model reads that answer as the empty map, and statements
    that depend on the difference are made for cases with parameters. *)
Definition with_params (ev : request * outcome response) : Prop :=
  match ev with
  | (GetCase _ _, Success (CaseResponse case)) => TestCase.params case <> ∅
  | _ => True
  end.

(** The computation ended because the client crashed on its last request. *)
Definition stopped_by_crash {A} (evs : list (request * outcome response)) (r : result A)
    : Prop :=
  exists pre rq name, evs = pre ++ [(rq, Crash name)] /\ r = Raise (ClientError name).

(** ** A remote that cannot be reached

    Every call ends in the transport error of the client. *)
Module Offline.

Definition refused {A} (r : unit) : outcome A * unit := (Crash "MaxRetryError", r).

End Offline.

Definition offline_api : RemoteApi unit := {|
  CasesApi_get_case := fun _ _ => Offline.refused;
  CasesApi_update_case := fun _ _ _ => Offline.refused;
  CasesApi_delete_case := fun _ _ => Offline.refused;
  CasesApi_create_case := fun _ _ => Offline.refused;
  CasesApi_get_cases := fun _ _ _ => Offline.refused;
  SuitesApi_get_suites := fun _ _ _ => Offline.refused;
  SuitesApi_create_suite := fun _ _ => Offline.refused;
  SuitesApi_update_suite := fun _ _ _ => Offline.refused;
  RunsApi_create_run := fun _ _ => Offline.refused;
  RunsApi_complete_run := fun _ _ => Offline.refused;
  RunsApi_get_run := fun _ _ => Offline.refused;
  MilestonesApi_create_milestone := fun _ _ => Offline.refused
|}.
(** * Properties *)

(** ** Paginated fetch *)

Section PaginatedFetch.
Context {St E : Type}.
Variable func : Z -> Z -> M St (ListResponse E).
Variable tick : St -> St.
Variable db : list E.

(** The remote list operation serves [db] page by page and reports
    [length db] as the total; each request leaves its mark [tick] on the
    state. *)
Hypothesis func_pages :
  forall limit offset s, func limit offset s = (Ok (page db limit offset), tick s).

Lemma get_all_instances_from (P : Z) (HP : 1 <= P) :
  forall (n depth : nat) (o : Z) (s : St),
    0 <= o ->
    (n <= depth)%nat ->
    Z.of_nat (length db) - o <= (Z.of_nat n + 1) * P ->
    (Z.of_nat n * P < Z.of_nat (length db) - o \/ n = O) ->
    get_all_instances depth func P o s =
      (Ok (skipn (Z.to_nat o) db), Nat.iter (S n) tick s).
Proof.
  induction n as [|n IH]; intros depth o s Ho Hd Hup Hlow.
  - assert (Hlt : (P + o <? Z.of_nat (length db)) = false) by (apply Z.ltb_ge; lia).
    assert (Hall : firstn (Z.to_nat P) (skipn (Z.to_nat o) db) = skipn (Z.to_nat o) db).
    { apply firstn_all2. rewrite length_skipn. lia. }
    destruct depth; simpl; unfold bind; rewrite func_pages; simpl;
      rewrite Hlt; unfold ret; rewrite Hall; reflexivity.
  - destruct Hlow as [Hlow|]; [|discriminate].
    destruct depth as [|d]; [lia|].
    assert (Hlt : (P + o <? Z.of_nat (length db)) = true) by (apply Z.ltb_lt; lia).
    simpl. unfold bind at 1. rewrite func_pages. simpl. rewrite Hlt.
    unfold bind. rewrite (IH d (o + P) (tick s)) by lia.
    unfold ret. f_equal.
    + f_equal.
      replace (Z.to_nat (o + P)) with (Z.to_nat P + Z.to_nat o)%nat by lia.
      rewrite <- skipn_skipn. apply firstn_skipn.
    + simpl. rewrite <- !Nat.iter_succ_r. reflexivity.
Qed.

End PaginatedFetch.

Lemma ceil_div_bounds (n p : Z) :
  1 <= p -> 0 <= n -> n <= ceil_div n p * p /\ (ceil_div n p - 1) * p < n.
Proof.
  intros Hp Hn. unfold ceil_div.
  pose proof (Z.div_mod (n + p - 1) p ltac:(lia)) as Hdm.
  pose proof (Z.mod_pos_bound (n + p - 1) p ltac:(lia)) as Hmod.
  nia.
Qed.

(** C1: for a remote list operation that serves a collection of N entities
    page by page and reports N as the total, [get_all_instances] called with
    page size P >= 1 at offset 0 returns the N entities in the order of the
    pages and issues exactly ceil(N/P) requests, one request when N = 0; a
    recursion budget of one call less than the requests suffices, so for
    N = 0 there is no recursive call. *)
Theorem get_all_instances_paginates {St E : Type}
    (func : Z -> Z -> M St (ListResponse E)) (tick : St -> St) (db : list E)
    (P : Z) (depth : nat) (s : St) :
  (forall limit offset s', func limit offset s' = (Ok (page db limit offset), tick s')) ->
  1 <= P ->
  (requests_needed (Z.of_nat (length db)) P <= S depth)%nat ->
  get_all_instances depth func P 0 s =
    (Ok db, Nat.iter (requests_needed (Z.of_nat (length db)) P) tick s)
  /\ (db <> [] -> Z.of_nat (requests_needed (Z.of_nat (length db)) P)
                  = ceil_div (Z.of_nat (length db)) P)
  /\ (db = [] -> requests_needed (Z.of_nat (length db)) P = 1%nat
                 /\ get_all_instances 0 func P 0 s = (Ok [], tick s)).
Proof.
  intros Hfunc HP Hdepth.
  set (N := Z.of_nat (length db)) in *.
  destruct (ceil_div_bounds N P HP ltac:(lia)) as [Hup Hlow].
  assert (Hreq : exists n, requests_needed N P = S n
                           /\ N <= (Z.of_nat n + 1) * P
                           /\ (Z.of_nat n * P < N \/ n = O)).
  { unfold requests_needed.
    exists (Z.to_nat (Z.max 1 (ceil_div N P)) - 1)%nat.
    split; [lia|].
    destruct (Z.max_spec 1 (ceil_div N P)) as [[Hc Hm]|[Hc Hm]]; rewrite Hm.
    - split; [|left]; replace (Z.of_nat (Z.to_nat (ceil_div N P) - 1)) with (ceil_div N P - 1) by lia; lia.
    - simpl. split; [|right; reflexivity]. nia. }
  destruct Hreq as (n & Hn & Hnup & Hnlow).
  split; [|split].
  - rewrite Hn.
    rewrite (get_all_instances_from func tick db Hfunc P HP n depth 0 s); try lia.
    reflexivity.
  - intros Hne. unfold requests_needed.
    assert (1 <= N) by (subst N; destruct db; [congruence|simpl; lia]).
    assert (1 <= ceil_div N P) by nia.
    lia.
  - intros ->. split.
    + subst N. unfold requests_needed, ceil_div. cbn [length Z.of_nat].
      rewrite Z.div_small by lia. reflexivity.
    + simpl. unfold bind. rewrite Hfunc. simpl.
      replace (P + 0 <? Z.of_nat 0) with false by (symmetry; apply Z.ltb_ge; lia).
      unfold ret. destruct (Z.to_nat P); reflexivity.
Qed.

Lemma get_all_instances_paginates_witness :
  get_all_instances 2 (fun l o (s : nat) => (Ok (page [10; 20; 30; 40; 50] l o), S s)) 2 0 0%nat
  = (Ok [10; 20; 30; 40; 50], 3%nat).
Proof.
  pose proof (get_all_instances_paginates (St := nat)
                (fun l o s => (Ok (page [10; 20; 30; 40; 50] l o), S s)) S
                [10; 20; 30; 40; 50] 2 2 0%nat
                (fun _ _ _ => eq_refl) ltac:(lia) ltac:(vm_compute; lia)) as [H _].
  exact H.
Defined.

(** ** Config store *)

Module QaseConfigFacts.
Import QaseConfig.

Lemma on_run_section f doc run :
  run_section doc = Some run ->
  exists doc', on_run f doc = Ok doc' /\ run_section doc' = Some (f run).
Proof.
  unfold run_section, on_run. intros H.
  destruct doc as [| | | | |top]; try discriminate.
  destruct (top !! "testops") as [[| | | | |testops]|] eqn:Ht; try discriminate.
  destruct (testops !! "run") as [[| | | | |r]|] eqn:Hr; try discriminate.
  injection H as <-. eexists; split; [reflexivity|].
  cbv beta iota. rewrite lookup_insert_eq.
  cbv beta iota. rewrite lookup_insert_eq. reflexivity.
Qed.

Lemma mutate_run_section f st run :
  run_section (config_obj st) = Some run ->
  exists doc', mutate_run f st = (Ok tt, mkStore doc' (file st))
               /\ run_section doc' = Some (f run).
Proof.
  intros H. destruct (on_run_section f _ _ H) as (doc' & Hon & Hsec).
  exists doc'. unfold mutate_run. rewrite Hon. auto.
Qed.

Ltac run_steps H :=
  repeat match goal with
  | |- context [mutate_run ?f ?st] =>
      let doc := fresh "doc" in
      let Hm := fresh "Hm" in
      let Hs := fresh "Hs" in
      destruct (mutate_run_section f st _ H) as (doc & Hm & Hs);
      rewrite Hm; clear Hm; clear H; rename Hs into H; cbn [config_obj file] in *
  | |- context [bind _ _ _] => unfold bind at 1
  end.

Lemma add_run_id_spec i st run :
  run_section (config_obj st) = Some run ->
  exists doc', add_run_id i st = (Ok tt, mkStore doc' (Some doc'))
    /\ run_section doc' = Some (<["complete" := JBool false]> (delete "title" (<["id" := JInt i]> run))).
Proof.
  intros H. unfold add_run_id. run_steps H.
  eexists; split; [reflexivity|exact H].
Qed.

Lemma add_run_title_spec t st run :
  run_section (config_obj st) = Some run ->
  exists doc', add_run_title t st = (Ok tt, mkStore doc' (Some doc'))
    /\ run_section doc' = Some (<["complete" := JBool true]> (delete "id" (<["title" := JStr t]> run))).
Proof.
  intros H. unfold add_run_title. run_steps H.
  eexists; split; [reflexivity|exact H].
Qed.

Lemma set_complete_spec b st run :
  run_section (config_obj st) = Some run ->
  exists doc', (mutate_run (fun run => <["complete" := JBool b]> run) ;;; write) st
               = (Ok tt, mkStore doc' (Some doc'))
    /\ run_section doc' = Some (<["complete" := JBool b]> run).
Proof.
  intros H. run_steps H.
  eexists; split; [reflexivity|exact H].
Qed.

Lemma reachable_run_section project_code key st :
  reachable project_code key st -> is_Some (run_section (config_obj st)).
Proof.
  induction 1 as [|op st st' Hr [run IH] Hop Hrun].
  - vm_compute. eauto.
  - destruct Hop as [Hin|[[i ->]|[[t ->]|[->| ->]]]].
    + destruct Hin as [<-|[<-|[]]]; inversion Hrun; subst; cbn; eauto.
    + destruct (add_run_id_spec i st run IH) as (d & Hd & Hs).
      rewrite Hd in Hrun. inversion Hrun; subst. cbn. eauto.
    + destruct (add_run_title_spec t st run IH) as (d & Hd & Hs).
      rewrite Hd in Hrun. inversion Hrun; subst. cbn. eauto.
    + destruct (set_complete_spec true st run IH) as (d & Hd & Hs).
      unfold complete_run in Hrun. rewrite Hd in Hrun. inversion Hrun; subst. cbn. eauto.
    + destruct (set_complete_spec false st run IH) as (d & Hd & Hs).
      unfold dont_complete_run in Hrun. rewrite Hd in Hrun. inversion Hrun; subst. cbn. eauto.
Qed.

(** C2: on every document that has a [testops.run] section (every store
    reachable from the default document has one), [add_run_id i] succeeds
    and leaves run.id = i, no run.title key and run.complete = false;
    [add_run_title t] leaves run.title = t, no run.id key and
    run.complete = true; both persist the document; [complete_run] and
    [dont_complete_run] do not touch id or title.  Hence every run operation
    preserves "never an id and a title together". *)
Theorem run_id_never_with_title (st : store) (run : gmap string json) (i : Z) (t : string) :
  run_section (config_obj st) = Some run ->
  (exists doc, add_run_id i st = (Ok tt, mkStore doc (Some doc))
     /\ run_key doc "id" = Some (JInt i)
     /\ run_key doc "title" = None
     /\ run_key doc "complete" = Some (JBool false)
     /\ never_both doc)
  /\ (exists doc, add_run_title t st = (Ok tt, mkStore doc (Some doc))
     /\ run_key doc "title" = Some (JStr t)
     /\ run_key doc "id" = None
     /\ run_key doc "complete" = Some (JBool true)
     /\ never_both doc)
  /\ (exists doc, complete_run st = (Ok tt, mkStore doc (Some doc))
     /\ run_key doc "id" = run_key (config_obj st) "id"
     /\ run_key doc "title" = run_key (config_obj st) "title"
     /\ run_key doc "complete" = Some (JBool true)
     /\ (never_both (config_obj st) -> never_both doc))
  /\ (exists doc, dont_complete_run st = (Ok tt, mkStore doc (Some doc))
     /\ run_key doc "id" = run_key (config_obj st) "id"
     /\ run_key doc "title" = run_key (config_obj st) "title"
     /\ run_key doc "complete" = Some (JBool false)
     /\ (never_both (config_obj st) -> never_both doc)).
Proof.
  intros H. repeat split.
  - destruct (add_run_id_spec i st run H) as (doc & Hd & Hs).
    exists doc. unfold never_both, run_key. rewrite Hs.
    rewrite lookup_insert_ne, lookup_delete_ne, lookup_insert_eq by done.
    rewrite lookup_insert_ne, lookup_delete_eq by done.
    rewrite lookup_insert_eq.
    repeat split; try done. intros [_ [x Hx]]. discriminate.
  - destruct (add_run_title_spec t st run H) as (doc & Hd & Hs).
    exists doc. unfold never_both, run_key. rewrite Hs.
    rewrite lookup_insert_ne, lookup_delete_ne, lookup_insert_eq by done.
    rewrite lookup_insert_ne, lookup_delete_eq by done.
    rewrite lookup_insert_eq.
    repeat split; try done. intros [[x Hx] _]. discriminate.
  - destruct (set_complete_spec true st run H) as (doc & Hd & Hs).
    exists doc. unfold complete_run, never_both, run_key. rewrite Hs, H.
    rewrite !lookup_insert_ne by done. rewrite lookup_insert_eq. done.
  - destruct (set_complete_spec false st run H) as (doc & Hd & Hs).
    exists doc. unfold dont_complete_run, never_both, run_key. rewrite Hs, H.
    rewrite !lookup_insert_ne by done. rewrite lookup_insert_eq. done.
Qed.

End QaseConfigFacts.

Lemma run_id_never_with_title_witness :
  exists doc,
    (QaseConfig.add_run_title "X" ;;; QaseConfig.add_run_id 7)
      (QaseConfig.init "DEMO" "key" None)
    = (Ok tt, QaseConfig.mkStore doc (Some doc))
    /\ QaseConfig.run_key doc "id" = Some (QaseConfig.JInt 7)
    /\ QaseConfig.run_key doc "title" = None
    /\ QaseConfig.run_key doc "complete" = Some (QaseConfig.JBool false).
Proof.
  pose (st0 := QaseConfig.init "DEMO" "key" None).
  pose (st1 := (QaseConfig.add_run_title "X" st0).2).
  assert (Hsec : QaseConfig.run_section (QaseConfig.config_obj st1)
                 = Some (<["complete" := QaseConfig.JBool true]>
                           (delete "id" (<["title" := QaseConfig.JStr "X"]>
                              {["complete" := QaseConfig.JBool false]}))))
    by (vm_compute; reflexivity).
  destruct (QaseConfigFacts.run_id_never_with_title st1 _ 7 "X" Hsec)
    as [(doc & Hrun & Hid & Htitle & Hcomplete & _) _].
  exists doc. repeat split; assumption.
Defined.

(** ** Case field editor *)

Section CaseFieldEditor.
Context {R : Type} `{RemoteApi R}.
Variable self : QaseIO.

Lemma remove_values_no_match key values unwanted_values params found :
  params !! key = Some values ->
  existsb (fun v => bool_decide (v ∈ values)) unwanted_values = false ->
  remove_values key unwanted_values params found = Ok (params, found).
Proof.
  intros Hk. induction unwanted_values as [|v rest IH]; simpl; intros Hno; [reflexivity|].
  apply orb_false_iff in Hno as [Hv Hrest].
  rewrite Hk, Hv. auto.
Qed.

Lemma remove_unwanted_no_match unwanted_params params found :
  unwanted_occurs unwanted_params params = false ->
  remove_unwanted unwanted_params params found = Ok (params, found).
Proof.
  induction unwanted_params as [|[key values] rest IH]; simpl; intros Hno; [reflexivity|].
  apply orb_false_iff in Hno as [Hhere Hrest]. simpl in Hhere.
  destruct (params !! key) as [existing|] eqn:Hk; [|auto].
  rewrite (remove_values_no_match key existing values params found Hk Hhere). auto.
Qed.

(** The flag only ever goes up. *)
Lemma remove_values_found key unwanted_values :
  forall params found params' found',
    remove_values key unwanted_values params found = Ok (params', found') ->
    found = true -> found' = true.
Proof.
  induction unwanted_values as [|v rest IH]; simpl; intros params found params' found' Hr Hf.
  - injection Hr as _ <-. exact Hf.
  - destruct (params !! key) as [values|]; [|discriminate].
    destruct (bool_decide (v ∈ values)); eauto.
Qed.

Lemma get_test_case_trace case_id (e e1 : env R) r :
  get_test_case self case_id e = (r, e1) ->
  exists evs, trace e1 = trace e ++ evs /\ forallb (fun ev => negb (is_update_of case_id ev)) evs = true.
Proof.
  unfold get_test_case. destruct (case_id =? 0).
  - intros [= <- <-]. exists []. rewrite app_nil_r. auto.
  - unfold try_except_ApiException, bind, call, ret, logger, modify.
    destruct (CasesApi_get_case (project_code self) case_id (remote e))
      as [[origin|reason|name] r'];
      intros [= <- <-]; eexists; split; simpl; reflexivity.
Qed.

(** An update is one request; it returns unless the client crashed on it. *)
Lemma update_a_test_case_trace case_id upd (e : env R) :
  exists r o e',
    update_a_test_case self case_id upd e = (r, e')
    /\ trace e' = trace e ++ [(UpdateCase (project_code self) case_id upd, o)]
    /\ match o with
       | Crash name => r = Raise (ClientError name)
       | _ => exists b, r = Ok b
       end.
Proof.
  unfold update_a_test_case, try_except_ApiException, bind, call, ret, logger, modify.
  destruct (CasesApi_update_case (project_code self) case_id upd (remote e))
    as [[b|reason|name] r'];
    do 3 eexists; (split; [reflexivity|]); (split; [reflexivity|]); simpl; eauto.
Qed.

Lemma logger_run lvl msg args (e : env R) :
  logger lvl msg args e = (Ok tt, mkEnv (remote e) (trace e) (logged e ++ [mkLog lvl msg args])).
Proof. reflexivity. Qed.

Lemma issued_app {A} (m : M (env R) A) (e : env R) evs :
  trace (m e).2 = trace e ++ evs -> issued m e = evs.
Proof. unfold issued. intros ->. apply drop_app_length. Qed.

Lemma not_update_in case_id upd o evs :
  forallb (fun ev => negb (is_update_of case_id ev)) evs = true ->
  (UpdateCase (project_code self) case_id upd, o) ∈ evs -> False.
Proof.
  intros Hall Hin. rewrite forallb_forall in Hall.
  apply list_elem_of_In in Hin. specialize (Hall _ Hin).
  unfold is_update_of in Hall. simpl in Hall. rewrite Z.eqb_refl in Hall. discriminate.
Qed.

(** What one round of the Add operation sends. *)
Lemma qase_add_params_to_case_writes `{Py.SetOrder} params case origin (e e1 : env R) :
  get_test_case self case e = (Ok (Some origin), e1) ->
  exists r o e',
    qase_add_params_to_case self params case e = (r, e')
    /\ trace e' = trace e1 ++ [(UpdateCase (project_code self) case
                                  (params_update (add_params params (TestCase.params origin))), o)]
    /\ match o with
       | Crash name => r = Raise (ClientError name)
       | _ => r = Ok tt
       end.
Proof.
  intros Hget. unfold qase_add_params_to_case, bind. rewrite Hget, logger_run.
  match goal with |- context [update_a_test_case self case ?u ?w] =>
    destruct (update_a_test_case_trace case u w) as (r & o & e' & Hupd & Htr & Hres);
    rewrite Hupd end.
  destruct o as [b|reason|name].
  - destruct Hres as (b' & ->). eexists _, _, _. split; [reflexivity|]. split; [exact Htr|]. reflexivity.
  - destruct Hres as (b' & ->). eexists _, _, _. split; [reflexivity|]. split; [exact Htr|]. reflexivity.
  - subst r. eexists _, _, _. split; [reflexivity|]. split; [exact Htr|]. reflexivity.
Qed.

(** C3: in one round of [replace_params_in_cases], when none of the listed
    unwanted (key, value) pairs occurs in the fetched parameter map, the
    round ends right after the fetch: no update is written, whatever
    [wanted_params] holds.  An update is written only after a removal, and it
    then carries the map left by the removals with the wanted params added. *)
Theorem replace_params_only_after_removal `{Py.SetOrder}
    (unwanted_params wanted_params : list (string * list string)) (case : Z) (e : env R) :
  (forall origin e1,
      get_test_case self case e = (Ok (Some origin), e1) ->
      unwanted_occurs unwanted_params (TestCase.params origin) = false ->
      replace_params_in_case self unwanted_params wanted_params case e = (Ok tt, e1)
      /\ forall upd o,
           (UpdateCase (project_code self) case upd, o)
             ∉ issued (replace_params_in_case self unwanted_params wanted_params case) e)
  /\ (forall upd o,
        (UpdateCase (project_code self) case upd, o)
          ∈ issued (replace_params_in_case self unwanted_params wanted_params case) e ->
        exists origin e1 removed,
          get_test_case self case e = (Ok (Some origin), e1)
          /\ unwanted_occurs unwanted_params (TestCase.params origin) = true
          /\ remove_unwanted unwanted_params (TestCase.params origin) false = Ok (removed, true)
          /\ upd = params_update (add_params wanted_params removed)).
Proof.
  split.
  - intros origin e1 Hget Hno.
    assert (Hrun : replace_params_in_case self unwanted_params wanted_params case e = (Ok tt, e1)).
    { unfold replace_params_in_case, bind. rewrite Hget.
      unfold lift_result. rewrite (remove_unwanted_no_match _ _ _ Hno). reflexivity. }
    split; [exact Hrun|].
    intros upd o Hin.
    destruct (get_test_case_trace case e e1 _ Hget) as (evs & Htr & Hevs).
    rewrite (issued_app _ e evs) in Hin by (rewrite Hrun; exact Htr).
    exact (not_update_in _ _ _ _ Hevs Hin).
  - intros upd o Hin.
    destruct (get_test_case self case e) as [[[origin|]|ex] e1] eqn:Hget;
      destruct (get_test_case_trace case e e1 _ Hget) as (evs & Htr & Hevs).
    + destruct (remove_unwanted unwanted_params (TestCase.params origin) false)
        as [[removed found]|ex] eqn:Hrem.
      * destruct found.
        -- exists origin, e1, removed. repeat split; try reflexivity.
           ++ destruct (unwanted_occurs unwanted_params (TestCase.params origin)) eqn:Hocc; [reflexivity|].
              rewrite (remove_unwanted_no_match _ _ _ Hocc) in Hrem. discriminate.
           ++ exact Hrem.
           ++ revert Hin. unfold issued, replace_params_in_case, bind.
              rewrite Hget. unfold lift_result. rewrite Hrem. rewrite !logger_run.
              match goal with |- context [update_a_test_case self case ?u ?w] =>
                destruct (update_a_test_case_trace case u w) as (r & o' & e' & Hupd & Htr' & _);
                rewrite Hupd end.
              simpl in Htr'.
              destruct r as [b|ex]; simpl;
                rewrite Htr', Htr, <- app_assoc, drop_app_length;
                intros Hin; apply elem_of_app in Hin as [Hin|Hin];
                [destruct (not_update_in _ _ _ _ Hevs Hin)
                |apply list_elem_of_singleton in Hin; congruence
                |destruct (not_update_in _ _ _ _ Hevs Hin)
                |apply list_elem_of_singleton in Hin; congruence].
        -- exfalso. revert Hin. unfold issued, replace_params_in_case, bind.
           rewrite Hget. unfold lift_result. rewrite Hrem. simpl.
           rewrite Htr, drop_app_length. exact (not_update_in _ _ _ _ Hevs).
      * exfalso. revert Hin. unfold issued, replace_params_in_case, bind.
        rewrite Hget. unfold lift_result. rewrite Hrem. simpl.
        rewrite Htr, drop_app_length. exact (not_update_in _ _ _ _ Hevs).
    + exfalso. revert Hin. unfold issued, replace_params_in_case, bind.
      rewrite Hget. simpl. rewrite Htr, drop_app_length. exact (not_update_in _ _ _ _ Hevs).
    + exfalso. revert Hin. unfold issued, replace_params_in_case, bind.
      rewrite Hget. simpl. rewrite Htr, drop_app_length. exact (not_update_in _ _ _ _ Hevs).
Qed.

End CaseFieldEditor.

Lemma replace_params_only_after_removal_witness :
  exists e1,
    replace_params_in_case demo [("os", ["win"])] [("browser", ["chrome"])] 1
      (start (project_with [case_with 1 [("os", ["mac"])]]))
    = (Ok tt, e1)
    /\ Sim.cases (remote e1) = [case_with 1 [("os", ["mac"])]].
Proof.
  pose (world := start (project_with [case_with 1 [("os", ["mac"])]])).
  pose (e1 := (get_test_case demo 1 world).2).
  assert (Hget : get_test_case demo 1 world = (Ok (Some (case_with 1 [("os", ["mac"])])), e1))
    by (vm_compute; reflexivity).
  assert (Hno : unwanted_occurs [("os", ["win"])]
                  (TestCase.params (case_with 1 [("os", ["mac"])])) = false)
    by (vm_compute; reflexivity).
  destruct (replace_params_only_after_removal demo
              [("os", ["win"])] [("browser", ["chrome"])] 1 world) as [Hskip _].
  destruct (Hskip _ _ Hget Hno) as [Hrun _].
  exists e1. split; [exact Hrun|reflexivity].
Defined.

Section AddParams.
Context `{Py.SetOrder}.

Lemma add_param_dom (m : gmap string (list string)) k vs key :
  is_Some (add_param m (k, vs) !! key) <-> is_Some (m !! key) \/ key = k.
Proof.
  unfold add_param. destruct (m !! k) as [existing|] eqn:Hk;
    destruct (decide (key = k)) as [->|Hne];
    rewrite ?lookup_insert_eq, ?lookup_insert_ne by done; rewrite ?Hk;
    intuition (try congruence; eauto).
Qed.

Lemma add_param_values (m : gmap string (list string)) k vs key v :
  v ∈ default [] (add_param m (k, vs) !! key)
  <-> v ∈ default [] (m !! key) \/ (key = k /\ v ∈ vs).
Proof.
  unfold add_param. destruct (m !! k) as [existing|] eqn:Hk;
    destruct (decide (key = k)) as [->|Hne];
    rewrite ?lookup_insert_eq, ?lookup_insert_ne by done; rewrite ?Hk; simpl;
    rewrite ?Py.list_of_set_elem, ?elem_of_app, ?elem_of_nil;
    intuition (try congruence; eauto).
Qed.

Lemma add_params_dom params : forall (m : gmap string (list string)) key,
  is_Some (add_params params m !! key) <-> is_Some (m !! key) \/ key ∈ params.*1.
Proof.
  unfold add_params. induction params as [|[k vs] rest IH]; intros m key; cbn [fold_left fmap list_fmap].
  - rewrite elem_of_nil. tauto.
  - rewrite IH, add_param_dom, elem_of_cons. simpl. tauto.
Qed.

Lemma add_params_values params : forall (m : gmap string (list string)) key v,
  v ∈ default [] (add_params params m !! key)
  <-> v ∈ default [] (m !! key) \/ exists vs, (key, vs) ∈ params /\ v ∈ vs.
Proof.
  unfold add_params. induction params as [|[k vs] rest IH]; intros m key v; cbn [fold_left].
  - split; [auto|]. intros [?|(vs & Hin & _)]; [done|]. by apply elem_of_nil in Hin.
  - rewrite IH, add_param_values. split.
    + intros [[?|[-> ?]]|(vs' & ? & ?)]; [by left|right..].
      * exists vs. split; [apply elem_of_cons; by left|done].
      * exists vs'. split; [apply elem_of_cons; by right|done].
    + intros [?|(vs' & Hin & ?)]; [by left; left|].
      apply elem_of_cons in Hin as [[= -> ->]|Hin].
      * left; right. done.
      * right. eauto.
Qed.

(** C4: the Add loop is idempotent on the parameter map read as a map from
    keys to sets of values: adding the same params a second time changes
    neither the keys nor the set of values under any key, whichever order
    [list(set(...))] produces. *)
Theorem add_params_idempotent (params : list (string * list string))
    (origin_params : gmap string (list string)) :
  same_params (add_params params (add_params params origin_params))
              (add_params params origin_params).
Proof.
  intros key. split.
  - rewrite !add_params_dom. tauto.
  - intros v. rewrite !add_params_values. tauto.
Qed.

End AddParams.

(** The spec's example on the in-memory remote: [{"os": ["win"]}] added
    twice leaves what adding it once leaves. *)
Example add_os_win_twice :
  let world := start (project_with [case_with 1 [("os", ["mac"])]]) in
  let once := (qase_add_params_to_cases demo [1] [("os", ["win"])] world).2 in
  let twice := (qase_add_params_to_cases demo [1] [("os", ["win"])] once).2 in
  Sim.cases (remote once) = [case_with 1 [("os", ["mac"; "win"])]]
  /\ Sim.cases (remote twice) = Sim.cases (remote once).
Proof. split; vm_compute; reflexivity. Qed.

(** ** Remove: the key that was just deleted is read again *)

Lemma remove_values_emptied_key key v next rest (params : gmap string (list string)) found :
  params !! key = Some [v] ->
  remove_values key (v :: next :: rest) params found = Raise (KeyError key).
Proof.
  intros Hk. simpl. rewrite Hk.
  rewrite bool_decide_eq_true_2 by (apply list_elem_of_singleton; reflexivity).
  simpl. rewrite String.eqb_refl. rewrite lookup_delete_eq. reflexivity.
Qed.

(** C5 (the code's behaviour at the failing input): with params
    [{"os": ["win"]}] and unwanted [{"os": ["win", "mac"]}] the Remove
    operation deletes the emptied key, reads it again for "mac" and raises
    [KeyError]; no update is written and the case keeps its params. *)
Theorem remove_raises_after_emptying_key :
  qase_remove_unwanted_params_from_cases demo [1] [("os", ["win"; "mac"])]
    (start (project_with [case_with 1 [("os", ["win"])]]))
  = (Raise (KeyError "os"),
     mkEnv (project_with [case_with 1 [("os", ["win"])]])
           [(GetCase "DEMO" 1, Success (CaseResponse (case_with 1 [("os", ["win"])])))]
           []).
Proof. vm_compute. reflexivity. Qed.

(** Where the defect is not met the operation does what is asked: the
    spec's example, [{"os": ["win"]}] removed from [{"os": ["win"]}]. *)
Example remove_os_win :
  Sim.cases (remote (qase_remove_unwanted_params_from_cases demo [1] [("os", ["win"])]
                       (start (project_with [case_with 1 [("os", ["win"])]]))).2)
  = [case_with 1 []].
Proof. vm_compute. reflexivity. Qed.

(** ** CRUD wrappers *)

Section Wrappers.
Context {R : Type} `{RemoteApi R}.
Variable self : QaseIO.

Lemma try_except_contains {A} (body : M (env R) A) (handler : string -> M (env R) A) :
  (forall reason, contains_api_failures (handler reason)) ->
  contains_api_failures (try_except_ApiException body handler).
Proof.
  intros Hh e reason e'. unfold try_except_ApiException.
  destruct (body e) as [[a|ex] e1]; [discriminate|].
  destruct ex; try discriminate. apply Hh.
Qed.

Lemma log_and_return_none {A} msg reason :
  contains_api_failures (R := R) (logger ERROR msg [reason] ;;; ret (@None A)).
Proof. intros e r e'. discriminate. Qed.

(** The nine wrappers that guard their call. *)
Lemma guarded_wrappers_contain_api_failures :
  (forall case_id, contains_api_failures (get_test_case self case_id))
  /\ (forall title fields, contains_api_failures (create_qase_test_run self title fields))
  /\ (forall run_id, contains_api_failures (complete_qase_test_run self run_id))
  /\ (forall case_id, contains_api_failures (delete_a_test_case self case_id))
  /\ (forall case_id upd, contains_api_failures (update_a_test_case self case_id upd))
  /\ (forall payload, contains_api_failures (create_test_case self payload))
  /\ (forall name parent, contains_api_failures (create_qase_suite self name parent))
  /\ (forall suite_id kwargs, contains_api_failures (update_suite self suite_id kwargs))
  /\ (forall run_id, contains_api_failures (get_run self run_id)).
Proof.
  repeat split; intros;
    try (apply try_except_contains; intros; apply log_and_return_none).
  unfold get_test_case. destruct (case_id =? 0).
  - intros e r e'. discriminate.
  - apply try_except_contains; intros; apply log_and_return_none.
Qed.

(** C7 (the code's behaviour at the failing input): [create_milestone] has
    no handler around its call.  Whenever the remote call fails, the
    [ApiException] reaches the caller; nothing is logged and no absent result
    is returned.  The nine other wrappers contain the failure
    ([guarded_wrappers_contain_api_failures]). *)
Theorem create_milestone_propagates_failure milestone_title (e : env R) reason r' :
  MilestonesApi_create_milestone (project_code self) milestone_title (remote e) = (Failure reason, r') ->
  create_milestone self milestone_title e
  = (Raise (ApiException reason),
     mkEnv r' (trace e ++ [(CreateMilestone (project_code self) milestone_title, Failure reason)])
           (logged e)).
Proof.
  intros Hfail. unfold create_milestone, bind, call. rewrite Hfail. reflexivity.
Qed.

(** C10: [get_run] with a falsy [run_id] (0, the default, or [None]) makes
    no remote call, logs nothing and returns [None]: the world is unchanged. *)
Theorem get_run_falsy (run_id : Py.pyid) (e : env R) :
  Py.truthy run_id = false ->
  get_run self run_id e = (Ok None, e).
Proof.
  intros Hfalsy. unfold get_run, try_except_ApiException.
  destruct run_id as [rid|]; [rewrite Hfalsy|]; reflexivity.
Qed.

End Wrappers.

Lemma get_run_falsy_witness :
  get_run demo (Some 0) (start (project_with [])) = (Ok None, start (project_with [])).
Proof. apply (get_run_falsy demo (Some 0)). reflexivity. Defined.

Lemma create_milestone_propagates_failure_witness :
  create_milestone demo "Sprint 1" (start (Sim.mk [] [] 10 [true]))
  = (Raise (ApiException "connection failed"),
     mkEnv (Sim.mk [] [] 10 [])
           [(CreateMilestone "DEMO" "Sprint 1", Failure "connection failed")]
           []).
Proof.
  apply (create_milestone_propagates_failure demo "Sprint 1"
           (start (Sim.mk [] [] 10 [true])) "connection failed" (Sim.mk [] [] 10 [])).
  reflexivity.
Defined.

(** ** Strings: [split], [join], [strip] and [lower] on token lists *)

Section Strings.
Import Py.

Lemma lower_char_space c : is_space (lower_char c) = is_space c.
Proof. destruct c as [[] [] [] [] [] [] [] []]; reflexivity. Qed.

Lemma lower_char_hyphen c : Ascii.eqb (lower_char c) "-" = Ascii.eqb c "-".
Proof. destruct c as [[] [] [] [] [] [] [] []]; reflexivity. Qed.

Lemma lower_char_paren c : Ascii.eqb (lower_char c) "(" = Ascii.eqb c "(".
Proof. destruct c as [[] [] [] [] [] [] [] []]; reflexivity. Qed.

Lemma append_cons c r x : String c r +:+ x = String c (r +:+ x).
Proof. reflexivity. Qed.

Lemma append_empty_l x : "" +:+ x = x.
Proof. reflexivity. Qed.

Lemma append_empty_r s : s +:+ "" = s.
Proof.
  induction s as [|c r IH]; [reflexivity|]. rewrite append_cons. f_equal. exact IH.
Qed.

Lemma is_token_cons c t : is_token (String c t) = true ->
  is_space c = false /\ (t = "" \/ is_token t = true).
Proof.
  simpl. intros Hc. apply andb_true_iff in Hc as [Hc Ht].
  apply negb_true_iff in Hc. split; [exact Hc|].
  destruct t; [left; reflexivity|right; exact Ht].
Qed.

Lemma token_starts t x : is_token t = true -> starts_token (t +:+ x) = true.
Proof.
  destruct t as [|c r]; [discriminate|]. intros Ht.
  apply is_token_cons in Ht as [Hc _]. rewrite append_cons. simpl. rewrite Hc. reflexivity.
Qed.

(** A token followed by something that starts no token is split off whole. *)
Lemma split_token_app t : forall x,
  is_token t = true -> starts_token x = false -> split (t +:+ x) = t :: split x.
Proof.
  induction t as [|c r IH]; intros x Ht Hx; [discriminate|].
  apply is_token_cons in Ht as [Hc [->|Hr]].
  - rewrite append_cons, append_empty_l. simpl. rewrite Hc, Hx. reflexivity.
  - rewrite append_cons.
    cbn [split]. rewrite Hc, (token_starts r x Hr), (IH x Hr Hx). reflexivity.
Qed.

Lemma split_token t : is_token t = true -> split t = [t].
Proof.
  intros Ht. rewrite <- (append_empty_r t) at 1.
  rewrite split_token_app by auto. reflexivity.
Qed.

Lemma split_join tokens :
  forallb is_token tokens = true -> split (join " " tokens) = tokens.
Proof.
  induction tokens as [|t rest IH]; [reflexivity|].
  intros Hall. simpl in Hall. apply andb_true_iff in Hall as [Ht Hrest].
  destruct rest as [|t2 rest].
  - simpl. apply split_token. exact Ht.
  - change (join " " (t :: t2 :: rest)) with (t +:+ " " +:+ join " " (t2 :: rest)).
    rewrite split_token_app by auto.
    change (" " +:+ join " " (t2 :: rest)) with (String " " (join " " (t2 :: rest))).
    cbn [split]. change (is_space " ") with true. cbn iota.
    f_equal. apply IH. exact Hrest.
Qed.

Lemma split_tokens s : forallb is_token (split s) = true.
Proof.
  induction s as [|c r IH]; [reflexivity|].
  cbn [split]. destruct (is_space c) eqn:Hc; [exact IH|].
  destruct (starts_token r).
  - destruct (split r) as [|t ts]; cbn [forallb] in *.
    + cbn [is_token no_space]. rewrite Hc. reflexivity.
    + apply andb_true_iff in IH as [Ht Hts]. rewrite Hts, andb_true_r.
      cbn [is_token no_space]. rewrite Hc. cbn [negb andb].
      destruct t; [discriminate|exact Ht].
  - cbn [forallb is_token no_space]. rewrite Hc, IH. reflexivity.
Qed.

Lemma token_ends t : is_token t = true -> ends_token t = true.
Proof.
  induction t as [|c r IH]; [discriminate|]. intros Ht.
  apply is_token_cons in Ht as [Hc [->|Hr]].
  - simpl. rewrite Hc. reflexivity.
  - destruct r; [discriminate|]. apply IH. exact Hr.
Qed.

Lemma ends_token_app x : forall y, ends_token y = true -> ends_token (x +:+ y) = true.
Proof.
  induction x as [|c r IH]; intros y Hy; [exact Hy|].
  rewrite append_cons.
  specialize (IH y Hy). destruct (r +:+ y) eqn:E; [discriminate|]. exact IH.
Qed.

Lemma join_ends tokens :
  tokens <> [] -> forallb is_token tokens = true -> ends_token (join " " tokens) = true.
Proof.
  induction tokens as [|t rest IH]; [congruence|]. intros _ Hall.
  simpl in Hall. apply andb_true_iff in Hall as [Ht Hrest].
  destruct rest as [|t2 rest].
  - simpl. apply token_ends. exact Ht.
  - change (join " " (t :: t2 :: rest)) with (t +:+ " " +:+ join " " (t2 :: rest)).
    apply ends_token_app, ends_token_app, IH; [congruence|exact Hrest].
Qed.

Lemma rstrip_cons c r :
  rstrip (String c r)
  = match rstrip r with
    | EmptyString => if is_space c then EmptyString else String c EmptyString
    | String d r' => String c (String d r')
    end.
Proof. reflexivity. Qed.

Lemma rstrip_ends s : ends_token s = true -> rstrip s = s.
Proof.
  induction s as [|c r IH]; [reflexivity|]. intros He.
  destruct r as [|d r'].
  - simpl in *. apply negb_true_iff in He. rewrite He. reflexivity.
  - rewrite rstrip_cons, IH by exact He. reflexivity.
Qed.

Lemma strip_join tokens :
  forallb is_token tokens = true -> strip (join " " tokens) = join " " tokens.
Proof.
  intros Hall. destruct tokens as [|t rest]; [reflexivity|].
  unfold strip.
  assert (Hl : lstrip (join " " (t :: rest)) = join " " (t :: rest)).
  { assert (Ht : is_token t = true) by (simpl in Hall; apply andb_true_iff in Hall; tauto).
    destruct t as [|c r]; [discriminate|].
    apply is_token_cons in Ht as [Hc _].
    destruct rest; cbn [join]; rewrite ?append_cons; simpl; rewrite Hc; reflexivity. }
  rewrite Hl. apply rstrip_ends, join_ends; [congruence|exact Hall].
Qed.

Lemma lower_app a b : lower (a +:+ b) = lower a +:+ lower b.
Proof.
  induction a as [|c r IH]; [reflexivity|].
  rewrite append_cons. cbn [lower]. rewrite append_cons. f_equal. exact IH.
Qed.

Lemma lower_join tokens : lower (join " " tokens) = join " " (map lower tokens).
Proof.
  induction tokens as [|t rest IH]; [reflexivity|].
  destruct rest as [|t2 rest]; [reflexivity|].
  change (join " " (t :: t2 :: rest)) with (t +:+ " " +:+ join " " (t2 :: rest)).
  rewrite !lower_app, IH. reflexivity.
Qed.

Lemma lower_no_space t : no_space (lower t) = no_space t.
Proof.
  induction t as [|c r IH]; [reflexivity|]. simpl. rewrite lower_char_space, IH. reflexivity.
Qed.

Lemma lower_token t : is_token (lower t) = is_token t.
Proof. destruct t as [|c r]; [reflexivity|]. apply (lower_no_space (String c r)). Qed.

Lemma lower_tokens tokens :
  forallb is_token tokens = true -> forallb is_token (map lower tokens) = true.
Proof.
  induction tokens as [|t rest IH]; [reflexivity|]. simpl.
  intros Hall. apply andb_true_iff in Hall as [Ht Hrest].
  rewrite lower_token, Ht, IH by exact Hrest. reflexivity.
Qed.

Lemma lower_contains_hyphen s : contains_char "-" (lower s) = contains_char "-" s.
Proof.
  induction s as [|c r IH]; [reflexivity|]. simpl. rewrite lower_char_hyphen, IH. reflexivity.
Qed.

Lemma lower_contains_paren s : contains_char "(" (lower s) = contains_char "(" s.
Proof.
  induction s as [|c r IH]; [reflexivity|]. simpl. rewrite lower_char_paren, IH. reflexivity.
Qed.

Lemma split_once_head_absent c s : contains_char c s = false -> split_once_head c s = s.
Proof.
  induction s as [|d r IH]; [reflexivity|]. simpl. intros Hno.
  apply orb_false_iff in Hno as [Hd Hr]. rewrite Hd, IH by exact Hr. reflexivity.
Qed.

Lemma replace_with_empty_absent c s : contains_char c s = false -> replace_with_empty c s = s.
Proof.
  induction s as [|d r IH]; [reflexivity|]. simpl. intros Hno.
  apply orb_false_iff in Hno as [Hd Hr]. rewrite Hd, IH by exact Hr. reflexivity.
Qed.

(** On a list of tokens joined by single spaces, with no hyphen and no
    opening parenthesis, the normalization of remote titles is [lower]. *)
Lemma clean_suite_name_joined tokens :
  forallb is_token tokens = true ->
  contains_char "-" (join " " tokens) = false ->
  contains_char "(" (join " " tokens) = false ->
  clean_suite_name (join " " tokens) = lower (join " " tokens).
Proof.
  intros Hall Hhyphen Hparen. unfold clean_suite_name.
  rewrite split_once_head_absent by (rewrite lower_contains_paren; exact Hparen).
  rewrite lower_join.
  rewrite strip_join by (apply lower_tokens; exact Hall).
  rewrite replace_with_empty_absent
    by (rewrite <- lower_join, lower_contains_hyphen; exact Hhyphen).
  rewrite split_join by (apply lower_tokens; exact Hall).
  reflexivity.
Qed.

End Strings.

(** ** Suite synchronizer: title matching *)

Lemma forallb_skipn {A} (p : A -> bool) n (xs : list A) :
  forallb p xs = true -> forallb p (skipn n xs) = true.
Proof.
  revert xs. induction n as [|n IH]; intros xs Hall; [exact Hall|].
  destruct xs as [|x rest]; [reflexivity|].
  simpl in Hall. apply andb_true_iff in Hall as [_ Hrest]. apply IH. exact Hrest.
Qed.

(** The parent- and leaf-suite names of a file are tokens joined by single
    spaces. *)
Lemma local_names_joined (suite_name_text name : string) :
  Py.index (Py.split suite_name_text) 1 = Ok name
  \/ name = Py.join " " (skipn 1 (Py.split suite_name_text)) ->
  exists tokens, forallb is_token tokens = true /\ name = Py.join " " tokens.
Proof.
  pose proof (split_tokens suite_name_text) as Hall.
  intros [Hparent| ->].
  - exists [name]. split; [|reflexivity].
    unfold Py.index in Hparent.
    destruct (nth_error (Py.split suite_name_text) 1) as [t|] eqn:Hnth; [|discriminate].
    injection Hparent as ->. apply nth_error_In in Hnth.
    rewrite forallb_forall in Hall. simpl. rewrite (Hall _ Hnth). reflexivity.
  - exists (skipn 1 (Py.split suite_name_text)). split; [|reflexivity].
    apply forallb_skipn. exact Hall.
Qed.

(** C6 (as amended): the remote title is normalized (lower-cased, cut at the
    first opening parenthesis, stripped, hyphens removed, white space
    collapsed) and compared with the local parent- or leaf-suite name, which
    is only lower-cased.  For a local name without hyphen and opening
    parenthesis the normalization leaves the lower-cased name as it is, so
    there the comparison is the one of the two normalized names. *)
Theorem suite_matches_normalizes_remote_title (suite : Suite.t)
    (suite_name_text name : string) :
  Py.index (Py.split suite_name_text) 1 = Ok name
  \/ name = Py.join " " (skipn 1 (Py.split suite_name_text)) ->
  contains_char "-" name = false ->
  contains_char "(" name = false ->
  suite_matches suite name
  = String.eqb (clean_suite_name (Suite.title suite)) (Py.lower name)
  /\ clean_suite_name name = Py.lower name
  /\ suite_matches suite name
     = String.eqb (clean_suite_name (Suite.title suite)) (clean_suite_name name).
Proof.
  intros Hname Hhyphen Hparen.
  destruct (local_names_joined _ _ Hname) as (tokens & Hall & ->).
  pose proof (clean_suite_name_joined tokens Hall Hhyphen Hparen) as Hclean.
  unfold suite_matches. rewrite Hclean. auto.
Qed.

Lemma suite_matches_normalizes_remote_title_witness :
  suite_matches (Suite.mk 5 "API - Tests (v2)" None) "api tests" = true
  /\ clean_suite_name "api tests" = "api tests".
Proof.
  destruct (suite_matches_normalizes_remote_title
              (Suite.mk 5 "API - Tests (v2)" None) "x api tests" "api tests"
              (or_intror eq_refl) eq_refl eq_refl) as (Hcode & Hclean & Hboth).
  split; [rewrite Hboth; reflexivity|rewrite Hclean; reflexivity].
Defined.

(** The local name is not normalized: a remote suite and a local name with
    the very same text "Api-Tests" do not match, although their
    normalizations are equal. *)
Lemma local_name_not_normalized :
  suite_matches (Suite.mk 5 "Api-Tests" None) "Api-Tests"
  <> String.eqb (clean_suite_name (Suite.title (Suite.mk 5 "Api-Tests" None)))
                (clean_suite_name "Api-Tests").
Proof. vm_compute. discriminate. Qed.

(** What follows for a pass: the remote holds the suite "Api-Tests", the
    local file asks for "Api-Tests", and a second suite of that title is
    created. *)
Example hyphenated_name_is_created_again :
  titles (issued (update_test_suites_from_pytest demo 5 false None false
                    [mkTestFile (Some "x Api-Tests") []] ∅)
                 (start (Sim.mk [] [Suite.mk 5 "Api-Tests" None] 10 [])))
  = ["Api-Tests"].
Proof. vm_compute. reflexivity. Qed.

(** ** Suite synchronizer: the pass over the files *)

Lemma fold_m_app {St A S} (xs ys : list A) (body : A -> S -> M St S) (s : S) (w : St) :
  fold_m (xs ++ ys) body s w
  = match fold_m xs body s w with
    | (Ok s', w') => fold_m ys body s' w'
    | (Raise ex, w') => (Raise ex, w')
    end.
Proof.
  revert s w. induction xs as [|x rest IH]; intros s w; [reflexivity|].
  simpl. unfold bind. destruct (body x s w) as [[s'|ex] w']; [apply IH|reflexivity].
Qed.

Section SingleToken.
Context {R : Type} `{RemoteApi R}.
Variable self : QaseIO.
Variable depth : nat.
Variable move_cases : bool.
Variable root_parent_suite : Py.pyid.
Variable assert_parent_suite : bool.

Lemma sync_file_no_tokens qase_cases file st (e : env R) :
  Py.split (default "" (suite_name_field file)) = [] ->
  sync_file self depth move_cases root_parent_suite assert_parent_suite qase_cases file st e
  = (Ok st, e).
Proof. intros Hsplit. unfold sync_file. rewrite Hsplit. reflexivity. Qed.

Lemma sync_file_one_token qase_cases file token st (e : env R) :
  Py.split (default "" (suite_name_field file)) = [token] ->
  sync_file self depth move_cases root_parent_suite assert_parent_suite qase_cases file st e
  = (Raise IndexError, e).
Proof. intros Hsplit. unfold sync_file. rewrite Hsplit. reflexivity. Qed.

(** C9: a file whose "Suite Name" has no token is skipped; a file whose
    "Suite Name" is exactly one token is not: reading [name_split[1]] raises
    [IndexError] before anything else is done for the file, and the pass
    that reaches such a file ends with that error, whatever files follow. *)
Theorem single_token_suite_name_aborts (file : test_file) :
  (Py.split (default "" (suite_name_field file)) = [] ->
   forall qase_cases st (e : env R),
     sync_file self depth move_cases root_parent_suite assert_parent_suite qase_cases file st e
     = (Ok st, e))
  /\ (forall token,
      Py.split (default "" (suite_name_field file)) = [token] ->
      (forall qase_cases st (e : env R),
         sync_file self depth move_cases root_parent_suite assert_parent_suite qase_cases file st e
         = (Raise IndexError, e))
      /\ (forall before after known suites cases st (e e1 e2 e3 : env R),
            get_suites self depth e = (Ok suites, e1) ->
            get_cases self depth e1 = (Ok cases, e2) ->
            fold_m before
              (sync_file self depth move_cases root_parent_suite assert_parent_suite cases)
              (mkSync suites ∅ known) e2 = (Ok st, e3) ->
            update_test_suites_from_pytest self depth move_cases root_parent_suite
              assert_parent_suite (before ++ file :: after) known e
            = (Raise IndexError, e3))).
Proof.
  split; [intros Hsplit qase_cases st e; apply sync_file_no_tokens; exact Hsplit|].
  intros token Hsplit. split.
  - intros qase_cases st e. apply (sync_file_one_token _ _ token). exact Hsplit.
  - intros before after known suites cases st e e1 e2 e3 Hsuites Hcases Hbefore.
    unfold update_test_suites_from_pytest, bind.
    rewrite Hsuites, Hcases, fold_m_app, Hbefore.
    cbn [fold_m]. unfold bind.
    rewrite (sync_file_one_token _ _ token) by exact Hsplit. reflexivity.
Qed.

End SingleToken.

Lemma single_token_suite_name_aborts_witness :
  exists e',
    update_test_suites_from_pytest demo 5 false None false
      [mkTestFile None []; mkTestFile (Some "solo") []; mkTestFile (Some "x Client Auth") []]
      ∅ (start (project_with []))
    = (Raise IndexError, e').
Proof.
  pose (world := start (project_with [])).
  pose (e1 := (get_suites demo 5 world).2).
  pose (e2 := (get_cases demo 5 e1).2).
  destruct (single_token_suite_name_aborts demo 5 false None false (mkTestFile (Some "solo") []))
    as [_ Hone].
  destruct (Hone "solo" eq_refl) as [_ Hpass].
  exists e2.
  exact (Hpass [mkTestFile None []] [mkTestFile (Some "x Client Auth") []] ∅ [] []
               (mkSync [] ∅ ∅) world e1 e2 e2 eq_refl eq_refl eq_refl).
Defined.

(** ** Suite synchronizer: creation is visible to the rest of the pass *)

Lemma titles_app evs new : titles (evs ++ new) = titles evs ++ titles new.
Proof. apply omap_app. Qed.

Lemma creations_app evs new : creations (evs ++ new) = creations evs ++ creations new.
Proof. apply omap_app. Qed.

Lemma created_title ev title id : created ev = Some (title, id) -> create_title ev = Some title.
Proof.
  destruct ev as [rq o]. unfold created, create_title. simpl.
  destruct rq; try discriminate. destruct o as [[]| |]; try discriminate.
  destruct (_ =? 0); [discriminate|]. intros [= <- _]. reflexivity.
Qed.

Lemma creations_titles evs title id : (title, id) ∈ creations evs -> title ∈ titles evs.
Proof.
  unfold creations, titles. rewrite !list_elem_of_omap.
  intros (ev & Hin & Hc). exists ev. split; [exact Hin|]. eapply created_title, Hc.
Qed.

Lemma creations_cons ev rest :
  creations (ev :: rest)
  = match created ev with
    | Some c => c :: creations rest
    | None => creations rest
    end.
Proof. reflexivity. Qed.

Lemma titles_cons ev rest :
  titles (ev :: rest)
  = match create_title ev with
    | Some t => t :: titles rest
    | None => titles rest
    end.
Proof. reflexivity. Qed.

Lemma refreshed_app evs new :
  refreshed evs = true -> refreshed new = true -> refreshed (evs ++ new) = true.
Proof.
  induction evs as [|ev rest IH]; intros Hevs Hnew; [exact Hnew|].
  cbn [refreshed] in Hevs. apply andb_true_iff in Hevs as [Hev Hrest].
  cbn [app refreshed]. rewrite (IH Hrest Hnew), andb_true_r.
  destruct (create_title ev); [|reflexivity].
  destruct (crashed ev); [reflexivity|].
  destruct rest as [|next rest']; [discriminate|exact Hev].
Qed.

Lemma no_recreate_app evs new :
  no_recreate evs -> no_recreate new ->
  (forall title, title ∈ titles new -> title ∉ (creations evs).*1) ->
  no_recreate (evs ++ new).
Proof.
  induction evs as [|ev rest IH]; intros Hevs Hnew Hfresh; [exact Hnew|].
  cbn [no_recreate] in Hevs. destruct Hevs as [Hev Hrest].
  cbn [app no_recreate]. split.
  - destruct (created ev) as [[title id]|] eqn:Hc; [|exact I].
    rewrite titles_app, elem_of_app. intros [Hin|Hin]; [exact (Hev Hin)|].
    apply (Hfresh title Hin). rewrite creations_cons, Hc.
    cbn. apply elem_of_cons. left. reflexivity.
  - apply IH; [exact Hrest|exact Hnew|].
    intros title Hin Hcr. apply (Hfresh title Hin).
    rewrite creations_cons. destruct (created ev) as [[t i]|]; [|exact Hcr].
    cbn. apply elem_of_cons. right. exact Hcr.
Qed.

Lemma refreshed_split evs :
  refreshed evs = true ->
  forall pre ev post, evs = pre ++ ev :: post -> is_Some (create_title ev) ->
  crashed ev = false ->
  exists next post', post = next :: post' /\ is_first_page_of_suites next = true.
Proof.
  intros Hre pre. revert evs Hre. induction pre as [|x pre IH]; intros evs Hre ev post -> Hc Hback.
  - cbn [app refreshed] in Hre. apply andb_true_iff in Hre as [Hev _].
    destruct Hc as [t Ht]. rewrite Ht, Hback in Hev.
    destruct post as [|next post']; [discriminate|]. eauto.
  - cbn [app refreshed] in Hre. apply andb_true_iff in Hre as [_ Hrest].
    eapply IH; [exact Hrest|reflexivity|exact Hc|exact Hback].
Qed.

Lemma no_recreate_split evs :
  no_recreate evs ->
  forall pre ev post title id, evs = pre ++ ev :: post -> created ev = Some (title, id) ->
  title ∉ titles post.
Proof.
  intros Hno pre. revert evs Hno. induction pre as [|x pre IH]; intros evs Hno ev post title id -> Hc.
  - cbn [app no_recreate] in Hno. destruct Hno as [Hev _]. rewrite Hc in Hev. exact Hev.
  - cbn [app no_recreate] in Hno. destruct Hno as [_ Hrest].
    eapply IH; [exact Hrest|reflexivity|exact Hc].
Qed.

Lemma creations_nonzero evs title id : (title, id) ∈ creations evs -> id <> 0.
Proof.
  unfold creations. rewrite list_elem_of_omap. intros ([rq o] & _ & Hc).
  unfold created in Hc. destruct rq; try discriminate.
  destruct o as [[]| |]; try discriminate.
  destruct (id0 =? 0) eqn:Hz; [discriminate|]. injection Hc as _ <-.
  apply Z.eqb_neq. exact Hz.
Qed.

Lemma quiet_events new :
  titles new = [] -> refreshed new = true /\ no_recreate new /\ creations new = [].
Proof.
  induction new as [|ev rest IH]; intros Hq; [repeat split|].
  rewrite titles_cons in Hq. destruct (create_title ev) as [t|] eqn:Ht; [discriminate|].
  destruct (IH Hq) as (Hr & Hn & Hc).
  assert (Hcr : created ev = None).
  { destruct (created ev) as [[t i]|] eqn:E; [|reflexivity].
    apply created_title in E. congruence. }
  cbn [refreshed no_recreate]. rewrite creations_cons, Ht, Hcr, Hr. auto.
Qed.

Lemma single_create_events new title :
  titles new = [title] -> no_recreate new.
Proof.
  induction new as [|ev rest IH]; intros Hq; [exact I|].
  rewrite titles_cons in Hq. cbn [no_recreate].
  destruct (create_title ev) as [t|] eqn:Ht.
  - injection Hq as -> Hrest. split; [|apply quiet_events, Hrest].
    destruct (created ev) as [[t i]|]; [|exact I]. rewrite Hrest. apply not_elem_of_nil.
  - split; [|apply IH, Hq].
    destruct (created ev) as [[t i]|] eqn:E; [|exact I].
    apply created_title in E. congruence.
Qed.

(** A name that is a token is the only token it is joined of. *)
Lemma token_join_single name p rest :
  is_token name = true -> forallb is_token (p :: rest) = true ->
  name = Py.join " " (p :: rest) -> rest = [] /\ name = p.
Proof.
  intros Hname Hall Hjoin.
  pose proof (split_token name Hname) as Hsplit.
  rewrite Hjoin, (split_join _ Hall) in Hsplit at 1.
  injection Hsplit as -> ->. auto.
Qed.

(** A leaf-suite name fixes its parent-suite name. *)
Lemma join_first_token p rest p' rest' :
  forallb is_token (p :: rest) = true -> forallb is_token (p' :: rest') = true ->
  Py.join " " (p :: rest) = Py.join " " (p' :: rest') -> p = p'.
Proof.
  intros Hall Hall' Hjoin.
  pose proof (split_join _ Hall) as Hsplit. rewrite Hjoin, (split_join _ Hall') in Hsplit.
  congruence.
Qed.

Lemma forallb_cons_token p rest :
  is_token p = true -> forallb is_token rest = true -> forallb is_token (p :: rest) = true.
Proof. intros Hp Hrest. simpl. rewrite Hp, Hrest. reflexivity. Qed.

Section SyncState.

(** A parent that is not in the dict yet has not been created in this pass. *)
Lemma unresolved_parent_fresh st evs p :
  sync_inv st evs -> qase_new_dict st !! p = None -> is_token p = true ->
  p ∉ (creations evs).*1.
Proof.
  intros Hinv Hnone Htok Hin.
  apply list_elem_of_fmap in Hin as ([title id] & -> & Hin). simpl in Hnone, Htok.
  destruct (inv_created _ _ Hinv _ _ Hin)
    as [(_ & [inner Hsome] & _)|(p' & rest & inner & cases & Hp' & Hrest & Hjoin & Hdict & _)].
  - simpl in Hsome. congruence.
  - destruct (token_join_single _ _ _ Htok (forallb_cons_token _ _ Hp' Hrest) Hjoin) as [_ ->].
    simpl in Hnone. congruence.
Qed.

(** A leaf that is neither in the dict nor known under a usable id has not
    been created in this pass. *)
Lemma unresolved_leaf_fresh st evs p rest inner leaf :
  sync_inv st evs ->
  is_token p = true -> forallb is_token rest = true -> leaf = Py.join " " (p :: rest) ->
  qase_new_dict st !! p = Some inner -> inner !! leaf = None ->
  Py.truthy (match known_suites st !! leaf with
             | Some known_id => known_id
             | None => find_suite_id (qase_suites st) leaf
             end) = false ->
  leaf ∉ (creations evs).*1.
Proof.
  intros Hinv Hp Hrest Hjoin Hdict Hnone Hfalsy Hin.
  apply list_elem_of_fmap in Hin as ([title id] & Heq & Hin). simpl in Heq. subst title.
  pose proof (creations_nonzero _ _ _ Hin) as Hnz.
  destruct (inv_created _ _ Hinv _ _ Hin)
    as [(_ & _ & Hknown)|(p' & rest' & inner' & cases & Hp' & Hrest' & Hjoin' & Hdict' & Hleaf)].
  - rewrite Hknown in Hfalsy. simpl in Hfalsy.
    apply negb_false_iff, Z.eqb_eq in Hfalsy. contradiction.
  - assert (p = p').
    { apply (join_first_token p rest p' rest'); [by apply forallb_cons_token..|congruence]. }
    subst p'. congruence.
Qed.

(** Recording a parent. *)
Lemma register_parent st evs new p v suites known' :
  sync_inv st evs ->
  qase_new_dict st !! p = None -> is_token p = true ->
  known' !! p = Some v ->
  (forall q, q <> p -> known' !! q = known_suites st !! q) ->
  refreshed new = true -> no_recreate new ->
  (forall title, title ∈ titles new -> title = p) ->
  (forall title id, (title, id) ∈ creations new -> title = p /\ v = Some id) ->
  sync_inv (mkSync suites (<[p := {["id" := IdEntry v]}]> (qase_new_dict st)) known') (evs ++ new).
Proof.
  intros Hinv Hnone Htok Hknown Hother Hre Hno Htitles Hcreations.
  split; cbn [qase_new_dict known_suites].
  - apply refreshed_app; [apply Hinv|exact Hre].
  - apply no_recreate_app; [apply Hinv|exact Hno|].
    intros title Hin. rewrite (Htitles _ Hin).
    eapply unresolved_parent_fresh; eassumption.
  - intros q inner Hq. destruct (decide (q = p)) as [->|Hne].
    + rewrite lookup_insert_eq in Hq. injection Hq as <-.
      split; [exact Htok|]. exists v. rewrite lookup_singleton_eq. auto.
    + rewrite lookup_insert_ne in Hq by done.
      destruct (inv_parent _ _ Hinv _ _ Hq) as (Hqt & w & Hid & Hk).
      split; [exact Hqt|]. exists w. rewrite Hother by done. auto.
  - intros q inner name entry Hq Hname Hnid. destruct (decide (q = p)) as [->|Hne].
    + rewrite lookup_insert_eq in Hq. injection Hq as <-.
      rewrite lookup_singleton_ne in Hname by done. discriminate.
    + rewrite lookup_insert_ne in Hq by done. eapply inv_leaf; eassumption.
  - intros q inner cases w Hq Hown. destruct (decide (q = p)) as [->|Hne].
    + rewrite lookup_insert_eq in Hq. injection Hq as <-.
      destruct (decide (p = "id")) as [->|Hpid].
      * rewrite lookup_singleton_eq in Hown. discriminate.
      * rewrite lookup_singleton_ne in Hown by done. discriminate.
    + rewrite lookup_insert_ne in Hq by done. rewrite Hother by done.
      eapply inv_own_leaf; eassumption.
  - intros title id Hin. rewrite creations_app in Hin. apply elem_of_app in Hin as [Hin|Hin].
    + destruct (inv_created _ _ Hinv _ _ Hin)
        as [(Ht & [inner Hsome] & Hk)|(q & rest & inner & cases & Hq & Hrest & Hjoin & Hdict & Hleaf)].
      * left. assert (title <> p) by congruence.
        rewrite lookup_insert_ne by done. rewrite Hother by done. eauto.
      * right. exists q, rest, inner, cases. assert (q <> p) by congruence.
        rewrite lookup_insert_ne by done. auto.
    + destruct (Hcreations _ _ Hin) as [-> ->]. left.
      rewrite lookup_insert_eq. eauto.
Qed.

(** Recording a leaf under its parent. *)
Lemma register_leaf st evs new p rest inner leaf suite_id suites :
  sync_inv st evs ->
  is_token p = true -> forallb is_token rest = true -> leaf = Py.join " " (p :: rest) ->
  qase_new_dict st !! p = Some inner -> inner !! leaf = None ->
  refreshed new = true -> no_recreate new ->
  (forall title, title ∈ titles new -> title = leaf /\ leaf ∉ (creations evs).*1) ->
  (forall title id, (title, id) ∈ creations new -> title = leaf /\ suite_id = Some id) ->
  (leaf = p -> known_suites st !! p = Some suite_id
               \/ exists w, known_suites st !! p = Some w /\ Py.truthy w = false) ->
  sync_inv (mkSync suites
              (<[p := <[leaf := LeafEntry [] suite_id]> inner]> (qase_new_dict st))
              (known_suites st))
           (evs ++ new).
Proof.
  intros Hinv Hp Hrest Hjoin Hdict Hnone Hre Hno Htitles Hcreations Hown.
  assert (Hnid : leaf <> "id").
  { destruct (inv_parent _ _ Hinv _ _ Hdict) as (_ & w & Hid & _). congruence. }
  split; cbn [qase_new_dict known_suites].
  - apply refreshed_app; [apply Hinv|exact Hre].
  - apply no_recreate_app; [apply Hinv|exact Hno|].
    intros title Hin. destruct (Htitles _ Hin) as [-> Hfresh]. exact Hfresh.
  - intros q inner' Hq. destruct (decide (q = p)) as [->|Hne].
    + rewrite lookup_insert_eq in Hq. injection Hq as <-.
      destruct (inv_parent _ _ Hinv _ _ Hdict) as (Hqt & w & Hid & Hk).
      split; [exact Hqt|]. exists w. rewrite lookup_insert_ne by done. auto.
    + rewrite lookup_insert_ne in Hq by done. eapply inv_parent; eassumption.
  - intros q inner' name entry Hq Hname Hnameid. destruct (decide (q = p)) as [->|Hne].
    + rewrite lookup_insert_eq in Hq. injection Hq as <-.
      destruct (decide (name = leaf)) as [->|Hnl].
      * rewrite lookup_insert_eq in Hname. injection Hname as <-. eauto 6.
      * rewrite lookup_insert_ne in Hname by done. eapply inv_leaf; eassumption.
    + rewrite lookup_insert_ne in Hq by done. eapply inv_leaf; eassumption.
  - intros q inner' cases w Hq Hleaf. destruct (decide (q = p)) as [->|Hne].
    + rewrite lookup_insert_eq in Hq. injection Hq as <-.
      destruct (decide (p = leaf)) as [Hpl|Hpl].
      * rewrite <- Hpl, lookup_insert_eq in Hleaf. injection Hleaf as _ <-.
        apply Hown. congruence.
      * rewrite lookup_insert_ne in Hleaf by done. eapply inv_own_leaf; eassumption.
    + rewrite lookup_insert_ne in Hq by done. eapply inv_own_leaf; eassumption.
  - intros title id Hin. rewrite creations_app in Hin. apply elem_of_app in Hin as [Hin|Hin].
    + destruct (inv_created _ _ Hinv _ _ Hin)
        as [(Ht & [inner' Hsome] & Hk)|(q & rest' & inner' & cases & Hq & Hrest' & Hjoin' & Hdict' & Hleaf)].
      * left. repeat split; [exact Ht| |exact Hk].
        destruct (decide (title = p)) as [->|Hne];
          [rewrite lookup_insert_eq|rewrite lookup_insert_ne by done]; eauto.
      * right. destruct (decide (q = p)) as [->|Hne].
        -- exists p, rest', (<[leaf := LeafEntry [] suite_id]> inner), cases.
           rewrite lookup_insert_eq. repeat split; try assumption.
           rewrite lookup_insert_ne by congruence. congruence.
        -- exists q, rest', inner', cases. rewrite lookup_insert_ne by done. auto.
    + destruct (Hcreations _ _ Hin) as [-> ->]. right.
      exists p, rest, (<[leaf := LeafEntry [] (Some id)]> inner), [].
      rewrite !lookup_insert_eq. auto.
Qed.

(** Appending a case id to a resolved leaf. *)
Lemma append_case st evs new p inner leaf cases v qid :
  sync_inv st evs ->
  qase_new_dict st !! p = Some inner -> inner !! leaf = Some (LeafEntry cases v) ->
  titles new = [] ->
  sync_inv (mkSync (qase_suites st)
              (<[p := <[leaf := LeafEntry (cases ++ [qid]) v]> inner]> (qase_new_dict st))
              (known_suites st))
           (evs ++ new).
Proof.
  intros Hinv Hdict Hleaf Hquiet.
  destruct (quiet_events _ Hquiet) as (Hre & Hno & Hcr).
  assert (Hnid : leaf <> "id").
  { destruct (inv_parent _ _ Hinv _ _ Hdict) as (_ & w & Hid & _). congruence. }
  split; cbn [qase_new_dict known_suites].
  - apply refreshed_app; [apply Hinv|exact Hre].
  - apply no_recreate_app; [apply Hinv|exact Hno|].
    intros title Hin. rewrite Hquiet in Hin. by apply elem_of_nil in Hin.
  - intros q inner' Hq. destruct (decide (q = p)) as [->|Hne].
    + rewrite lookup_insert_eq in Hq. injection Hq as <-.
      destruct (inv_parent _ _ Hinv _ _ Hdict) as (Hqt & w & Hid & Hk).
      split; [exact Hqt|]. exists w. rewrite lookup_insert_ne by done. auto.
    + rewrite lookup_insert_ne in Hq by done. eapply inv_parent; eassumption.
  - intros q inner' name entry Hq Hname Hnameid. destruct (decide (q = p)) as [->|Hne].
    + rewrite lookup_insert_eq in Hq. injection Hq as <-.
      destruct (decide (name = leaf)) as [->|Hnl].
      * rewrite lookup_insert_eq in Hname. injection Hname as <-.
        split; [|eauto]. eapply (inv_leaf _ _ Hinv p inner leaf); eassumption.
      * rewrite lookup_insert_ne in Hname by done. eapply inv_leaf; eassumption.
    + rewrite lookup_insert_ne in Hq by done. eapply inv_leaf; eassumption.
  - intros q inner' cases' w Hq Hown. destruct (decide (q = p)) as [->|Hne].
    + rewrite lookup_insert_eq in Hq. injection Hq as <-.
      destruct (decide (p = leaf)) as [Hpl|Hpl].
      * rewrite <- Hpl, lookup_insert_eq in Hown. injection Hown as _ <-.
        eapply (inv_own_leaf _ _ Hinv p inner cases); [exact Hdict|congruence].
      * rewrite lookup_insert_ne in Hown by done. eapply inv_own_leaf; eassumption.
    + rewrite lookup_insert_ne in Hq by done. eapply inv_own_leaf; eassumption.
  - intros title id Hin. rewrite creations_app, Hcr, app_nil_r in Hin.
    destruct (inv_created _ _ Hinv _ _ Hin)
      as [(Ht & [inner' Hsome] & Hk)|(q & rest' & inner' & cases' & Hq & Hrest' & Hjoin' & Hdict' & Hleaf')].
    + left. repeat split; [exact Ht| |exact Hk].
      destruct (decide (title = p)) as [->|Hne];
        [rewrite lookup_insert_eq|rewrite lookup_insert_ne by done]; eauto.
    + right. destruct (decide (q = p)) as [->|Hne].
      * assert (inner' = inner) by congruence. subst inner'.
        destruct (decide (title = leaf)) as [->|Hnl].
        -- exists p, rest', (<[leaf := LeafEntry (cases ++ [qid]) v]> inner), (cases ++ [qid]).
           rewrite !lookup_insert_eq. repeat split; try assumption.
           do 2 f_equal. congruence.
        -- exists p, rest', (<[leaf := LeafEntry (cases ++ [qid]) v]> inner), cases'.
           rewrite lookup_insert_eq, lookup_insert_ne by done. auto.
      * exists q, rest', inner', cases'. rewrite lookup_insert_ne by done. auto.
Qed.

(** Events that create nothing leave the agreement as it is. *)
Lemma sync_inv_quiet st evs new suites :
  sync_inv st evs -> titles new = [] ->
  sync_inv (mkSync suites (qase_new_dict st) (known_suites st)) (evs ++ new).
Proof.
  intros Hinv Hquiet. destruct (quiet_events _ Hquiet) as (Hre & Hno & Hcr).
  split; cbn [qase_new_dict known_suites]; try apply Hinv.
  - apply refreshed_app; [apply Hinv|exact Hre].
  - apply no_recreate_app; [apply Hinv|exact Hno|].
    intros title Hin. rewrite Hquiet in Hin. by apply elem_of_nil in Hin.
  - intros title id Hin. rewrite creations_app, Hcr, app_nil_r in Hin.
    eapply inv_created; eassumption.
Qed.

End SyncState.

Lemma sync_ok_trace_ok {R} base st (e : env R) : sync_ok base st e -> trace_ok base e.
Proof. intros (evs & Htr & Hinv). exists evs. split; [exact Htr|]. split; apply Hinv. Qed.

Lemma fold_m_post {St A S} (good : S -> St -> Prop) (bad : St -> Prop)
    (body : A -> S -> M St S) :
  (forall x s w, good s w ->
     match body x s w with
     | (Ok s', w') => good s' w'
     | (Raise _, w') => bad w'
     end) ->
  forall xs s w, good s w ->
    match fold_m xs body s w with
    | (Ok s', w') => good s' w'
    | (Raise _, w') => bad w'
    end.
Proof.
  intros Hbody xs. induction xs as [|x rest IH]; intros s w Hgood; [exact Hgood|].
  cbn [fold_m]. unfold bind. specialize (Hbody x s w Hgood).
  destruct (body x s w) as [[s'|ex] w']; [apply IH, Hbody|exact Hbody].
Qed.

Section SyncPass.
Context {R : Type} `{RemoteApi R}.
Variable self : QaseIO.
Variable depth : nat.
Variable move_cases : bool.
Variable root_parent_suite : Py.pyid.
Variable assert_parent_suite : bool.

(** A paginated fetch issues its first request and creates nothing. *)
Lemma get_all_instances_events {E} (rq : Z -> Z -> request) (inj : ListResponse E -> response)
    (f : Z -> Z -> R -> outcome (ListResponse E) * R) :
  (forall limit offset out, create_title (rq limit offset, out) = None) ->
  forall fuel limit offset (e : env R),
  exists o rest,
    trace (get_all_instances fuel (fun l o => call (rq l o) inj (f l o)) limit offset e).2
    = trace e ++ (rq limit offset, o) :: rest
    /\ titles rest = [].
Proof.
  intros Hrq. induction fuel as [|d IH]; intros limit offset e;
    cbn [get_all_instances]; unfold bind at 1; unfold call at 1;
    destruct (f limit offset (remote e)) as [[res|reason|name] r'];
    try (do 2 eexists; split; [reflexivity|reflexivity]).
  - destruct (list_result res) as [page|]; [|do 2 eexists; split; reflexivity].
    destruct (limit + offset <? filtered page); do 2 eexists; split; reflexivity.
  - destruct (list_result res) as [page|]; [|do 2 eexists; split; reflexivity].
    destruct (limit + offset <? filtered page); [|do 2 eexists; split; reflexivity].
    unfold bind.
    match goal with |- context [get_all_instances d ?fn limit ?off ?w] =>
      destruct (IH limit off w) as (o' & rest' & Htr & Hquiet);
      destruct (get_all_instances d fn limit off w) as [[more|ex] e2] end;
      cbn [snd] in *; cbn [trace] in Htr; unfold ret; cbn [snd];
      exists (Success (inj res)), ((rq limit (offset + limit), o') :: rest');
      (split; [rewrite Htr, <- app_assoc; reflexivity|rewrite titles_cons, Hrq; exact Hquiet]).
Qed.

Lemma get_suites_events (e : env R) :
  exists next rest,
    trace (get_suites self depth e).2 = trace e ++ next :: rest
    /\ is_first_page_of_suites next = true
    /\ titles (next :: rest) = [].
Proof.
  destruct (get_all_instances_events (GetSuites (project_code self)) SuitesResponse
              (SuitesApi_get_suites (project_code self)) ltac:(reflexivity) depth 100 0 e)
    as (o & rest & Htr & Hquiet).
  exists (GetSuites (project_code self) 100 0, o), rest. auto.
Qed.

Lemma get_cases_events (e : env R) :
  exists new, trace (get_cases self depth e).2 = trace e ++ new /\ titles new = [].
Proof.
  destruct (get_all_instances_events (GetCases (project_code self)) CasesResponse
              (CasesApi_get_cases (project_code self)) ltac:(reflexivity) depth 100 0 e)
    as (o & rest & Htr & Hquiet).
  exists ((GetCases (project_code self) 100 0, o) :: rest). auto.
Qed.

(** Creating a suite is one request; it returns unless the client crashed
    on it. *)
Lemma create_qase_suite_events name parent (e : env R) :
  exists ev r e',
    create_qase_suite self name parent e = (r, e')
    /\ trace e' = trace e ++ [ev]
    /\ create_title ev = Some name
    /\ match r with
       | Ok suite_id =>
           crashed ev = false
           /\ forall title id, created ev = Some (title, id) -> title = name /\ suite_id = Some id
       | Raise _ => crashed ev = true /\ created ev = None
       end.
Proof.
  unfold create_qase_suite, try_except_ApiException, bind, call, ret, logger, modify.
  destruct (SuitesApi_create_suite _ _ (remote e)) as [[id|reason|crash] r'];
    do 3 eexists; (split; [reflexivity|]); (split; [reflexivity|]); (split; [reflexivity|]);
    cbn; (split; [reflexivity|]); try reflexivity.
  - intros title id'. destruct (id =? 0); [discriminate|].
    intros [= <- <-]. auto.
  - intros title id'. discriminate.
Qed.

(** Creating a suite and refreshing the list, as both resolution branches do. *)
Lemma create_and_refresh_events {A} name parent leaf (k : Py.pyid -> list Suite.t -> A)
    (e : env R) out :
  (let* suite_id := create_qase_suite self name parent in
   logger INFO "New suite created" [leaf] ;;;
   let* suites := get_suites self depth in
   ret (k suite_id suites)) e = out ->
  exists new,
    trace out.2 = trace e ++ new
    /\ refreshed new = true
    /\ titles new = [name]
    /\ match out.1 with
       | Ok a => exists suite_id suites,
           a = k suite_id suites
           /\ forall title id, (title, id) ∈ creations new -> title = name /\ suite_id = Some id
       | Raise _ => True
       end.
Proof.
  intros Hout.
  destruct (create_qase_suite_events name parent e) as (ev & r & e1 & Hc & Htr1 & Htitle & Hres).
  unfold bind at 1 in Hout. rewrite Hc in Hout. destruct r as [suite_id|ex].
  - destruct Hres as [Hback Hcreated].
    unfold bind, ret in Hout. rewrite logger_run in Hout.
    match type of Hout with context [get_suites self depth ?w] =>
      destruct (get_suites_events w) as (next & rest & Htr2 & Hfirst & Hquiet);
      destruct (get_suites self depth w) as [[suites|ex] e2] end;
      cbn [snd fst trace] in *; subst out; cbn [snd fst];
      exists (ev :: next :: rest);
      (split; [rewrite Htr2, Htr1, <- app_assoc; reflexivity|]);
      (split; [cbn [refreshed]; rewrite Htitle, Hback, Hfirst; rewrite titles_cons in Hquiet;
               destruct (create_title next); [discriminate|];
               destruct (quiet_events _ Hquiet) as (-> & _); reflexivity|]);
      (split; [rewrite titles_cons, Htitle, Hquiet; reflexivity|]); [|exact I].
    exists suite_id, suites. split; [reflexivity|].
    intros title id Hin. rewrite creations_cons in Hin.
    destruct (quiet_events _ Hquiet) as (_ & _ & Hnone). rewrite Hnone in Hin.
    destruct (created ev) as [[t i]|] eqn:Hev; [|by apply elem_of_nil in Hin].
    apply list_elem_of_singleton in Hin. injection Hin as -> ->. apply Hcreated. reflexivity.
  - destruct Hres as [Hcrash _]. subst out. cbn [snd fst]. exists [ev].
    split; [exact Htr1|]. split; [cbn [refreshed]; rewrite Htitle, Hcrash; reflexivity|].
    split; [rewrite titles_cons, Htitle; reflexivity|exact I].
Qed.

Lemma resolve_parent_post base p leaf st (e : env R) :
  is_token p = true -> sync_ok base st e ->
  match resolve_parent self depth root_parent_suite assert_parent_suite p leaf st e with
  | (Ok st', e') => sync_ok base st' e' /\ is_Some (qase_new_dict st' !! p)
  | (Raise _, e') => trace_ok base e'
  end.
Proof.
  intros Htok Hok. pose proof Hok as (evs & Htr & Hinv).
  assert (Hregister : forall v, known_suites st !! p = Some v -> qase_new_dict st !! p = None ->
            sync_ok base (mkSync (qase_suites st)
                            (<[p := {["id" := IdEntry v]}]> (qase_new_dict st))
                            (known_suites st)) e).
  { intros v Hknown Hnone. exists evs. split; [exact Htr|].
    rewrite <- (app_nil_r evs).
    apply register_parent; auto; try (intros ? ? Hin; by apply elem_of_nil in Hin).
    - exact I.
    - intros ? Hin; by apply elem_of_nil in Hin. }
  unfold resolve_parent.
  destruct (qase_new_dict st !! p) as [inner|] eqn:Hdict.
  - unfold ret. rewrite Hdict. split; [exact Hok|eauto].
  - unfold bind at 1. destruct assert_parent_suite.
    + destruct (known_suites st !! p) as [v|] eqn:Hknown.
      * unfold ret. rewrite Hknown. cbn [qase_new_dict]. rewrite lookup_insert_eq.
        split; [apply Hregister; auto|eauto].
      * unfold raise. apply sync_ok_trace_ok with st. exact Hok.
    + destruct (Py.truthy (find_suite_id (qase_suites st) p)) eqn:Hfound.
      * unfold ret. destruct (known_suites st !! p) as [v|] eqn:Hknown.
        -- cbn [qase_new_dict]. rewrite lookup_insert_eq.
           split; [apply Hregister; auto|eauto].
        -- unfold raise. apply sync_ok_trace_ok with st. exact Hok.
      * match goal with |- context [bind (create_qase_suite self ?n ?pa) ?K e] =>
          destruct (bind (create_qase_suite self n pa) K e) as [r e1] eqn:Hblock end.
        pose proof (create_and_refresh_events _ _ _ _ _ _ Hblock) as (new & Htr1 & Hre & Htitles & Hres).
        cbn [fst snd] in Htr1, Hres.
        assert (Hfresh : forall title, title ∈ titles new -> title = p).
        { intros title Hin. rewrite Htitles in Hin. by apply list_elem_of_singleton in Hin. }
        destruct r as [st1|ex].
        -- destruct Hres as (suite_id & suites & -> & Hcr).
           cbn [known_suites qase_suites qase_new_dict]. rewrite lookup_insert_eq.
           unfold ret. cbn [qase_new_dict]. rewrite lookup_insert_eq. split; [|eauto].
           exists (evs ++ new). split; [rewrite Htr1, Htr, app_assoc; reflexivity|].
           apply register_parent; auto.
           ++ apply lookup_insert_eq.
           ++ intros q Hq. apply lookup_insert_ne. congruence.
           ++ eapply single_create_events, Htitles.
        -- exists (evs ++ new). split; [rewrite Htr1, Htr, app_assoc; reflexivity|].
           split; [apply refreshed_app; [apply Hinv|exact Hre]|].
           apply no_recreate_app; [apply Hinv|eapply single_create_events, Htitles|].
           intros title Hin. rewrite (Hfresh _ Hin).
           eapply unresolved_parent_fresh; eassumption.
Qed.

Lemma resolve_leaf_post base p rest leaf st (e : env R) :
  is_token p = true -> forallb is_token rest = true -> leaf = Py.join " " (p :: rest) ->
  sync_ok base st e ->
  sync_post base (resolve_leaf self depth root_parent_suite p leaf st e).
Proof.
  intros Htok Hrest Hjoin Hok. pose proof Hok as (evs & Htr & Hinv).
  unfold resolve_leaf, sync_post.
  destruct (qase_new_dict st !! p) as [inner|] eqn:Hdict;
    [|apply sync_ok_trace_ok with st; exact Hok].
  destruct (inner !! leaf) as [entry|] eqn:Hleaf; [exact Hok|].
  destruct (inv_parent _ _ Hinv _ _ Hdict) as (_ & v & Hid & Hknown).
  unfold bind at 1.
  destruct (Py.truthy (match known_suites st !! leaf with
                       | Some known_id => known_id
                       | None => find_suite_id (qase_suites st) leaf
                       end)) eqn:Hfound.
  - unfold ret. exists evs. split; [exact Htr|].
    rewrite <- (app_nil_r evs).
    eapply register_leaf; eauto; try (intros ? ? Hin; by apply elem_of_nil in Hin).
    + exact I.
    + intros ? Hin; by apply elem_of_nil in Hin.
    + intros ->. rewrite Hknown. left. reflexivity.
  - rewrite Hid. unfold bind at 1. unfold ret at 1.
    match goal with |- context [bind (create_qase_suite self ?n ?pa) ?K e] =>
      destruct (bind (create_qase_suite self n pa) K e) as [r e1] eqn:Hblock end.
    pose proof (create_and_refresh_events _ _ _ _ _ _ Hblock) as (new & Htr1 & Hre & Htitles & Hres).
    cbn [fst snd] in Htr1, Hres.
    assert (Hfresh : forall title, title ∈ titles new -> title = leaf /\ leaf ∉ (creations evs).*1).
    { intros title Hin. rewrite Htitles in Hin. apply list_elem_of_singleton in Hin.
      split; [exact Hin|]. eapply unresolved_leaf_fresh; eassumption. }
    destruct r as [created_pair|ex].
    + destruct Hres as (suite_id & suites & -> & Hcr). unfold ret.
      exists (evs ++ new). split; [rewrite Htr1, Htr, app_assoc; reflexivity|].
      eapply register_leaf; eauto.
      * eapply single_create_events, Htitles.
      * intros ->. right. exists v. split; [exact Hknown|].
        rewrite Hknown in Hfound. exact Hfound.
    + exists (evs ++ new). split; [rewrite Htr1, Htr, app_assoc; reflexivity|].
      split; [apply refreshed_app; [apply Hinv|exact Hre]|].
      apply no_recreate_app; [apply Hinv|eapply single_create_events, Htitles|].
      intros title Hin. destruct (Hfresh _ Hin) as [-> Hnot]. exact Hnot.
Qed.

Lemma record_case_post base qase_cases p leaf case st (e : env R) :
  sync_ok base st e ->
  sync_post base (record_case self move_cases qase_cases p leaf case st e).
Proof.
  intros Hok. pose proof Hok as (evs & Htr & Hinv).
  pose proof (sync_ok_trace_ok _ _ _ Hok) as Hbad.
  unfold record_case, sync_post.
  destruct (qase_id case) as [qid|]; [|exact Hok].
  destruct (Py.truthy (Some qid)); [|exact Hok].
  destruct (qase_new_dict st !! p) as [inner|] eqn:Hdict; [|exact Hbad].
  destruct (inner !! leaf) as [[v|cases v]|] eqn:Hleaf; [exact Hbad| |exact Hbad].
  assert (Hquiet : sync_ok base
            (mkSync (qase_suites st)
               (<[p := <[leaf := LeafEntry (cases ++ [qid]) v]> inner]> (qase_new_dict st))
               (known_suites st)) e).
  { exists evs. split; [exact Htr|]. rewrite <- (app_nil_r evs).
    eapply append_case; eauto. }
  destruct (List.find _ qase_cases) as [qase_case|]; [|exact Hquiet].
  destruct (bool_decide _); [|exact Hquiet].
  destruct move_cases; [|exact Hquiet].
  unfold bind. rewrite logger_run.
  match goal with |- context [update_a_test_case self ?c ?u ?w] =>
    destruct (update_a_test_case_trace self c u w) as (r & o & e' & Hupd & Htr' & _);
    rewrite Hupd end.
  unfold ret. cbn [trace] in Htr'.
  assert (Hafter : sync_ok base
            (mkSync (qase_suites st)
               (<[p := <[leaf := LeafEntry (cases ++ [qid]) v]> inner]> (qase_new_dict st))
               (known_suites st)) e').
  { exists (evs ++ [(UpdateCase (project_code self) qid
                       (mkTestCaseUpdate (Some v) None), o)]).
    split; [rewrite Htr', Htr, app_assoc; reflexivity|].
    eapply append_case; eauto. }
  destruct r as [b|ex]; [exact Hafter|]. eapply sync_ok_trace_ok, Hafter.
Qed.

Lemma sync_file_post base qase_cases file st (e : env R) :
  sync_ok base st e ->
  sync_post base
    (sync_file self depth move_cases root_parent_suite assert_parent_suite qase_cases file st e).
Proof.
  intros Hok. unfold sync_file.
  pose proof (split_tokens (default "" (suite_name_field file))) as Hall.
  destruct (Py.split (default "" (suite_name_field file))) as [|first tokens]; [exact Hok|].
  destruct tokens as [|p rest].
  - cbn. apply sync_ok_trace_ok with st. exact Hok.
  - cbn [forallb] in Hall.
    apply andb_true_iff in Hall as [_ Hall]. apply andb_true_iff in Hall as [Hp Hrest].
    unfold bind at 1. cbn [Py.index nth_error lift_result skipn].
    unfold bind at 1.
    pose proof (resolve_parent_post base p (Py.join " " (p :: rest)) st e Hp Hok) as Hparent.
    destruct (resolve_parent _ _ _ _ p _ st e) as [[st1|ex] e1]; [|exact Hparent].
    destruct Hparent as [Hok1 _].
    unfold bind at 1.
    pose proof (resolve_leaf_post base p rest _ st1 e1 Hp Hrest eq_refl Hok1) as Hleaf.
    unfold sync_post in Hleaf.
    destruct (resolve_leaf _ _ _ p _ st1 e1) as [[st2|ex] e2]; [|exact Hleaf].
    apply (fold_m_post (sync_ok base) (trace_ok base)); [|exact Hleaf].
    intros case s w Hs. apply record_case_post. exact Hs.
Qed.

Lemma keeps_refl d : keeps d d.
Proof. intros p inner name Hp Hn. eauto. Qed.

Lemma keeps_trans d1 d2 d3 : keeps d1 d2 -> keeps d2 d3 -> keeps d1 d3.
Proof.
  intros H12 H23 p inner name Hp Hn.
  destruct (H12 _ _ _ Hp Hn) as (inner2 & Hp2 & Hn2). eauto.
Qed.

Lemma keeps_new_parent (d : gmap string (gmap string suite_entry)) p x :
  d !! p = None -> keeps d (<[p := x]> d).
Proof.
  intros Hnone q inner name Hq Hn. exists inner.
  rewrite lookup_insert_ne by congruence. auto.
Qed.

Lemma keeps_leaf (d : gmap string (gmap string suite_entry)) p inner leaf entry :
  d !! p = Some inner -> keeps d (<[p := <[leaf := entry]> inner]> d).
Proof.
  intros Hp q inner' name Hq Hn. destruct (decide (q = p)) as [->|Hne].
  - exists (<[leaf := entry]> inner). rewrite lookup_insert_eq. split; [reflexivity|].
    assert (inner' = inner) by congruence. subst inner'.
    destruct (decide (name = leaf)) as [->|Hnl];
      [rewrite lookup_insert_eq; eauto|rewrite lookup_insert_ne by done; exact Hn].
  - exists inner'. rewrite lookup_insert_ne by done. auto.
Qed.

Lemma resolve_parent_keeps p leaf st (e : env R) st' e' :
  resolve_parent self depth root_parent_suite assert_parent_suite p leaf st e = (Ok st', e') ->
  keeps (qase_new_dict st) (qase_new_dict st').
Proof.
  unfold resolve_parent.
  destruct (qase_new_dict st !! p) as [inner|] eqn:Hdict.
  - intros [= <- <-]. apply keeps_refl.
  - unfold bind at 1. destruct assert_parent_suite.
    + destruct (known_suites st !! p) as [v|] eqn:Hknown; [|discriminate].
      unfold ret. rewrite Hknown. intros [= <- <-]. apply keeps_new_parent, Hdict.
    + destruct (Py.truthy (find_suite_id (qase_suites st) p)).
      * unfold ret. destruct (known_suites st !! p) as [v|]; [|discriminate].
        intros [= <- <-]. apply keeps_new_parent, Hdict.
      * match goal with |- context [bind (create_qase_suite self ?n ?pa) ?K e] =>
          destruct (bind (create_qase_suite self n pa) K e) as [r e1] eqn:Hblock end.
        pose proof (create_and_refresh_events _ _ _ _ _ _ Hblock) as (new & _ & _ & _ & Hres).
        cbn [fst] in Hres. destruct r as [st1|ex]; [|discriminate].
        destruct Hres as (suite_id & suites & -> & _).
        cbn [known_suites qase_suites qase_new_dict]. rewrite lookup_insert_eq.
        intros [= <- <-]. apply keeps_new_parent, Hdict.
Qed.

Lemma resolve_leaf_keeps p leaf st (e : env R) st' e' :
  resolve_leaf self depth root_parent_suite p leaf st e = (Ok st', e') ->
  keeps (qase_new_dict st) (qase_new_dict st')
  /\ exists inner, qase_new_dict st' !! p = Some inner /\ is_Some (inner !! leaf).
Proof.
  unfold resolve_leaf.
  destruct (qase_new_dict st !! p) as [inner|] eqn:Hdict; [|discriminate].
  destruct (inner !! leaf) as [entry|] eqn:Hleaf.
  - intros [= <- <-]. split; [apply keeps_refl|]. exists inner. rewrite Hleaf. eauto.
  - unfold bind at 1.
    assert (Hdone : forall suite_id suites w,
              ret (mkSync suites
                     (<[p := <[leaf := LeafEntry [] suite_id]> inner]> (qase_new_dict st))
                     (known_suites st)) w = (Ok st', e') ->
              keeps (qase_new_dict st) (qase_new_dict st')
              /\ exists inner', qase_new_dict st' !! p = Some inner' /\ is_Some (inner' !! leaf)).
    { intros suite_id suites w [= <- <-]. cbn [qase_new_dict].
      split; [apply keeps_leaf, Hdict|].
      eexists. rewrite lookup_insert_eq. split; [reflexivity|].
      rewrite lookup_insert_eq. eauto. }
    destruct (Py.truthy _); [apply Hdone|].
    unfold bind at 1.
    destruct (inner !! "id") as [[v|cases v]|]; unfold ret at 1, raise; try discriminate.
    + match goal with |- context [bind (create_qase_suite self ?n ?pa) ?K e] =>
        destruct (bind (create_qase_suite self n pa) K e) as [r e1] eqn:Hblock end.
      pose proof (create_and_refresh_events _ _ _ _ _ _ Hblock) as (new & _ & _ & _ & Hres).
      cbn [fst] in Hres. destruct r as [pair|ex]; [|discriminate].
      destruct Hres as (suite_id & suites & -> & _). apply Hdone.
    + match goal with |- context [bind (create_qase_suite self ?n ?pa) ?K e] =>
        destruct (bind (create_qase_suite self n pa) K e) as [r e1] eqn:Hblock end.
      pose proof (create_and_refresh_events _ _ _ _ _ _ Hblock) as (new & _ & _ & _ & Hres).
      cbn [fst] in Hres. destruct r as [pair|ex]; [|discriminate].
      destruct Hres as (suite_id & suites & -> & _). apply Hdone.
Qed.

Lemma record_case_keeps qase_cases p leaf case st (e : env R) st' e' :
  record_case self move_cases qase_cases p leaf case st e = (Ok st', e') ->
  keeps (qase_new_dict st) (qase_new_dict st').
Proof.
  unfold record_case.
  destruct (qase_id case) as [qid|]; [|intros [= <- <-]; apply keeps_refl].
  destruct (Py.truthy (Some qid)); [|intros [= <- <-]; apply keeps_refl].
  destruct (qase_new_dict st !! p) as [inner|] eqn:Hdict; [|discriminate].
  destruct (inner !! leaf) as [[v|cases v]|] eqn:Hleaf; try discriminate.
  assert (Hdone : forall w,
            ret (mkSync (qase_suites st)
                   (<[p := <[leaf := LeafEntry (cases ++ [qid]) v]> inner]> (qase_new_dict st))
                   (known_suites st)) w = (Ok st', e') ->
            keeps (qase_new_dict st) (qase_new_dict st')).
  { intros w [= <- <-]. apply keeps_leaf, Hdict. }
  destruct (List.find _ qase_cases) as [qase_case|]; [|apply Hdone].
  destruct (bool_decide _); [|apply Hdone].
  destruct move_cases; unfold bind; rewrite logger_run; [|apply Hdone].
  match goal with |- context [update_a_test_case self ?c ?u ?w] =>
    destruct (update_a_test_case_trace self c u w) as (r & o & e2 & Hupd & _);
    rewrite Hupd end.
  destruct r as [b|ex]; [apply Hdone|discriminate].
Qed.

Lemma fold_m_related {St A S} (rel : S -> S -> Prop) (body : A -> S -> M St S) :
  (forall s, rel s s) -> (forall s1 s2 s3, rel s1 s2 -> rel s2 s3 -> rel s1 s3) ->
  (forall x s w s' w', body x s w = (Ok s', w') -> rel s s') ->
  forall xs s w s' w', fold_m xs body s w = (Ok s', w') -> rel s s'.
Proof.
  intros Hrefl Htrans Hbody xs. induction xs as [|x rest IH]; intros s w s' w'.
  - intros [= <- <-]. apply Hrefl.
  - cbn [fold_m]. unfold bind. destruct (body x s w) as [[s1|ex] w1] eqn:Hx; [|discriminate].
    intros Hrest. eapply Htrans; [eapply Hbody, Hx|eapply IH, Hrest].
Qed.

Lemma sync_file_keeps qase_cases file st (e : env R) st' e' :
  sync_file self depth move_cases root_parent_suite assert_parent_suite qase_cases file st e
  = (Ok st', e') ->
  keeps (qase_new_dict st) (qase_new_dict st') /\ covered file (qase_new_dict st').
Proof.
  unfold sync_file, covered.
  destruct (Py.split (default "" (suite_name_field file))) as [|first tokens].
  - intros [= <- <-]. split; [apply keeps_refl|]. intros ? ? ? [=].
  - destruct tokens as [|p rest]; [discriminate|].
    unfold bind at 1. cbn [Py.index nth_error lift_result skipn].
    unfold bind at 1.
    destruct (resolve_parent _ _ _ _ p _ st e) as [[st1|ex] e1] eqn:Hparent; [|discriminate].
    unfold bind at 1.
    destruct (resolve_leaf _ _ _ p _ st1 e1) as [[st2|ex] e2] eqn:Hleaf; [|discriminate].
    intros Hcases.
    apply resolve_parent_keeps in Hparent.
    apply resolve_leaf_keeps in Hleaf as (Hkeep2 & inner & Hp & Hentry).
    assert (Hkeep3 : keeps (qase_new_dict st2) (qase_new_dict st')).
    { apply (fold_m_related (fun s s' => keeps (qase_new_dict s) (qase_new_dict s'))
               (record_case self move_cases qase_cases p (Py.join " " (p :: rest)))
               (fun s => keeps_refl _) (fun s1 s2 s3 => keeps_trans _ _ _)
               (fun x s w s' w' => record_case_keeps _ _ _ _ _ _ _ _)
               _ _ _ _ _ Hcases). }
    split; [eauto using keeps_trans|].
    intros first' p' rest' [= _ <- <-]. eapply Hkeep3; eassumption.
Qed.

Lemma files_covered qase_cases files : forall st (e : env R) st' e',
  fold_m files
    (sync_file self depth move_cases root_parent_suite assert_parent_suite qase_cases) st e
  = (Ok st', e') ->
  keeps (qase_new_dict st) (qase_new_dict st')
  /\ forall file, file ∈ files -> covered file (qase_new_dict st').
Proof.
  induction files as [|file rest IH]; intros st e st' e'.
  - intros [= <- <-]. split; [apply keeps_refl|]. intros file Hin. by apply elem_of_nil in Hin.
  - cbn [fold_m]. unfold bind.
    destruct (sync_file _ _ _ _ _ qase_cases file st e) as [[st1|ex] e1] eqn:Hfile; [|discriminate].
    intros Hrest. apply sync_file_keeps in Hfile as [Hkeep1 Hcov].
    apply IH in Hrest as [Hkeep2 Hall].
    split; [eauto using keeps_trans|].
    intros f Hin. apply elem_of_cons in Hin as [->|Hin]; [|apply Hall, Hin].
    intros first p tokens Hsplit. destruct (Hcov _ _ _ Hsplit) as (inner & Hp & Hentry).
    eapply Hkeep2; eassumption.
Qed.

(** The index the pass returns covers every file of the local index. *)
Lemma update_test_suites_from_pytest_covers full_index known (e : env R) dict e' :
  update_test_suites_from_pytest self depth move_cases root_parent_suite
    assert_parent_suite full_index known e = (Ok dict, e') ->
  forall file, file ∈ full_index -> covered file dict.
Proof.
  unfold update_test_suites_from_pytest, bind.
  destruct (get_suites self depth e) as [[suites|ex] e1]; [|discriminate].
  destruct (get_cases self depth e1) as [[cases|ex] e2]; [|discriminate].
  destruct (fold_m full_index _ _ e2) as [[st|ex] e3] eqn:Hfold; [|discriminate].
  intros [= <- <-]. apply files_covered in Hfold as [_ Hall]. exact Hall.
Qed.

(** What the agreement says about a suite that was created in the pass. *)
Lemma created_suite_entries st evs title id :
  sync_inv st evs -> (title, id) ∈ creations evs ->
  ((exists inner, qase_new_dict st !! title = Some inner)
   \/ (exists p inner, qase_new_dict st !! p = Some inner /\ is_Some (inner !! title)))
  /\ (title <> "id" ->
      forall p inner entry,
        qase_new_dict st !! p = Some inner -> inner !! title = Some entry ->
        exists cases, entry = LeafEntry cases (Some id))
  /\ (forall inner,
        qase_new_dict st !! title = Some inner ->
        exists v, inner !! "id" = Some (IdEntry v)
                  /\ (v = Some id
                      \/ (Py.truthy v = false
                          /\ exists cases, inner !! title = Some (LeafEntry cases (Some id)))))
  /\ (title = "id" ->
      forall inner,
        qase_new_dict st !! title = Some inner -> inner !! title = Some (IdEntry (Some id))).
Proof.
  intros Hinv Hin. pose proof (creations_nonzero _ _ _ Hin) as Hnz.
  assert (Htruthy : Py.truthy (Some id) = true)
    by (simpl; apply negb_true_iff, Z.eqb_neq; exact Hnz).
  destruct (inv_created _ _ Hinv _ _ Hin)
    as [(Ht & [inner0 Hsome] & Hk)
       |(p0 & rest0 & inner0 & cases0 & Hp0 & Hrest0 & Hjoin0 & Hdict0 & Hleaf0)].
  - split; [left; eauto|]. split.
    + intros Hnid p inner entry Hdict Hentry.
      destruct (inv_leaf _ _ Hinv _ _ _ _ Hdict Hentry Hnid) as ((rest & Hrest & Hjoin) & cases & v & ->).
      destruct (inv_parent _ _ Hinv _ _ Hdict) as (Hp & _).
      destruct (token_join_single _ _ _ Ht (forallb_cons_token _ _ Hp Hrest) Hjoin) as [_ ->].
      destruct (inv_own_leaf _ _ Hinv _ _ _ _ Hdict Hentry) as [Hv|(w & Hw & Hfalsy)].
      * exists cases. congruence.
      * rewrite Hk in Hw. injection Hw as <-. congruence.
    + split.
      * intros inner Hdict.
        destruct (inv_parent _ _ Hinv _ _ Hdict) as (_ & v & Hid & Hv).
        exists v. split; [exact Hid|left; congruence].
      * intros -> inner Hdict.
        destruct (inv_parent _ _ Hinv _ _ Hdict) as (_ & v & Hid & Hv).
        rewrite Hid. congruence.
  - split; [right; exists p0, inner0; rewrite Hleaf0; eauto|]. split.
    + intros Hnid p inner entry Hdict Hentry.
      destruct (inv_leaf _ _ Hinv _ _ _ _ Hdict Hentry Hnid) as ((rest & Hrest & Hjoin) & _).
      destruct (inv_parent _ _ Hinv _ _ Hdict) as (Hp & _).
      assert (p = p0).
      { apply (join_first_token p rest p0 rest0); [by apply forallb_cons_token..|congruence]. }
      subst p0. exists cases0. congruence.
    + split.
      * intros inner Hdict.
        destruct (inv_parent _ _ Hinv _ _ Hdict) as (Ht & v & Hid & Hv).
        destruct (token_join_single _ _ _ Ht (forallb_cons_token _ _ Hp0 Hrest0) Hjoin0) as [_ ->].
        assert (inner0 = inner) by congruence. subst inner0.
        exists v. split; [exact Hid|].
        destruct (inv_own_leaf _ _ Hinv _ _ _ _ Hdict Hleaf0) as [Hown|(w & Hw & Hfalsy)].
        -- left. congruence.
        -- right. split; [congruence|]. exists cases0. exact Hleaf0.
      * intros -> inner Hdict.
        destruct (inv_parent _ _ Hinv _ _ Hdict0) as (_ & v & Hid & _). congruence.
Qed.

Lemma sync_inv_start suites known : sync_inv (mkSync suites ∅ known) [].
Proof.
  split; cbn [qase_new_dict known_suites]; try done.
  intros title id Hin. by apply elem_of_nil in Hin.
Qed.

(** The whole pass keeps the agreement. *)
Lemma update_test_suites_from_pytest_post full_index known (e : env R) :
  match update_test_suites_from_pytest self depth move_cases root_parent_suite
          assert_parent_suite full_index known e with
  | (Ok dict, e') => exists st, qase_new_dict st = dict /\ sync_ok (trace e) st e'
  | (Raise _, e') => trace_ok (trace e) e'
  end.
Proof.
  unfold update_test_suites_from_pytest. unfold bind at 1.
  destruct (get_suites_events e) as (next & rest & Htr1 & _ & Hq1).
  destruct (get_suites self depth e) as [[suites|ex] e1]; cbn [snd] in Htr1;
    [|exists (next :: rest); split; [exact Htr1|split; apply quiet_events; exact Hq1]].
  unfold bind at 1.
  destruct (get_cases_events e1) as (new & Htr2 & Hq2).
  assert (Hq : titles ((next :: rest) ++ new) = []) by (rewrite titles_app, Hq1, Hq2; reflexivity).
  assert (Htr : forall w : env R, trace w = trace e1 ++ new ->
                                  trace w = trace e ++ ((next :: rest) ++ new)).
  { intros w ->. rewrite Htr1, <- app_assoc. reflexivity. }
  destruct (get_cases self depth e1) as [[cases|ex] e2]; cbn [snd] in Htr2;
    [|exists ((next :: rest) ++ new); split; [apply Htr, Htr2|split; apply quiet_events; exact Hq]].
  assert (Hstart : sync_ok (trace e) (mkSync suites ∅ known) e2).
  { exists ((next :: rest) ++ new). split; [apply Htr, Htr2|].
    apply (sync_inv_quiet (mkSync suites ∅ known) [] _ suites (sync_inv_start suites known) Hq). }
  unfold bind.
  pose proof (fold_m_post (sync_ok (trace e)) (trace_ok (trace e))
                (sync_file self depth move_cases root_parent_suite assert_parent_suite cases)
                (fun file s w Hs => sync_file_post (trace e) cases file s w Hs)
                full_index _ _ Hstart) as Hfold.
  destruct (fold_m full_index _ _ e2) as [[st|ex] e3]; [|exact Hfold].
  unfold ret. exists st. auto.
Qed.

(** *** The suite list that is searched is the list last fetched *)

Lemma suites_fetched_app acc evs new :
  suites_fetched acc (evs ++ new) = suites_fetched (suites_fetched acc evs) new.
Proof.
  revert acc. induction evs as [|ev rest IH]; intros acc; [reflexivity|].
  cbn [app suites_fetched]. destruct (suites_page ev) as [[offset page]|]; apply IH.
Qed.

Lemma create_is_no_page ev title : create_title ev = Some title -> suites_page ev = None.
Proof. destruct ev as [[] o]; try discriminate. reflexivity. Qed.

Lemma creates_unmatched_app known pre evs new :
  creates_unmatched known pre (evs ++ new)
  <-> creates_unmatched known pre evs /\ creates_unmatched known (pre ++ evs) new.
Proof.
  revert pre. induction evs as [|ev rest IH]; intros pre.
  - cbn [app creates_unmatched]. rewrite app_nil_r. tauto.
  - cbn [app creates_unmatched]. rewrite IH, <- app_assoc. cbn [app]. tauto.
Qed.

Lemma creates_unmatched_quiet known pre new :
  titles new = [] -> creates_unmatched known pre new.
Proof.
  revert pre. induction new as [|ev rest IH]; intros pre Hq; [exact I|].
  rewrite titles_cons in Hq. cbn [creates_unmatched].
  destruct (create_title ev); [discriminate|]. split; [exact I|apply IH, Hq].
Qed.

Lemma creates_unmatched_split known evs :
  forall base, creates_unmatched known base evs ->
  forall pre ev post title,
    evs = pre ++ ev :: post -> create_title ev = Some title ->
    unmatched known (base ++ pre) title.
Proof.
  induction evs as [|x rest IH]; intros base Hall pre ev post title Heq Hc.
  - destruct pre; discriminate.
  - cbn [creates_unmatched] in Hall. destruct Hall as [Hx Hrest].
    destruct pre as [|y pre]; cbn [app] in Heq; injection Heq as -> ->.
    + rewrite Hc in Hx. rewrite app_nil_r. exact Hx.
    + specialize (IH _ Hrest pre ev post title eq_refl Hc).
      rewrite <- app_assoc in IH. exact IH.
Qed.

(** A paginated fetch of the suite list delivers the list it returns. *)
Lemma get_all_suites_fetched (code : string) :
  forall fuel limit offset (e : env R) acc r e',
    0 < limit -> 0 <= offset ->
    get_all_instances fuel
      (fun l o => call (GetSuites code l o) SuitesResponse (SuitesApi_get_suites code l o))
      limit offset e = (r, e') ->
    exists pages,
      trace e' = trace e ++ pages
      /\ titles pages = []
      /\ forall suites, r = Ok suites ->
                        suites_fetched acc pages = if offset =? 0 then suites else acc ++ suites.
Proof.
  assert (Hone : forall limit offset res (acc : list Suite.t) page,
            list_result res = Some page ->
            suites_fetched acc [(GetSuites code limit offset, Success (SuitesResponse res))]
            = if offset =? 0 then entities page else acc ++ entities page).
  { intros limit offset res acc page Hres. cbn [suites_fetched suites_page]. rewrite Hres.
    reflexivity. }
  induction fuel as [|d IH]; intros limit offset e acc r e' Hlimit Hoffset;
    cbn [get_all_instances]; unfold bind at 1; unfold call at 1;
    destruct (SuitesApi_get_suites code limit offset (remote e)) as [[res|reason|name] r'];
    try (intros [= <- <-]; eexists [_]; split; [reflexivity|]; split; [reflexivity|]; discriminate).
  - destruct (list_result res) as [page|] eqn:Hres;
      [|intros [= <- <-]; eexists [_]; split; [reflexivity|]; split; [reflexivity|]; discriminate].
    destruct (limit + offset <? filtered page); intros [= <- <-];
      eexists [_]; (split; [reflexivity|]); (split; [reflexivity|]); [discriminate|].
    intros suites [= <-]. apply Hone, Hres.
  - destruct (list_result res) as [page|] eqn:Hres;
      [|intros [= <- <-]; eexists [_]; split; [reflexivity|]; split; [reflexivity|]; discriminate].
    destruct (limit + offset <? filtered page).
    + unfold bind.
      match goal with |- context [get_all_instances d ?fn limit ?off ?w] =>
        destruct (get_all_instances d fn limit off w) as [r1 e2] eqn:Hrest end.
      assert (Hnext : 0 <= offset + limit) by lia.
      destruct (IH _ _ _ (if offset =? 0 then entities page else acc ++ entities page)
                  _ _ Hlimit Hnext Hrest) as (pages & Htr & Hquiet & Hlist).
      cbn [trace] in Htr.
      assert (Hnz : (offset + limit =? 0) = false) by (apply Z.eqb_neq; lia).
      destruct r1 as [more|ex]; intros [= <- <-];
        eexists (_ :: pages);
        (split; [rewrite Htr, <- app_assoc; reflexivity|]);
        (split; [rewrite titles_cons; exact Hquiet|]); [|discriminate].
      intros suites [= <-]. cbn [suites_fetched suites_page outcome_map]. rewrite Hres.
      rewrite (Hlist more eq_refl), Hnz.
      destruct (offset =? 0); [reflexivity|]. rewrite app_assoc. reflexivity.
    + intros [= <- <-]. eexists [_]. split; [reflexivity|]. split; [reflexivity|].
      intros suites [= <-]. apply Hone, Hres.
Qed.

Lemma get_suites_fetched (e : env R) :
  exists pages,
    trace (get_suites self depth e).2 = trace e ++ pages
    /\ titles pages = []
    /\ forall suites, (get_suites self depth e).1 = Ok suites ->
                      forall acc, suites_fetched acc pages = suites.
Proof.
  unfold get_suites.
  destruct (get_all_instances depth _ 100 0 e) as [r e'] eqn:Hrun. cbn [fst snd].
  assert (Hlimit : 0 < 100) by lia. assert (Hoffset : 0 <= 0) by lia.
  destruct (get_all_suites_fetched _ _ _ _ _ [] _ _ Hlimit Hoffset Hrun)
    as (pages & Htr & Hquiet & _).
  exists pages. split; [exact Htr|]. split; [exact Hquiet|].
  intros suites Hok acc.
  destruct (get_all_suites_fetched _ _ _ _ _ acc _ _ Hlimit Hoffset Hrun)
    as (pages' & Htr' & _ & Hlist).
  rewrite Htr in Htr'. apply app_inv_head in Htr'. subst pages'.
  apply Hlist. exact Hok.
Qed.

(** A paginated fetch of anything else leaves the suite list as it was. *)
Lemma get_all_instances_quiet {E} (rq : Z -> Z -> request) (inj : ListResponse E -> response)
    (f : Z -> Z -> R -> outcome (ListResponse E) * R) :
  (forall limit offset out, create_title (rq limit offset, out) = None) ->
  (forall limit offset out, suites_page (rq limit offset, out) = None) ->
  forall fuel limit offset (e : env R),
  exists new,
    trace (get_all_instances fuel (fun l o => call (rq l o) inj (f l o)) limit offset e).2
    = trace e ++ new
    /\ titles new = []
    /\ forall acc, suites_fetched acc new = acc.
Proof.
  intros Hrq Hpage.
  assert (Hone : forall limit offset out,
            titles [(rq limit offset, out)] = []
            /\ forall acc, suites_fetched acc [(rq limit offset, out)] = acc).
  { intros limit offset out. split.
    - rewrite titles_cons, Hrq. reflexivity.
    - intros acc. cbn [suites_fetched]. rewrite Hpage. reflexivity. }
  induction fuel as [|d IH]; intros limit offset e;
    cbn [get_all_instances]; unfold bind at 1; unfold call at 1;
    destruct (f limit offset (remote e)) as [[res|reason|name] r'];
    try (eexists [_]; split; [reflexivity|apply Hone]).
  - destruct (list_result res) as [page|]; [|eexists [_]; split; [reflexivity|apply Hone]].
    destruct (limit + offset <? filtered page); eexists [_]; split; try reflexivity; apply Hone.
  - destruct (list_result res) as [page|]; [|eexists [_]; split; [reflexivity|apply Hone]].
    destruct (limit + offset <? filtered page); [|eexists [_]; split; [reflexivity|apply Hone]].
    unfold bind.
    match goal with |- context [get_all_instances d ?fn limit ?off ?w] =>
      destruct (IH limit off w) as (new & Htr & Hquiet & Hsame);
      destruct (get_all_instances d fn limit off w) as [[more|ex] e2] end;
      cbn [snd] in *; cbn [trace] in Htr; unfold ret; cbn [snd];
      eexists (_ :: new);
      (split; [rewrite Htr, <- app_assoc; reflexivity|]);
      (split; [rewrite titles_cons, Hrq; exact Hquiet|]);
      intros acc; cbn [suites_fetched]; rewrite Hpage; apply Hsame.
Qed.

Lemma get_cases_quiet (e : env R) :
  exists new,
    trace (get_cases self depth e).2 = trace e ++ new
    /\ titles new = []
    /\ forall acc, suites_fetched acc new = acc.
Proof.
  apply (get_all_instances_quiet (GetCases (project_code self)) CasesResponse
           (CasesApi_get_cases (project_code self))); reflexivity.
Qed.

(** Creating a suite and refreshing the list: the list that comes back is
    the list the history delivered after the create request. *)
Lemma create_and_refresh_fetched {A} name parent leaf (k : Py.pyid -> list Suite.t -> A)
    (e : env R) out :
  (let* suite_id := create_qase_suite self name parent in
   logger INFO "New suite created" [leaf] ;;;
   let* suites := get_suites self depth in
   ret (k suite_id suites)) e = out ->
  exists ev pages,
    trace out.2 = trace e ++ ev :: pages
    /\ create_title ev = Some name
    /\ titles pages = []
    /\ match out.1 with
       | Ok a => exists suite_id suites,
           a = k suite_id suites /\ forall acc, suites_fetched acc pages = suites
       | Raise _ => True
       end.
Proof.
  intros Hout.
  destruct (create_qase_suite_events name parent e) as (ev & r & e1 & Hc & Htr1 & Htitle & _).
  unfold bind at 1 in Hout. rewrite Hc in Hout. destruct r as [suite_id|ex].
  - unfold bind, ret in Hout. rewrite logger_run in Hout.
    match type of Hout with context [get_suites self depth ?w] =>
      destruct (get_suites_fetched w) as (pages & Htr2 & Hquiet & Hlist);
      destruct (get_suites self depth w) as [[suites|ex] e2] end;
      cbn [snd fst trace] in *; subst out; cbn [snd fst];
      exists ev, pages;
      (split; [rewrite Htr2, Htr1, <- app_assoc; reflexivity|]);
      (split; [exact Htitle|]); (split; [exact Hquiet|]); [|exact I].
    exists suite_id, suites. split; [reflexivity|]. apply Hlist. reflexivity.
  - subst out. cbn [snd fst]. exists ev, []. auto.
Qed.

Lemma fresh_ok_unmatched known base st (e : env R) :
  fresh_ok known base st e -> unmatched_ok known base e.
Proof. intros (evs & Htr & Hinv). exists evs. split; [exact Htr|apply Hinv]. Qed.

Lemma fresh_inv_index known st evs d :
  fresh_inv known st evs -> fresh_inv known (mkSync (qase_suites st) d (known_suites st)) evs.
Proof. intros [Hs Hk Hc]. split; assumption. Qed.

Lemma fresh_inv_quiet known st evs new :
  fresh_inv known st evs -> titles new = [] -> (forall acc, suites_fetched acc new = acc) ->
  fresh_inv known st (evs ++ new).
Proof.
  intros [Hs Hk Hc] Hq Hsame. split.
  - rewrite suites_fetched_app, Hsame. exact Hs.
  - intros key v Hv. destruct (Hk key v Hv) as [Hold|Hin]; [left; exact Hold|right].
    rewrite titles_app. apply elem_of_app. left. exact Hin.
  - apply creates_unmatched_app. split; [exact Hc|]. apply creates_unmatched_quiet, Hq.
Qed.

Lemma unmatched_after_create known evs ev pages name :
  creates_unmatched known [] evs -> create_title ev = Some name -> titles pages = [] ->
  unmatched known evs name ->
  creates_unmatched known [] (evs ++ ev :: pages).
Proof.
  intros Hc Hev Hq Hname. apply creates_unmatched_app. split; [exact Hc|].
  cbn [app creates_unmatched]. rewrite Hev. split; [exact Hname|].
  apply creates_unmatched_quiet, Hq.
Qed.

Lemma fresh_after_create known st evs ev pages name suites d known' :
  fresh_inv known st evs -> create_title ev = Some name -> titles pages = [] ->
  (forall acc, suites_fetched acc pages = suites) ->
  unmatched known evs name ->
  (forall key v, known' !! key = Some v -> known_suites st !! key = Some v \/ key = name) ->
  fresh_inv known (mkSync suites d known') (evs ++ ev :: pages).
Proof.
  intros [Hs Hk Hc] Hev Hq Hlist Hname Hknown. split.
  - cbn [qase_suites]. rewrite suites_fetched_app. cbn [suites_fetched].
    rewrite (create_is_no_page _ _ Hev), Hlist. reflexivity.
  - cbn [known_suites]. intros key v Hv. rewrite titles_app, elem_of_app, titles_cons, Hev.
    destruct (Hknown key v Hv) as [Hold| ->].
    + destruct (Hk key v Hold); auto.
    + right. right. apply elem_of_cons. left. reflexivity.
  - apply (unmatched_after_create known evs ev pages name); assumption.
Qed.

Lemma resolve_parent_fresh known base p leaf st (e : env R) :
  fresh_ok known base st e ->
  fresh_post known base
    (resolve_parent self depth root_parent_suite assert_parent_suite p leaf st e).
Proof.
  intros Hok. pose proof Hok as (evs & Htr & Hinv).
  pose proof (fresh_ok_unmatched _ _ _ _ Hok) as Hbad.
  assert (Hsame : forall d, fresh_ok known base (mkSync (qase_suites st) d (known_suites st)) e).
  { intros d. exists evs. split; [exact Htr|]. apply fresh_inv_index, Hinv. }
  unfold resolve_parent, fresh_post.
  destruct (qase_new_dict st !! p) as [inner|] eqn:Hdict; [exact Hok|].
  unfold bind at 1. destruct assert_parent_suite.
  - destruct (known_suites st !! p) as [v|] eqn:Hknown; [|exact Hbad].
    unfold ret. rewrite Hknown. apply Hsame.
  - destruct (Py.truthy (find_suite_id (qase_suites st) p)) eqn:Hfound.
    + unfold ret. destruct (known_suites st !! p) as [v|]; [apply Hsame|exact Hbad].
    + match goal with |- context [bind (create_qase_suite self ?n ?pa) ?K e] =>
        destruct (bind (create_qase_suite self n pa) K e) as [r e1] eqn:Hblock end.
      pose proof (create_and_refresh_fetched _ _ _ _ _ _ Hblock)
        as (ev & pages & Htr1 & Hev & Hq & Hres).
      cbn [fst snd] in Htr1, Hres.
      assert (Hname : unmatched known evs p).
      { left. rewrite <- (fresh_suites _ _ _ Hinv). exact Hfound. }
      assert (Htrace : trace e1 = base ++ evs ++ ev :: pages)
        by (rewrite Htr1, Htr, <- app_assoc; reflexivity).
      destruct r as [st1|ex].
      * destruct Hres as (suite_id & suites & -> & Hlist).
        cbn [known_suites qase_suites qase_new_dict]. rewrite lookup_insert_eq. unfold ret.
        exists (evs ++ ev :: pages). split; [exact Htrace|].
        eapply fresh_after_create; try eassumption.
        intros key v Hv. destruct (decide (key = p)) as [->|Hne]; [right; reflexivity|].
        rewrite lookup_insert_ne in Hv by congruence. left. exact Hv.
      * exists (evs ++ ev :: pages). split; [exact Htrace|].
        apply (unmatched_after_create known evs ev pages p); try assumption. apply Hinv.
Qed.

Lemma resolve_leaf_fresh known base p leaf st (e : env R) :
  fresh_ok known base st e ->
  fresh_post known base (resolve_leaf self depth root_parent_suite p leaf st e).
Proof.
  intros Hok. pose proof Hok as (evs & Htr & Hinv).
  pose proof (fresh_ok_unmatched _ _ _ _ Hok) as Hbad.
  unfold resolve_leaf, fresh_post.
  destruct (qase_new_dict st !! p) as [inner|] eqn:Hdict; [|exact Hbad].
  destruct (inner !! leaf) as [entry|] eqn:Hleaf; [exact Hok|].
  unfold bind at 1.
  destruct (Py.truthy _) eqn:Hfound.
  - unfold ret. exists evs. split; [exact Htr|]. apply fresh_inv_index, Hinv.
  - assert (Hname : unmatched known evs leaf).
    { destruct (known_suites st !! leaf) as [v|] eqn:Hknown.
      - destruct (fresh_known _ _ _ Hinv _ _ Hknown) as [Hold|Hin].
        + right. left. exists v. auto.
        + right. right. exact Hin.
      - left. rewrite <- (fresh_suites _ _ _ Hinv). exact Hfound. }
    assert (Hcreate : forall parent_id,
              match
                (let* created :=
                   (let* suite_id := create_qase_suite self leaf parent_id in
                    logger INFO "New suite created" [leaf] ;;;
                    let* suites := get_suites self depth in
                    ret (suite_id, suites)) in
                 let (suite_id, suites) := created : Py.pyid * list Suite.t in
                 ret (mkSync suites
                        (<[p := <[leaf := LeafEntry [] suite_id]> inner]> (qase_new_dict st))
                        (known_suites st))) e
              with
              | (Ok st', e') => fresh_ok known base st' e'
              | (Raise _, e') => unmatched_ok known base e'
              end).
    { intros parent_id. unfold bind at 1.
      match goal with |- context [bind (create_qase_suite self ?n ?pa) ?K e] =>
        destruct (bind (create_qase_suite self n pa) K e) as [r e1] eqn:Hblock end.
      pose proof (create_and_refresh_fetched _ _ _ (fun i l => (i, l)) _ _ Hblock)
        as (ev & pages & Htr1 & Hev & Hq & Hres).
      cbn [fst snd] in Htr1, Hres.
      assert (Htrace : trace e1 = base ++ evs ++ ev :: pages)
        by (rewrite Htr1, Htr, <- app_assoc; reflexivity).
      destruct r as [pair|ex].
      - destruct Hres as (suite_id & suites & -> & Hlist). unfold ret.
        exists (evs ++ ev :: pages). split; [exact Htrace|].
        eapply fresh_after_create; try eassumption. auto.
      - exists (evs ++ ev :: pages). split; [exact Htrace|].
        apply (unmatched_after_create known evs ev pages leaf); try assumption. apply Hinv. }
    unfold bind at 1.
    destruct (inner !! "id") as [[v|cases v]|]; unfold ret at 1, raise;
      [apply Hcreate|exact Hbad|apply Hcreate].
Qed.

Lemma record_case_fresh known base qase_cases p leaf case st (e : env R) :
  fresh_ok known base st e ->
  fresh_post known base (record_case self move_cases qase_cases p leaf case st e).
Proof.
  intros Hok. pose proof Hok as (evs & Htr & Hinv).
  pose proof (fresh_ok_unmatched _ _ _ _ Hok) as Hbad.
  assert (Hsame : forall d, fresh_ok known base (mkSync (qase_suites st) d (known_suites st)) e).
  { intros d. exists evs. split; [exact Htr|]. apply fresh_inv_index, Hinv. }
  unfold record_case, fresh_post.
  destruct (qase_id case) as [qid|]; [|exact Hok].
  destruct (Py.truthy (Some qid)); [|exact Hok].
  destruct (qase_new_dict st !! p) as [inner|] eqn:Hdict; [|exact Hbad].
  destruct (inner !! leaf) as [[v|cases v]|] eqn:Hleaf; [exact Hbad| |exact Hbad].
  destruct (List.find _ qase_cases) as [qase_case|]; [|apply Hsame].
  destruct (bool_decide _); [|apply Hsame].
  destruct move_cases; [|apply Hsame].
  unfold bind. rewrite logger_run.
  match goal with |- context [update_a_test_case self ?c ?u ?w] =>
    destruct (update_a_test_case_trace self c u w) as (r & o & e' & Hupd & Htr' & _);
    rewrite Hupd end.
  unfold ret. cbn [trace] in Htr'.
  assert (Hafter : forall d,
            fresh_ok known base (mkSync (qase_suites st) d (known_suites st)) e').
  { intros d. eexists. split; [rewrite Htr', Htr, <- app_assoc; reflexivity|].
    apply fresh_inv_index, fresh_inv_quiet; [exact Hinv|reflexivity|reflexivity]. }
  destruct r as [b|ex]; [apply Hafter|]. eapply fresh_ok_unmatched, (Hafter ∅).
Qed.

Lemma sync_file_fresh known base qase_cases file st (e : env R) :
  fresh_ok known base st e ->
  fresh_post known base
    (sync_file self depth move_cases root_parent_suite assert_parent_suite qase_cases file st e).
Proof.
  intros Hok. unfold sync_file.
  destruct (Py.split (default "" (suite_name_field file))) as [|first tokens]; [exact Hok|].
  destruct tokens as [|p rest]; [exact (fresh_ok_unmatched _ _ _ _ Hok)|].
  unfold bind at 1. cbn [Py.index nth_error lift_result skipn].
  unfold bind at 1.
  pose proof (resolve_parent_fresh known base p (Py.join " " (p :: rest)) st e Hok) as Hparent.
  destruct (resolve_parent _ _ _ _ p _ st e) as [[st1|ex] e1]; [|exact Hparent].
  unfold bind at 1.
  pose proof (resolve_leaf_fresh known base p (Py.join " " (p :: rest)) st1 e1 Hparent) as Hleaf.
  destruct (resolve_leaf _ _ _ p _ st1 e1) as [[st2|ex] e2]; [|exact Hleaf].
  apply (fold_m_post (fresh_ok known base) (unmatched_ok known base)
           (record_case self move_cases qase_cases p (Py.join " " (p :: rest)))
           (fun case s w Hs => record_case_fresh known base qase_cases p _ case s w Hs)).
  exact Hleaf.
Qed.

(** Every create-suite request of a pass was allowed by the suite list as
    the pass had last fetched it. *)
Lemma update_test_suites_from_pytest_fresh full_index known (e : env R) :
  unmatched_ok known (trace e)
    (update_test_suites_from_pytest self depth move_cases root_parent_suite
       assert_parent_suite full_index known e).2.
Proof.
  unfold update_test_suites_from_pytest. unfold bind at 1.
  destruct (get_suites_fetched e) as (pages & Htr1 & Hq1 & Hlist).
  destruct (get_suites self depth e) as [[suites|ex] e1]; cbn [snd fst] in Htr1, Hlist;
    [|exists pages; split; [exact Htr1|apply creates_unmatched_quiet, Hq1]].
  unfold bind at 1.
  destruct (get_cases_quiet e1) as (new & Htr2 & Hq2 & Hsame).
  assert (Hq : titles (pages ++ new) = []) by (rewrite titles_app, Hq1, Hq2; reflexivity).
  assert (Htr : forall w : env R, trace w = trace e1 ++ new -> trace w = trace e ++ (pages ++ new)).
  { intros w ->. rewrite Htr1, <- app_assoc. reflexivity. }
  destruct (get_cases self depth e1) as [[cases|ex] e2]; cbn [snd] in Htr2;
    [|exists (pages ++ new); split; [apply Htr, Htr2|apply creates_unmatched_quiet, Hq]].
  assert (Hstart : fresh_ok known (trace e) (mkSync suites ∅ known) e2).
  { exists (pages ++ new). split; [apply Htr, Htr2|]. split.
    - cbn [qase_suites]. rewrite suites_fetched_app, Hsame. symmetry. apply Hlist. reflexivity.
    - cbn [known_suites]. auto.
    - apply creates_unmatched_quiet, Hq. }
  unfold bind.
  pose proof (fold_m_post (fresh_ok known (trace e)) (unmatched_ok known (trace e))
                (sync_file self depth move_cases root_parent_suite assert_parent_suite cases)
                (fun file s w Hs => sync_file_fresh known (trace e) cases file s w Hs)
                full_index _ _ Hstart) as Hfold.
  destruct (fold_m full_index _ _ e2) as [[st|ex] e3]; cbn [snd]; [|exact Hfold].
  eapply fresh_ok_unmatched, Hfold.
Qed.

(** C8 (as amended): in every pass, over every remote: (1) each
    create-suite request the client comes back from is directly followed by
    the request that refreshes the suite list; (2) the list that is searched
    is the list last fetched: a create-suite request is issued for a name
    only when no suite of the list the history last delivered matches that
    name (or [known_suites] gives the name an absent id, or an earlier
    create request of the pass asked for it), so a suite that the refresh
    has shown is not created again under any name that matches it; (3) once
    a suite was created (the remote answered with a non-zero id), no later
    request of the pass creates a suite of that title; and (4) in the index
    the pass returns, every file whose leaf-suite name is that title has its
    entry of that name at the new id, and every file whose parent-suite name
    is that title has its parent entry at the new id, the one exception
    being a parent whose id is absent (0 or None) while the suite created
    sits in the index as the leaf of its own name under that parent. *)
Theorem created_suite_is_reused (full_index : list test_file)
    (known : gmap string Py.pyid) (e : env R) :
  let run := update_test_suites_from_pytest self depth move_cases root_parent_suite
               assert_parent_suite full_index known in
  let evs := issued run e in
  trace (run e).2 = trace e ++ evs
  /\ (forall pre ev post,
        evs = pre ++ ev :: post -> is_Some (create_title ev) -> crashed ev = false ->
        exists next post', post = next :: post' /\ is_first_page_of_suites next = true)
  /\ (forall pre ev post title,
        evs = pre ++ ev :: post -> create_title ev = Some title ->
        unmatched known pre title)
  /\ (forall pre ev post title id,
        evs = pre ++ ev :: post -> created ev = Some (title, id) ->
        title ∉ titles post)
  /\ (forall dict title id,
        (run e).1 = Ok dict -> (title, id) ∈ creations evs ->
        forall file first p rest,
          file ∈ full_index ->
          Py.split (default "" (suite_name_field file)) = first :: p :: rest ->
          exists inner,
            dict !! p = Some inner
            /\ (Py.join " " (p :: rest) = title ->
                exists entry, inner !! title = Some entry /\ entry_id entry = Some id)
            /\ (p = title ->
                exists v, inner !! "id" = Some (IdEntry v)
                          /\ (v = Some id
                              \/ (Py.truthy v = false
                                  /\ exists cases,
                                       inner !! title = Some (LeafEntry cases (Some id)))))).
Proof.
  intros run evs.
  pose proof (update_test_suites_from_pytest_post full_index known e) as Hpost.
  pose proof (update_test_suites_from_pytest_covers full_index known e) as Hcovers.
  pose proof (update_test_suites_from_pytest_fresh full_index known e) as Hfresh.
  fold run in Hpost, Hcovers, Hfresh.
  assert (Hevs : exists new, trace (run e).2 = trace e ++ new
                   /\ refreshed new = true /\ no_recreate new
                   /\ forall dict, (run e).1 = Ok dict ->
                        (exists st, qase_new_dict st = dict /\ sync_inv st new)
                        /\ forall file, file ∈ full_index -> covered file dict).
  { destruct (run e) as [[dict|ex] e'].
    - destruct Hpost as (st & Hdict & new & Htr & Hinv).
      exists new. split; [exact Htr|]. split; [apply Hinv|]. split; [apply Hinv|].
      intros dict' [= <-]. split; [eauto|]. eapply Hcovers. reflexivity.
    - destruct Hpost as (new & Htr & Hre & Hno).
      exists new. split; [exact Htr|]. split; [exact Hre|]. split; [exact Hno|].
      discriminate. }
  destruct Hevs as (new & Htr & Hre & Hno & Hfinal).
  assert (evs = new) as -> by (apply issued_app; exact Htr).
  assert (Hallowed : creates_unmatched known [] new).
  { destruct Hfresh as (new' & Htr' & Hall). rewrite Htr in Htr'.
    apply app_inv_head in Htr'. subst new'. exact Hall. }
  split; [exact Htr|]. split; [apply refreshed_split; exact Hre|].
  split; [intros pre ev post title Heq Hc;
          exact (creates_unmatched_split known new [] Hallowed pre ev post title Heq Hc)|].
  split; [apply no_recreate_split; exact Hno|].
  intros dict title id Hok Hin file first p rest Hfile Hsplit.
  destruct (Hfinal dict Hok) as ((st & <- & Hinv) & Hcov).
  destruct (Hcov file Hfile first p rest Hsplit) as (inner & Hp & [entry Hentry]).
  destruct (created_suite_entries st new title id Hinv Hin) as (_ & Hleaf & Hparent & Hreserved).
  exists inner. split; [exact Hp|]. split.
  - intros Hjoin. rewrite Hjoin in Hentry. exists entry. split; [exact Hentry|].
    destruct (decide (title = "id")) as [Hid|Hnid].
    + assert (Htokens : forallb is_token (p :: rest) = true).
      { pose proof (split_tokens (default "" (suite_name_field file))) as Hall.
        rewrite Hsplit in Hall. cbn [forallb] in Hall.
        apply andb_true_iff in Hall as [_ Hall]. exact Hall. }
      assert (Htoken : is_token title = true) by (rewrite Hid; reflexivity).
      destruct (token_join_single title p rest Htoken Htokens (eq_sym Hjoin)) as [_ Hpt].
      subst p. rewrite (Hreserved Hid inner Hp) in Hentry. injection Hentry as <-. reflexivity.
    + destruct (Hleaf Hnid p inner entry Hp Hentry) as (cases & ->). reflexivity.
  - intros ->. apply Hparent, Hp.
Qed.

End SyncPass.


(** The spec's example on the in-memory remote: "Foo" is created for the
    first file; the second file, whose leaf-suite name is "Foo", takes the
    new id and no second suite "Foo" is created. *)
Example foo_is_created_once :
  let run := update_test_suites_from_pytest demo 5 false None false
               [mkTestFile (Some "x Foo Bar") []; mkTestFile (Some "x Foo") []] ∅ in
  let world := start (Sim.mk [] [] 10 []) in
  titles (issued run world) = ["Foo"; "Foo Bar"]
  /\ creations (issued run world) = [("Foo", 10); ("Foo Bar", 11)]
  /\ exists dict inner,
       (run world).1 = Ok dict /\ dict !! "Foo" = Some inner
       /\ inner !! "id" = Some (IdEntry (Some 10))
       /\ inner !! "Foo" = Some (LeafEntry [] (Some 10)).
Proof.
  split; [vm_compute; reflexivity|]. split; [vm_compute; reflexivity|].
  do 2 eexists. split; [vm_compute; reflexivity|].
  split; [vm_compute; reflexivity|]. split; vm_compute; reflexivity.
Qed.

(** The refreshed list is what later lookups search: after "Foo bar" was
    created, the file that asks for "Foo BAR" finds it in the refreshed list
    and takes its id; no suite is created for it. *)
Example refreshed_list_is_searched :
  let run := update_test_suites_from_pytest demo 5 false None false
               [mkTestFile (Some "x Foo bar") []; mkTestFile (Some "x Foo BAR") []] ∅ in
  let world := start (Sim.mk [] [] 10 []) in
  titles (issued run world) = ["Foo"; "Foo bar"]
  /\ exists dict inner,
       (run world).1 = Ok dict /\ dict !! "Foo" = Some inner
       /\ inner !! "Foo bar" = Some (LeafEntry [] (Some 11))
       /\ inner !! "Foo BAR" = Some (LeafEntry [] (Some 11)).
Proof.
  split; [vm_compute; reflexivity|].
  do 2 eexists. split; [vm_compute; reflexivity|].
  split; [vm_compute; reflexivity|]. split; vm_compute; reflexivity.
Qed.

(** A created suite that later files do not find as their parent: the first
    create request for "Foo" fails, "Foo" is then created as its own leaf
    with id 10, and the next file, whose parent-suite name is "Foo", finds
    the parent at [None], not at 10. *)
Lemma created_leaf_leaves_parent_absent :
  let run := update_test_suites_from_pytest demo 5 false None false
               [mkTestFile (Some "x Foo") []; mkTestFile (Some "x Foo Bar") []] ∅ in
  let world := start (Sim.mk [] [] 10 [false; false; true]) in
  creations (issued run world) = [("Foo", 10); ("Foo Bar", 11)]
  /\ exists dict inner,
       (run world).1 = Ok dict /\ dict !! "Foo" = Some inner
       /\ inner !! "id" = Some (IdEntry None)
       /\ inner !! "id" <> Some (IdEntry (Some 10)).
Proof.
  split; [vm_compute; reflexivity|].
  do 2 eexists. split; [vm_compute; reflexivity|].
  split; [vm_compute; reflexivity|].
  split; [vm_compute; reflexivity|]. vm_compute. discriminate.
Qed.

(** * Further properties *)

(** ** Config store *)

Module QaseConfigMore.
Import QaseConfig QaseConfigFacts.

Lemma on_run_no_section f doc :
  run_section doc = None -> exists ex, on_run f doc = Raise ex.
Proof.
  unfold run_section, on_run. intros Hnone.
  destruct doc as [| | | | |top]; eauto.
  destruct (top !! "testops") as [[| | | | |testops]|]; eauto.
  destruct (testops !! "run") as [[| | | | |run]|]; eauto. discriminate.
Qed.

Lemma mutate_run_no_section f st :
  run_section (config_obj st) = None -> exists ex, mutate_run f st = (Raise ex, st).
Proof.
  intros Hnone. destruct (on_run_no_section f _ Hnone) as (ex & Hex).
  exists ex. unfold mutate_run. rewrite Hex. reflexivity.
Qed.

(** X1: on a document without a [testops.run] section (a key is missing, or
    a value on the way is no object) the four run operations raise at their
    first statement: the in-memory document and the file on disk stay as
    they were. *)
Theorem run_operations_need_a_run_section (st : store) (i : Z) (t : string) :
  run_section (config_obj st) = None ->
  (exists ex, add_run_id i st = (Raise ex, st))
  /\ (exists ex, add_run_title t st = (Raise ex, st))
  /\ (exists ex, complete_run st = (Raise ex, st))
  /\ (exists ex, dont_complete_run st = (Raise ex, st)).
Proof.
  intros Hnone.
  unfold add_run_id, add_run_title, complete_run, dont_complete_run.
  repeat split; unfold bind at 1;
    match goal with |- context [mutate_run ?f st] =>
      destruct (mutate_run_no_section f st Hnone) as (ex & ->) end;
    exists ex; reflexivity.
Qed.

Lemma run_operations_need_a_run_section_witness :
  add_run_id 7 (init "DEMO" "key" (Some (obj [("mode", JStr "report")])))
  = (Raise (KeyError "testops"), init "DEMO" "key" (Some (obj [("mode", JStr "report")]))).
Proof.
  destruct (run_operations_need_a_run_section
              (init "DEMO" "key" (Some (obj [("mode", JStr "report")]))) 7 "X" eq_refl)
    as [(ex & Hex) _].
  rewrite Hex. f_equal.
  assert (Hrun : add_run_id 7 (init "DEMO" "key" (Some (obj [("mode", JStr "report")])))
                 = (Raise (KeyError "testops"),
                    init "DEMO" "key" (Some (obj [("mode", JStr "report")]))))
    by (vm_compute; reflexivity).
  rewrite Hrun in Hex. congruence.
Defined.

Lemma on_run_compose f g doc run :
  run_section doc = Some run ->
  exists doc1, on_run g doc = Ok doc1
               /\ run_section doc1 = Some (g run)
               /\ on_run f doc1 = on_run (fun r => f (g r)) doc.
Proof.
  unfold run_section, on_run. intros H.
  destruct doc as [| | | | |top]; try discriminate.
  destruct (top !! "testops") as [[| | | | |testops]|] eqn:Ht; try discriminate.
  destruct (testops !! "run") as [[| | | | |r]|] eqn:Hr; try discriminate.
  injection H as <-. eexists. split; [reflexivity|].
  repeat (cbv beta iota; progress rewrite ?lookup_insert_eq).
  cbv beta iota. rewrite !insert_insert_eq. auto.
Qed.

(** A run operation as one change of the run section. *)
Lemma run_steps_fused f1 f2 f3 st run :
  run_section (config_obj st) = Some run ->
  exists doc,
    (mutate_run f1 ;;; mutate_run f2 ;;; mutate_run f3 ;;; write) st
    = (Ok tt, mkStore doc (Some doc))
    /\ on_run (fun r => f3 (f2 (f1 r))) (config_obj st) = Ok doc
    /\ run_section doc = Some (f3 (f2 (f1 run))).
Proof.
  intros Hrun.
  destruct (on_run_compose f2 f1 _ _ Hrun) as (d1 & H1 & Hs1 & H12).
  destruct (on_run_compose f3 f2 _ _ Hs1) as (d2 & H2 & Hs2 & H23).
  destruct (on_run_section f3 _ _ Hs2) as (d3 & H3 & Hs3).
  exists d3. unfold bind, mutate_run, write, modify. cbn [config_obj file].
  rewrite H1. cbn [config_obj file]. rewrite H2. cbn [config_obj file]. rewrite H3.
  split; [reflexivity|]. split; [|exact Hs3].
  destruct (on_run_compose (fun r => f3 (f2 r)) f1 _ _ Hrun) as (d1' & H1' & _ & Hfused).
  rewrite <- Hfused. assert (d1' = d1) by congruence. subst d1'.
  rewrite <- H23. exact H3.
Qed.

Lemma on_run_ext f g doc :
  (forall r, f r = g r) -> on_run f doc = on_run g doc.
Proof.
  intros Hfg. unfold on_run.
  destruct doc as [| | | | |top]; try reflexivity.
  destruct (top !! "testops") as [[| | | | |testops]|]; try reflexivity.
  destruct (testops !! "run") as [[| | | | |r]|]; try reflexivity.
  rewrite Hfg. reflexivity.
Qed.

Ltac run_maps_equal :=
  intros r; apply map_eq; intros k;
  rewrite ?lookup_insert, ?lookup_delete, ?lookup_insert, ?lookup_delete,
          ?lookup_insert, ?lookup_delete, ?lookup_insert;
  repeat case_decide; subst; try congruence; try reflexivity.

(** X2: the last of [add_run_id] / [add_run_title] decides the stored
    document alone: an earlier [add_run_id] or [add_run_title] leaves no
    trace in the document or in the file once a later one has run. *)
Theorem last_run_operation_wins (st : store) (run : gmap string json)
    (i j : Z) (t u : string) :
  run_section (config_obj st) = Some run ->
  (add_run_id j ;;; add_run_title t) st = add_run_title t st
  /\ (add_run_title u ;;; add_run_id i) st = add_run_id i st
  /\ (add_run_id j ;;; add_run_id i) st = add_run_id i st
  /\ (add_run_title u ;;; add_run_title t) st = add_run_title t st.
Proof.
  intros Hrun.
  assert (Hfuse : forall f1 f2 f3 g1 g2 g3,
            (forall r : gmap string json, g3 (g2 (g1 (f3 (f2 (f1 r))))) = g3 (g2 (g1 r))) ->
            ((mutate_run f1 ;;; mutate_run f2 ;;; mutate_run f3 ;;; write) ;;;
             (mutate_run g1 ;;; mutate_run g2 ;;; mutate_run g3 ;;; write)) st
            = (mutate_run g1 ;;; mutate_run g2 ;;; mutate_run g3 ;;; write) st).
  { intros f1 f2 f3 g1 g2 g3 Heq.
    destruct (run_steps_fused f1 f2 f3 st run Hrun) as (d & Hd & Hon & Hsec).
    destruct (run_steps_fused g1 g2 g3 st run Hrun) as (d' & Hd' & Hon' & _).
    destruct (run_steps_fused g1 g2 g3 (mkStore d (Some d)) _ Hsec) as (d'' & Hd'' & Hon'' & _).
    unfold bind at 1. rewrite Hd, Hd'', Hd'. do 2 f_equal; [|f_equal];
      cbn [config_obj] in Hon'';
      destruct (on_run_compose (fun r => g3 (g2 (g1 r))) (fun r => f3 (f2 (f1 r))) _ _ Hrun)
        as (d1 & Hd1 & _ & Hcomp);
      assert (d1 = d) by congruence; subst d1;
      rewrite Hcomp, (on_run_ext _ (fun r => g3 (g2 (g1 r))) _ Heq) in Hon''; congruence. }
  unfold add_run_id, add_run_title.
  repeat split; apply Hfuse; run_maps_equal.
Qed.

Lemma last_run_operation_wins_witness :
  (add_run_id 3 ;;; add_run_title "nightly") (init "DEMO" "key" None)
  = add_run_title "nightly" (init "DEMO" "key" None).
Proof.
  assert (Hsec : run_section (config_obj (init "DEMO" "key" None))
                 = Some {["complete" := JBool false]})
    by (vm_compute; reflexivity).
  destruct (last_run_operation_wins (init "DEMO" "key" None) _ 7 3 "nightly" "X" Hsec)
    as (Hfirst & _).
  exact Hfirst.
Defined.

(** X3: on every store reached from the default document by the store's
    operations, each run operation succeeds, and it leaves the file on disk
    equal to the document in memory, so that a [read] changes nothing. *)
Theorem run_operations_persist (project_code key : string) (st : store) (i : Z) (t : string) :
  reachable project_code key st ->
  forall op, In op [add_run_id i; add_run_title t; complete_run; dont_complete_run] ->
  exists doc, op st = (Ok tt, mkStore doc (Some doc))
              /\ (op ;;; read) st = op st.
Proof.
  intros Hreach op Hop.
  destruct (reachable_run_section _ _ _ Hreach) as [run Hrun].
  assert (Hdone : exists doc, op st = (Ok tt, mkStore doc (Some doc))).
  { destruct Hop as [<-|[<-|[<-|[<-|[]]]]].
    - destruct (add_run_id_spec i st run Hrun) as (d & Hd & _). eauto.
    - destruct (add_run_title_spec t st run Hrun) as (d & Hd & _). eauto.
    - destruct (set_complete_spec true st run Hrun) as (d & Hd & _). eauto.
    - destruct (set_complete_spec false st run Hrun) as (d & Hd & _). eauto. }
  destruct Hdone as (doc & Hdoc). exists doc. split; [exact Hdoc|].
  unfold bind. rewrite Hdoc. reflexivity.
Qed.

Lemma run_operations_persist_witness :
  exists doc, complete_run (init "DEMO" "key" None) = (Ok tt, mkStore doc (Some doc)).
Proof.
  destruct (run_operations_persist "DEMO" "key" (init "DEMO" "key" None) 1 "X"
              (reach_init "DEMO" "key") complete_run
              ltac:(right; right; left; reflexivity)) as (doc & Hdoc & _).
  exists doc. exact Hdoc.
Defined.

End QaseConfigMore.

(** ** Paginated fetch: page size zero, failing pages *)

Section PaginatedFetchMore.
Context {St E : Type}.
Variable func : Z -> Z -> M St (ListResponse E).
Variable tick : St -> St.
Variable db : list E.

Lemma get_all_instances_stuck (P : Z) :
  (forall limit offset s, func limit offset s = (Ok (page db limit offset), tick s)) ->
  P <= 0 -> db <> [] ->
  forall depth o s, o <= 0 ->
    get_all_instances depth func P o s = (Raise RecursionError, Nat.iter (S depth) tick s).
Proof.
  intros Hfunc HP Hdb.
  assert (HN : 0 < Z.of_nat (length db)) by (destruct db; [congruence|simpl; lia]).
  induction depth as [|d IH]; intros o s Ho;
    assert (Hlt : (P + o <? Z.of_nat (length db)) = true) by (apply Z.ltb_lt; lia);
    cbn [get_all_instances]; unfold bind at 1; rewrite Hfunc; cbn [page list_result filtered];
    rewrite Hlt.
  - reflexivity.
  - unfold bind. rewrite (IH (o + P) (tick s)) by lia.
    f_equal. rewrite <- !Nat.iter_succ_r. reflexivity.
Qed.

Lemma get_all_instances_fails_at (P : Z) (ex : exn) (failing : Z) :
  (forall offset s, offset <> failing -> func P offset s = (Ok (page db P offset), tick s)) ->
  (forall s, func P failing s = (Raise ex, tick s)) ->
  1 <= P -> failing < Z.of_nat (length db) ->
  forall n depth o s,
    0 <= o -> o + Z.of_nat n * P = failing -> (n <= depth)%nat ->
    get_all_instances depth func P o s = (Raise ex, Nat.iter (S n) tick s).
Proof.
  intros Hok Hfail HP HF. induction n as [|n IH]; intros depth o s Ho Hat Hd.
  - assert (o = failing) as -> by lia.
    destruct depth; cbn [get_all_instances]; unfold bind; rewrite Hfail; reflexivity.
  - destruct depth as [|d]; [lia|].
    assert (Hlt : (P + o <? Z.of_nat (length db)) = true) by (apply Z.ltb_lt; nia).
    cbn [get_all_instances]. unfold bind at 1. rewrite Hok by nia.
    cbn [page list_result filtered]. rewrite Hlt. unfold bind.
    rewrite (IH d (o + P) (tick s)) by lia.
    f_equal. rewrite <- !Nat.iter_succ_r. reflexivity.
Qed.

End PaginatedFetchMore.

(** X4: with a page size of 0 (or below) and a remote that reports at least
    one entity, [get_all_instances] never completes: the window never covers
    the total, every nested call asks again, and any recursion budget ends
    in [RecursionError] after one request per level. *)
Theorem get_all_instances_page_size_zero {St E : Type}
    (func : Z -> Z -> M St (ListResponse E)) (tick : St -> St) (db : list E)
    (P : Z) (depth : nat) (s : St) :
  (forall limit offset s', func limit offset s' = (Ok (page db limit offset), tick s')) ->
  P <= 0 -> db <> [] ->
  get_all_instances depth func P 0 s = (Raise RecursionError, Nat.iter (S depth) tick s).
Proof.
  intros Hfunc HP Hdb. apply (get_all_instances_stuck func tick db P Hfunc HP Hdb). lia.
Qed.

Lemma get_all_instances_page_size_zero_witness :
  get_all_instances 3 (fun l o (s : nat) => (Ok (page [10; 20] l o), S s)) 0 0 0%nat
  = (Raise RecursionError, 4%nat).
Proof.
  apply (get_all_instances_page_size_zero (St := nat)
           (fun l o s => (Ok (page [10; 20] l o), S s)) S [10; 20] 0 3 0%nat
           (fun _ _ _ => eq_refl)); [lia|discriminate].
Defined.

(** X5: the fetch is all or nothing.  When the request for the page at
    offset k*P raises (an [ApiException], say) while the pages before it are
    served, the whole call raises that exception after k+1 requests; the
    entities of the k pages already fetched are not returned. *)
Theorem get_all_instances_all_or_nothing {St E : Type}
    (func : Z -> Z -> M St (ListResponse E)) (tick : St -> St) (db : list E)
    (P : Z) (ex : exn) (k depth : nat) (s : St) :
  (forall offset s', offset <> Z.of_nat k * P ->
     func P offset s' = (Ok (page db P offset), tick s')) ->
  (forall s', func P (Z.of_nat k * P) s' = (Raise ex, tick s')) ->
  1 <= P -> Z.of_nat k * P < Z.of_nat (length db) -> (k <= depth)%nat ->
  get_all_instances depth func P 0 s = (Raise ex, Nat.iter (S k) tick s).
Proof.
  intros Hok Hfail HP Hreach Hdepth.
  apply (get_all_instances_fails_at func tick db P ex (Z.of_nat k * P) Hok Hfail HP Hreach);
    lia.
Qed.

Lemma get_all_instances_all_or_nothing_witness :
  get_all_instances 5
    (fun l o (s : nat) =>
       if o =? 2 then (Raise (ApiException "gateway timeout"), S s)
       else (Ok (page [10; 20; 30; 40; 50] l o), S s)) 2 0 0%nat
  = (Raise (ApiException "gateway timeout"), 2%nat).
Proof.
  apply (get_all_instances_all_or_nothing (St := nat)
           (fun l o s => if o =? 2 then (Raise (ApiException "gateway timeout"), S s)
                         else (Ok (page [10; 20; 30; 40; 50] l o), S s))
           S [10; 20; 30; 40; 50] 2 (ApiException "gateway timeout") 1 5 0%nat).
  - intros offset s' Hne. change (Z.of_nat 1 * 2) with 2 in Hne.
    destruct (offset =? 2) eqn:E; [apply Z.eqb_eq in E; contradiction|reflexivity].
  - intros s'. reflexivity.
  - lia.
  - simpl. lia.
  - lia.
Defined.

(** ** Search *)

Lemma firstn_plus {A} (a b : nat) (l : list A) :
  firstn (a + b) l = firstn a l ++ firstn b (skipn a l).
Proof.
  revert l. induction a as [|a IH]; intros l; [reflexivity|].
  destruct l as [|x l]; simpl.
  - rewrite firstn_nil. reflexivity.
  - rewrite IH. reflexivity.
Qed.

Section Search.
Context {St W A : Type}.
Variable actual_instance : W -> A.
Variable func : Z -> Z -> M St (SearchResponse W).
Variable tick : St -> St.
Variable db : list W.

Hypothesis func_pages :
  forall limit offset s, func limit offset s = (Ok (search_page db limit offset), tick s).

Lemma qase_search_query_from (P : Z) (HP : 1 <= P) :
  forall (n depth : nat) (o : Z) (s : St),
    0 <= o ->
    (n <= depth)%nat ->
    Z.of_nat (length db) - o <= (Z.of_nat n + 1) * P ->
    (Z.of_nat n * P < Z.of_nat (length db) - o \/ n = O) ->
    qase_search_query actual_instance depth func P o s =
      (Ok (map inl (firstn (n * Z.to_nat P) (skipn (Z.to_nat o) db))
           ++ map (fun i => inr (actual_instance i))
                  (skipn (n * Z.to_nat P) (skipn (Z.to_nat o) db))),
       Nat.iter (S n) tick s).
Proof.
  induction n as [|n IH]; intros depth o s Ho Hd Hup Hlow.
  - assert (Hlt : (P + o <? Z.of_nat (length db)) = false) by (apply Z.ltb_ge; lia).
    assert (Hall : firstn (Z.to_nat P) (skipn (Z.to_nat o) db) = skipn (Z.to_nat o) db).
    { apply firstn_all2. rewrite length_skipn. lia. }
    destruct depth; cbn [qase_search_query]; unfold bind; rewrite func_pages;
      cbn [search_page search_result total search_entities];
      rewrite Hlt; unfold ret; rewrite Hall; reflexivity.
  - destruct Hlow as [Hlow|]; [|discriminate].
    destruct depth as [|d]; [lia|].
    assert (Hlt : (P + o <? Z.of_nat (length db)) = true) by (apply Z.ltb_lt; lia).
    cbn [qase_search_query]. unfold bind at 1. rewrite func_pages.
    cbn [search_page search_result total search_entities]. rewrite Hlt.
    unfold bind. rewrite (IH d (o + P) (tick s)) by lia.
    unfold ret. f_equal.
    + f_equal.
      replace (Z.to_nat (o + P)) with (Z.to_nat P + Z.to_nat o)%nat by lia.
      rewrite <- !skipn_skipn.
      replace (S n * Z.to_nat P)%nat with (Z.to_nat P + n * Z.to_nat P)%nat by lia.
      rewrite firstn_plus, map_app, <- app_assoc. do 2 f_equal.
      rewrite (Nat.add_comm (Z.to_nat P)), <- skipn_skipn. reflexivity.
    + simpl. rewrite <- !Nat.iter_succ_r. reflexivity.
Qed.

End Search.

(** X6: over a search operation that serves N entities page by page,
    [qase_search_query] with page size P >= 1 returns the entities of every
    page but the last as the API delivered them, and only the entities of
    the last page as their [actual_instance]: the first (requests-1)*P
    entries are wrapped, the rest unwrapped.  Only when one page holds
    everything (N <= P) is the whole result unwrapped. *)
Theorem qase_search_query_unwraps_last_page_only {St W A : Type}
    (actual_instance : W -> A) (func : Z -> Z -> M St (SearchResponse W))
    (tick : St -> St) (db : list W) (P : Z) (depth : nat) (s : St) :
  (forall limit offset s', func limit offset s' = (Ok (search_page db limit offset), tick s')) ->
  1 <= P ->
  (requests_needed (Z.of_nat (length db)) P <= S depth)%nat ->
  let wrapped := ((requests_needed (Z.of_nat (length db)) P - 1) * Z.to_nat P)%nat in
  qase_search_query actual_instance depth func P 0 s =
    (Ok (map inl (firstn wrapped db)
         ++ map (fun i => inr (actual_instance i)) (skipn wrapped db)),
     Nat.iter (requests_needed (Z.of_nat (length db)) P) tick s)
  /\ (Z.of_nat (length db) <= P -> wrapped = 0%nat)
  /\ (P < Z.of_nat (length db) -> (Z.to_nat P <= wrapped)%nat).
Proof.
  intros Hfunc HP Hdepth wrapped.
  set (N := Z.of_nat (length db)) in *.
  destruct (ceil_div_bounds N P HP ltac:(lia)) as [Hup Hlow].
  assert (Hreq : exists n, requests_needed N P = S n
                           /\ N <= (Z.of_nat n + 1) * P
                           /\ (Z.of_nat n * P < N \/ n = O)).
  { unfold requests_needed.
    exists (Z.to_nat (Z.max 1 (ceil_div N P)) - 1)%nat.
    split; [lia|].
    destruct (Z.max_spec 1 (ceil_div N P)) as [[Hc Hm]|[Hc Hm]]; rewrite Hm.
    - split; [|left]; replace (Z.of_nat (Z.to_nat (ceil_div N P) - 1)) with (ceil_div N P - 1) by lia; lia.
    - simpl. split; [|right; reflexivity]. nia. }
  destruct Hreq as (n & Hn & Hnup & Hnlow).
  assert (Hw : wrapped = (n * Z.to_nat P)%nat) by (unfold wrapped; rewrite Hn; f_equal; lia).
  split; [|split].
  - rewrite Hn, Hw.
    rewrite (qase_search_query_from actual_instance func tick db Hfunc P HP n depth 0 s); try lia.
    reflexivity.
  - intros Hone. rewrite Hw. destruct Hnlow as [Hnlow| ->]; [|reflexivity].
    assert (n = 0%nat) by nia. subst n. reflexivity.
  - intros Hmany. rewrite Hw. destruct Hnlow as [Hnlow| ->]; [|lia].
    assert (1 <= n)%nat by nia. nia.
Qed.

Lemma qase_search_query_unwraps_last_page_only_witness :
  qase_search_query (fun w : Z => Z.to_nat w) 2
    (fun l o (s : nat) => (Ok (search_page [10; 20; 30; 40; 50] l o), S s)) 2 0 0%nat
  = (Ok [inl 10; inl 20; inl 30; inl 40; inr 50%nat], 3%nat).
Proof.
  pose proof (qase_search_query_unwraps_last_page_only (St := nat)
                (fun w : Z => Z.to_nat w)
                (fun l o s => (Ok (search_page [10; 20; 30; 40; 50] l o), S s)) S
                [10; 20; 30; 40; 50] 2 2 0%nat
                (fun _ _ _ => eq_refl) ltac:(lia) ltac:(vm_compute; lia)) as [H _].
  exact H.
Defined.

(** ** Case field editor: what Remove does to the parameter map *)

Section RemoveFacts.

Lemma list_remove_sublist x xs : Py.list_remove x xs `sublist_of` xs.
Proof.
  induction xs as [|y rest IH]; simpl; [constructor|].
  destruct (String.eqb x y); [apply sublist_cons; reflexivity|apply sublist_skip, IH].
Qed.

Lemma list_remove_keeps x y xs : y ∈ xs -> y <> x -> y ∈ Py.list_remove x xs.
Proof.
  induction xs as [|z rest IH]; simpl; intros Hin Hne; [exact Hin|].
  apply elem_of_cons in Hin as [->|Hin].
  - destruct (String.eqb x z) eqn:E; [apply String.eqb_eq in E; congruence|].
    apply elem_of_cons. left. reflexivity.
  - destruct (String.eqb x z); [exact Hin|]. apply elem_of_cons. right. auto.
Qed.

Lemma after_removal_other key value values params k :
  k <> key -> after_removal key value values params !! k = params !! k.
Proof.
  intros Hne. unfold after_removal. destruct (Py.list_remove value values);
    rewrite ?lookup_delete_ne, ?lookup_insert_ne by done; reflexivity.
Qed.

Lemma after_removal_key key value values params :
  default [] (after_removal key value values params !! key) = Py.list_remove value values.
Proof.
  unfold after_removal. destruct (Py.list_remove value values) eqn:E;
    rewrite ?lookup_delete_eq, ?lookup_insert_eq; reflexivity.
Qed.

Lemma after_removal_no_empty key value values params :
  no_empty_list params -> no_empty_list (after_removal key value values params).
Proof.
  intros Hinv k l Hk. destruct (decide (k = key)) as [->|Hne].
  - unfold after_removal in Hk. destruct (Py.list_remove value values) eqn:E.
    + rewrite lookup_delete_eq in Hk. discriminate.
    + rewrite lookup_insert_eq in Hk. injection Hk as <-. discriminate.
  - rewrite after_removal_other in Hk by done. eapply Hinv, Hk.
Qed.

Lemma remove_values_step key value rest values (params : gmap string (list string)) found :
  params !! key = Some values ->
  remove_values key (value :: rest) params found
  = if bool_decide (value ∈ values)
    then remove_values key rest (after_removal key value values params) true
    else remove_values key rest params found.
Proof.
  intros Hk. cbn [remove_values]. rewrite Hk. unfold after_removal.
  destruct (bool_decide (value ∈ values)); [|reflexivity].
  destruct (Py.list_remove value values); reflexivity.
Qed.

Lemma remove_values_effect key unwanted_values :
  forall params found params' found',
    remove_values key unwanted_values params found = Ok (params', found') ->
    (forall k, k <> key -> params' !! k = params !! k)
    /\ default [] (params' !! key) `sublist_of` default [] (params !! key)
    /\ (forall v, v ∈ default [] (params !! key) -> v ∉ unwanted_values ->
                  v ∈ default [] (params' !! key))
    /\ (no_empty_list params -> no_empty_list params').
Proof.
  induction unwanted_values as [|value rest IH]; intros params found params' found' Hrun.
  - injection Hrun as <- <-. repeat split; auto.
  - destruct (params !! key) as [values|] eqn:Hk; [|simpl in Hrun; rewrite Hk in Hrun; discriminate].
    rewrite (remove_values_step _ _ _ _ _ _ Hk) in Hrun.
    destruct (bool_decide (value ∈ values)) eqn:Hin.
    + apply IH in Hrun as (Hframe & Hsub & Hkeep & Hinv).
      rewrite after_removal_key in Hsub, Hkeep.
      split; [|split; [|split]].
      * intros k Hne. rewrite Hframe by done. apply after_removal_other, Hne.
      * etransitivity; [exact Hsub|]. simpl. apply list_remove_sublist.
      * intros v Hv Hnot. apply Hkeep.
        -- apply list_remove_keeps; [exact Hv|]. intros ->. apply Hnot, elem_of_cons. auto.
        -- intros Hrest. apply Hnot, elem_of_cons. auto.
      * intros Hne. apply Hinv, after_removal_no_empty, Hne.
    + apply IH in Hrun as (Hframe & Hsub & Hkeep & Hinv). rewrite Hk in Hsub, Hkeep.
      split; [exact Hframe|]. split; [exact Hsub|]. split; [|exact Hinv].
      intros v Hv Hnot. apply Hkeep; [exact Hv|].
      intros Hrest. apply Hnot, elem_of_cons. auto.
Qed.

(** X7: when the Remove loops complete, the parameter map has only lost
    values: a key that is not listed is untouched; under every key the
    remaining list is a sub-list of the old one (order kept); a value that no
    entry of [unwanted_params] lists under its key is still there; and if no
    key held an empty list before, none does afterwards (a key whose list
    runs empty is gone). *)
Theorem remove_unwanted_only_removes_listed (unwanted_params : list (string * list string)) :
  forall (params : gmap string (list string)) found params' found',
    remove_unwanted unwanted_params params found = Ok (params', found') ->
    (forall k, k ∉ unwanted_params.*1 -> params' !! k = params !! k)
    /\ (forall k, default [] (params' !! k) `sublist_of` default [] (params !! k))
    /\ (forall k v, v ∈ default [] (params !! k) ->
                    (forall vs, (k, vs) ∈ unwanted_params -> v ∉ vs) ->
                    v ∈ default [] (params' !! k))
    /\ (no_empty_list params -> no_empty_list params').
Proof.
  induction unwanted_params as [|[key values] rest IH]; intros params found params' found' Hrun.
  - injection Hrun as <- <-. repeat split; auto.
  - cbn [remove_unwanted] in Hrun.
    assert (Hstep : exists mid found1,
              (forall k, k <> key -> mid !! k = params !! k)
              /\ default [] (mid !! key) `sublist_of` default [] (params !! key)
              /\ (forall v, v ∈ default [] (params !! key) -> v ∉ values ->
                            v ∈ default [] (mid !! key))
              /\ (no_empty_list params -> no_empty_list mid)
              /\ remove_unwanted rest mid found1 = Ok (params', found')).
    { destruct (params !! key) as [existing|] eqn:Hk.
      - destruct (remove_values key values params found) as [[mid found1]|ex] eqn:Hvalues;
          [|discriminate].
        exists mid, found1. apply remove_values_effect in Hvalues as (H1 & H2 & H3 & H4).
        rewrite Hk in H2, H3. auto 6.
      - exists params, found. rewrite Hk. split; [auto|]. split; [reflexivity|]. auto. }
    destruct Hstep as (mid & found1 & Hframe & Hsub & Hkeep & Hinv & Hrest).
    apply IH in Hrest as (Hframe' & Hsub' & Hkeep' & Hinv').
    split; [|split; [|split]].
    + intros k Hk. cbn in Hk. rewrite not_elem_of_cons in Hk. destruct Hk as [Hne Hk].
      rewrite Hframe' by exact Hk. apply Hframe, Hne.
    + intros k. etransitivity; [apply Hsub'|].
      destruct (decide (k = key)) as [->|Hne]; [exact Hsub|rewrite Hframe by done; reflexivity].
    + intros k v Hv Hnot. apply Hkeep'.
      * destruct (decide (k = key)) as [->|Hne].
        -- apply Hkeep; [exact Hv|]. apply Hnot, elem_of_cons. auto.
        -- rewrite Hframe by done. exact Hv.
      * intros vs Hin. apply Hnot, elem_of_cons. auto.
    + auto.
Qed.

Lemma remove_unwanted_only_removes_listed_witness :
  exists params',
    remove_unwanted [("os", ["win"])] (list_to_map [("os", ["win"; "mac"]); ("browser", ["chrome"])])
                    false
    = Ok (params', true)
    /\ params' !! "browser" = Some ["chrome"]
    /\ "mac" ∈ default [] (params' !! "os").
Proof.
  pose (params := list_to_map [("os", ["win"; "mac"]); ("browser", ["chrome"])]
                  : gmap string (list string)).
  pose (params' := list_to_map [("os", ["mac"]); ("browser", ["chrome"])]
                   : gmap string (list string)).
  assert (Hrun : remove_unwanted [("os", ["win"])] params false = Ok (params', true))
    by (vm_compute; reflexivity).
  destruct (remove_unwanted_only_removes_listed _ _ _ _ _ Hrun) as (Hframe & _ & Hkeep & _).
  exists params'. split; [exact Hrun|]. split.
  - rewrite Hframe; [reflexivity|].
    cbn. intros Hin. apply elem_of_cons in Hin as [Hin|Hin]; [discriminate|].
    by apply elem_of_nil in Hin.
  - apply Hkeep.
    + change (default [] (params !! "os")) with ["win"; "mac"].
      apply elem_of_cons. right. apply elem_of_cons. left. reflexivity.
    + intros vs Hin. apply list_elem_of_singleton in Hin. injection Hin as ->.
      intros Hmac. apply list_elem_of_singleton in Hmac. discriminate.
Defined.

Lemma remove_unwanted_found_grows unwanted_params :
  forall (params : gmap string (list string)) params' found',
    remove_unwanted unwanted_params params true = Ok (params', found') -> found' = true.
Proof.
  induction unwanted_params as [|[key values] rest IH]; intros params params' found' Hrun.
  - injection Hrun as _ <-. reflexivity.
  - cbn [remove_unwanted] in Hrun. destruct (params !! key); [|eauto].
    destruct (remove_values key values params true) as [[mid found1]|ex] eqn:Hvalues;
      [|discriminate].
    rewrite (remove_values_found _ _ _ _ _ _ Hvalues eq_refl) in Hrun. eauto.
Qed.

Lemma remove_values_match key unwanted_values :
  forall (params : gmap string (list string)) values found params' found',
    params !! key = Some values ->
    existsb (fun v => bool_decide (v ∈ values)) unwanted_values = true ->
    remove_values key unwanted_values params found = Ok (params', found') ->
    found' = true.
Proof.
  induction unwanted_values as [|value rest IH];
    intros params values found params' found' Hk Hex Hrun; [discriminate|].
  rewrite (remove_values_step _ _ _ _ _ _ Hk) in Hrun. cbn [existsb] in Hex.
  destruct (bool_decide (value ∈ values)).
  - eapply remove_values_found; [exact Hrun|reflexivity].
  - eapply IH; eauto.
Qed.

(** X8: when the Remove loops complete, their flag tells exactly whether a
    listed (key, value) pair occurred in the map they were given; so a case
    is written by [qase_remove_unwanted_params_from_cases] if and only if
    something was there to remove. *)
Theorem remove_unwanted_flag_is_exact (unwanted_params : list (string * list string)) :
  forall (params : gmap string (list string)) params' found',
    remove_unwanted unwanted_params params false = Ok (params', found') ->
    found' = unwanted_occurs unwanted_params params.
Proof.
  assert (Hgen : forall u (params : gmap string (list string)) found params' found',
            unwanted_occurs u params = true ->
            remove_unwanted u params found = Ok (params', found') -> found' = true).
  { induction u as [|[key values] rest IH]; intros params found params' found' Hocc Hrun;
      [discriminate|].
    cbn [remove_unwanted] in Hrun. unfold unwanted_occurs in Hocc. cbn [existsb fst snd] in Hocc.
    destruct (params !! key) as [existing|] eqn:Hk.
    - destruct (existsb (fun v => bool_decide (v ∈ existing)) values) eqn:Hhere.
      + destruct (remove_values key values params found) as [[mid found1]|ex] eqn:Hvalues;
          [|discriminate].
        rewrite (remove_values_match _ _ _ _ _ _ _ Hk Hhere Hvalues) in Hrun.
        eapply remove_unwanted_found_grows, Hrun.
      + rewrite (remove_values_no_match _ _ _ _ found Hk Hhere) in Hrun.
        eapply IH; [exact Hocc|exact Hrun].
    - eapply IH; [exact Hocc|exact Hrun]. }
  intros params params' found' Hrun.
  destruct (unwanted_occurs unwanted_params params) eqn:Hocc.
  - eapply Hgen; eassumption.
  - rewrite (remove_unwanted_no_match _ _ false Hocc) in Hrun. congruence.
Qed.

Lemma remove_unwanted_flag_is_exact_witness :
  unwanted_occurs [("os", ["win"])] (list_to_map [("os", ["mac"])]) = false.
Proof.
  symmetry.
  apply (remove_unwanted_flag_is_exact [("os", ["win"])] (list_to_map [("os", ["mac"])])
           (list_to_map [("os", ["mac"])]) false).
  vm_compute. reflexivity.
Defined.

(** X9: the Remove loops cannot fail when every entry of [unwanted_params]
    lists at most one value: the key that a removal deletes is never read
    again. *)
Theorem remove_unwanted_single_values_succeed (unwanted_params : list (string * list string)) :
  Forall (fun item : string * list string => (length item.2 <= 1)%nat) unwanted_params ->
  forall (params : gmap string (list string)) found,
    exists params' found', remove_unwanted unwanted_params params found = Ok (params', found').
Proof.
  induction 1 as [|[key values] rest Hlen _ IH]; intros params found.
  - eexists _, _. reflexivity.
  - cbn [remove_unwanted]. destruct (params !! key) as [existing|] eqn:Hk; [|apply IH].
    destruct values as [|value [|second more]]; [apply IH| |simpl in Hlen; lia].
    rewrite (remove_values_step _ _ _ _ _ _ Hk).
    destruct (bool_decide (value ∈ existing)); apply IH.
Qed.

Lemma remove_unwanted_single_values_succeed_witness :
  exists params' found',
    remove_unwanted [("os", ["win"]); ("browser", [])] (list_to_map [("os", ["win"])]) false
    = Ok (params', found').
Proof.
  apply remove_unwanted_single_values_succeed.
  repeat constructor.
Defined.

End RemoveFacts.

(** ** What the operations add to the history *)

Section Emits.
Context {R : Type}.
Implicit Types P : request * outcome response -> Prop.

Lemma emits_ret P {A} (a : A) : emits (R := R) P (ret a).
Proof. intros e. exists []. rewrite app_nil_r. auto. Qed.

Lemma emits_raise P {A} ex : emits (R := R) (A := A) P (raise ex).
Proof. intros e. exists []. rewrite app_nil_r. auto. Qed.

Lemma emits_lift_result P {A} (r : result A) : emits (R := R) P (lift_result r).
Proof. intros e. exists []. rewrite app_nil_r. auto. Qed.

Lemma emits_logger P lvl msg args : emits (R := R) P (logger lvl msg args).
Proof. intros e. exists []. rewrite app_nil_r. auto. Qed.

Lemma emits_bind P {A B} (m : M (env R) A) (k : A -> M (env R) B) :
  emits P m -> (forall a, emits P (k a)) -> emits P (bind m k).
Proof.
  intros Hm Hk e. unfold bind. destruct (Hm e) as (new & Htr & Hnew).
  destruct (m e) as [[a|ex] e1]; [|exists new; auto].
  destruct (Hk a e1) as (new' & Htr' & Hnew'). exists (new ++ new'). split.
  - rewrite Htr'. simpl in Htr. rewrite Htr, app_assoc. reflexivity.
  - apply Forall_app. auto.
Qed.

Lemma emits_try P {A} (body : M (env R) A) handler :
  emits P body -> (forall reason, emits P (handler reason)) ->
  emits P (try_except_ApiException body handler).
Proof.
  intros Hm Hk e. unfold try_except_ApiException. destruct (Hm e) as (new & Htr & Hnew).
  destruct (body e) as [[a|ex] e1]; [exists new; auto|].
  destruct ex as [reason| | | | | | | |]; try solve [exists new; auto].
  destruct (Hk reason e1) as (new' & Htr' & Hnew'). exists (new ++ new'). split.
  - rewrite Htr'. simpl in Htr. rewrite Htr, app_assoc. reflexivity.
  - apply Forall_app. auto.
Qed.

Lemma emits_call P {A} rq (inj : A -> response) (f : R -> outcome A * R) :
  (forall o, P (rq, o)) -> emits P (call rq inj f).
Proof.
  intros Hrq e. unfold call. destruct (f (remote e)) as [[a|reason|name] r'];
    eexists [_]; (split; [reflexivity|]); repeat constructor; apply Hrq.
Qed.

Lemma emits_for_each P {A} (body : A -> M (env R) unit) xs :
  (forall x, emits P (body x)) -> emits P (for_each xs body).
Proof.
  intros Hbody. induction xs as [|x rest IH]; cbn [for_each].
  - apply emits_ret.
  - apply emits_bind; auto.
Qed.

Lemma emits_fold_m P {A S} (body : A -> S -> M (env R) S) xs :
  (forall x s, emits P (body x s)) -> forall s, emits P (fold_m xs body s).
Proof.
  intros Hbody. induction xs as [|x rest IH]; intros s; cbn [fold_m].
  - apply emits_ret.
  - apply emits_bind; auto.
Qed.

Lemma emits_get_all_instances P {E} (func : Z -> Z -> M (env R) (ListResponse E)) :
  (forall limit offset, emits P (func limit offset)) ->
  forall depth limit offset, emits P (get_all_instances depth func limit offset).
Proof.
  intros Hfunc. induction depth as [|d IH]; intros limit offset; cbn [get_all_instances];
    (apply emits_bind; [apply Hfunc|]); intros res;
    destruct (list_result res) as [r|]; try apply emits_raise;
    destruct (limit + offset <? filtered r); try apply emits_ret; try apply emits_raise.
  apply emits_bind; [apply IH|]. intros rest. apply emits_ret.
Qed.

End Emits.

Ltac emits_step :=
  first
    [ apply emits_ret
    | apply emits_raise
    | apply emits_logger
    | apply emits_lift_result
    | apply emits_try
    | apply emits_bind
    | apply emits_for_each
    | apply emits_fold_m ].

Section Footprints.
Context {R : Type} `{RemoteApi R}.
Variable self : QaseIO.

Lemma emits_get_test_case P case_id :
  (forall o, P (GetCase (project_code self) case_id, o)) ->
  emits P (get_test_case self case_id).
Proof.
  intros HP. unfold get_test_case. destruct (case_id =? 0); [apply emits_raise|].
  apply emits_try; [|intros; apply emits_bind; intros; emits_step].
  apply emits_bind; [apply emits_call, HP|intros; apply emits_ret].
Qed.

Lemma emits_update_a_test_case P case_id upd :
  (forall o, P (UpdateCase (project_code self) case_id upd, o)) ->
  emits P (update_a_test_case self case_id upd).
Proof.
  intros HP. unfold update_a_test_case.
  apply emits_try; [|intros; apply emits_bind; intros; emits_step].
  apply emits_bind; [apply emits_call, HP|intros; apply emits_ret].
Qed.

Lemma emits_create_qase_suite P suite_name parent_id :
  (forall payload o, P (CreateSuite (project_code self) payload, o)) ->
  emits P (create_qase_suite self suite_name parent_id).
Proof.
  intros HP. unfold create_qase_suite.
  apply emits_try; [|intros; apply emits_bind; intros; emits_step].
  apply emits_bind; [apply emits_call, HP|intros; apply emits_ret].
Qed.

Lemma emits_get_suites P depth :
  (forall limit offset o, P (GetSuites (project_code self) limit offset, o)) ->
  emits P (get_suites self depth).
Proof.
  intros HP. unfold get_suites. apply emits_get_all_instances.
  intros limit offset. apply emits_call, HP.
Qed.

Lemma emits_get_cases P depth :
  (forall limit offset o, P (GetCases (project_code self) limit offset, o)) ->
  emits P (get_cases self depth).
Proof.
  intros HP. unfold get_cases. apply emits_get_all_instances.
  intros limit offset. apply emits_call, HP.
Qed.

Lemma editor_fetch ok case_id o :
  editor_request ok (GetCase (project_code self) case_id, o).
Proof. exact I. Qed.

Lemma editor_write (ok : gmap string (list string) -> Prop) case_id params o :
  ok params -> editor_request ok (UpdateCase (project_code self) case_id (params_update params), o).
Proof. intros Hok. split; [reflexivity|]. exists params. auto. Qed.

Lemma emits_write ok case_id params :
  ok params ->
  emits (R := R) (editor_request ok)
        (update_a_test_case self case_id (params_update params) ;;; ret tt).
Proof.
  intros Hok. apply emits_bind; [|intros; apply emits_ret].
  apply emits_update_a_test_case. intros o. apply editor_write, Hok.
Qed.

(** X10: the operations of the case field editor only fetch cases and
    write parameter maps.  Whatever the remote answers, every request that
    Remove, Add, Replace, Copy and Clear-all add to the history is a
    get-case or an update-case that carries a parameter map and no suite
    id; the maps that Clear-all writes are empty. *)
Theorem editor_requests_are_fetches_and_param_writes `{Py.SetOrder}
    (cases : list Z) (unwanted_params wanted_params : list (string * list string))
    (case_to_copy : Z) :
  emits (editor_request any_params)
        (qase_remove_unwanted_params_from_cases self cases unwanted_params)
  /\ emits (editor_request any_params) (qase_add_params_to_cases self cases wanted_params)
  /\ emits (editor_request any_params)
           (replace_params_in_cases self cases unwanted_params wanted_params)
  /\ emits (editor_request any_params) (qase_copy_params self case_to_copy cases)
  /\ emits (editor_request (fun params => params = ∅))
           (qase_remove_all_params_from_cases self cases).
Proof.
  assert (Hfetch : forall ok c, emits (editor_request ok) (get_test_case self c))
    by (intros ok c; apply emits_get_test_case; intros o; apply editor_fetch).
  split; [|split; [|split; [|split]]].
  - apply emits_for_each. intros c. unfold qase_remove_unwanted_params_from_case.
    apply emits_bind; [apply Hfetch|]. intros [origin|]; [|apply emits_ret].
    apply emits_bind; [apply emits_lift_result|]. intros [params found].
    destruct found; [|apply emits_ret].
    apply emits_bind; [apply emits_logger|]. intros _. apply emits_write. exact I.
  - apply emits_for_each. intros c. unfold qase_add_params_to_case.
    apply emits_bind; [apply Hfetch|]. intros [origin|]; [|apply emits_ret].
    apply emits_bind; [apply emits_logger|]. intros _. apply emits_write. exact I.
  - apply emits_for_each. intros c. unfold replace_params_in_case.
    apply emits_bind; [apply Hfetch|]. intros [origin|]; [|apply emits_ret].
    apply emits_bind; [apply emits_lift_result|]. intros [params found].
    destruct found; [|apply emits_ret].
    apply emits_bind; [apply emits_logger|]. intros _.
    apply emits_bind; [apply emits_logger|]. intros _. apply emits_write. exact I.
  - unfold qase_copy_params.
    apply emits_bind; [apply Hfetch|]. intros [origin|]; [|apply emits_raise].
    apply emits_bind; [apply emits_logger|]. intros _.
    apply emits_for_each. intros c. apply emits_write. exact I.
  - apply emits_for_each. intros c. unfold qase_remove_all_params_from_case.
    apply emits_bind; [apply Hfetch|]. intros [origin|]; [|apply emits_ret].
    destruct (bool_decide (TestCase.params origin = ∅)); [apply emits_ret|].
    apply emits_bind; [apply emits_logger|]. intros _. apply emits_write. reflexivity.
Qed.

End Footprints.

(** ** Batches of the case field editor *)

Lemma for_each_app {St A} (xs ys : list A) (body : A -> M St unit) (s : St) :
  for_each (xs ++ ys) body s
  = match for_each xs body s with
    | (Ok _, s1) => for_each ys body s1
    | (Raise ex, s1) => (Raise ex, s1)
    end.
Proof.
  revert s. induction xs as [|x rest IH]; intros s; [reflexivity|].
  cbn [app for_each]. unfold bind. destruct (body x s) as [[[]|ex] s1]; [apply IH|reflexivity].
Qed.

Lemma for_each_stops {St A} (body : A -> M St unit) before x after ex (s : St) :
  (for_each before body s).1 = Ok tt ->
  body x (for_each before body s).2 = (Raise ex, (for_each before body s).2) ->
  for_each (before ++ x :: after) body s = (Raise ex, (for_each before body s).2).
Proof.
  intros Hbefore Hx. rewrite for_each_app.
  destruct (for_each before body s) as [[[]|ex'] s1]; [|discriminate].
  cbn [for_each]. unfold bind. simpl in Hx. rewrite Hx. reflexivity.
Qed.

Section Batches.
Context {R : Type} `{RemoteApi R}.
Variable self : QaseIO.

Lemma fetched_ids_app evs new : fetched_ids (evs ++ new) = fetched_ids evs ++ fetched_ids new.
Proof. apply omap_app. Qed.

Lemma crash_is_seen {A} (evs : list (request * outcome response)) (r : result A) :
  stopped_by_crash evs r -> Forall (fun ev => crashed ev = false) evs -> False.
Proof.
  intros (pre & rq & name & -> & _) Hall. apply Forall_app in Hall as [_ Hlast].
  apply Forall_cons in Hlast as [Hlast _]. discriminate.
Qed.

Lemma stopped_later {A} (evs new : list (request * outcome response)) (r : result A) :
  stopped_by_crash new r -> stopped_by_crash (evs ++ new) r.
Proof.
  intros (pre & rq & name & -> & ->). exists (evs ++ pre), rq, name.
  rewrite <- app_assoc. auto.
Qed.

(** A fetch is one request: it gives the case, [None] after an
    [ApiException], and lets a crash of the client pass. *)
Lemma get_test_case_outcome case_id (e : env R) :
  case_id <> 0 ->
  exists o e1,
    get_test_case self case_id e
    = (match o with
       | Success origin => Ok (Some origin)
       | Failure _ => Ok None
       | Crash name => Raise (ClientError name)
       end, e1)
    /\ (CasesApi_get_case (project_code self) case_id (remote e)).1 = o
    /\ trace e1 = trace e ++ [(GetCase (project_code self) case_id, outcome_map CaseResponse o)].
Proof.
  intros Hid. unfold get_test_case. apply Z.eqb_neq in Hid. rewrite Hid.
  unfold try_except_ApiException, bind, call, ret, logger, modify.
  destruct (CasesApi_get_case (project_code self) case_id (remote e))
    as [[origin|reason|name] r'];
    [exists (Success origin)|exists (Failure reason)|exists (Crash name)];
    eexists; (split; [reflexivity|]); split; reflexivity.
Qed.

(** A write is one request, and only a crash of the client stops it. *)
Lemma write_outcome case_id params (e : env R) r e' :
  (update_a_test_case self case_id (params_update params) ;;; ret tt) e = (r, e') ->
  exists o,
    trace e' = trace e ++ [(UpdateCase (project_code self) case_id (params_update params), o)]
    /\ match o with
       | Crash name => r = Raise (ClientError name)
       | _ => r = Ok tt
       end.
Proof.
  unfold bind. destruct (update_a_test_case_trace self case_id (params_update params) e)
    as (r0 & o & e0 & -> & Htr & Hres).
  intros Hrun. exists o. destruct o as [b|reason|name].
  - destruct Hres as (b' & ->). injection Hrun as <- <-. auto.
  - destruct Hres as (b' & ->). injection Hrun as <- <-. auto.
  - subst r0. injection Hrun as <- <-. auto.
Qed.

(** What a fetch followed by one write leaves in the history. *)
Lemma fetch_then_write case_id params o (e e1 e2 : env R) logs r :
  trace e1 = trace e ++ [(GetCase (project_code self) case_id, outcome_map CaseResponse o)] ->
  (update_a_test_case self case_id (params_update params) ;;; ret tt)
    (mkEnv (remote e1) (trace e1) logs) = (r, e2) ->
  exists new,
    trace e2 = trace e ++ new
    /\ ((r = Ok tt /\ fetched_ids new = [case_id]) \/ stopped_by_crash new r).
Proof.
  intros Htr Hwrite. destruct (write_outcome _ _ _ _ _ Hwrite) as (o2 & Htr2 & Hres).
  cbn [trace] in Htr2. eexists. split; [rewrite Htr2, Htr, <- app_assoc; reflexivity|].
  destruct o2 as [b|reason|name].
  - left. split; [exact Hres|reflexivity].
  - left. split; [exact Hres|reflexivity].
  - right. eexists [_], _, name. split; [reflexivity|exact Hres].
Qed.

Lemma fetch_only case_id o (e e1 : env R) :
  trace e1 = trace e ++ [(GetCase (project_code self) case_id, outcome_map CaseResponse o)] ->
  exists new, trace e1 = trace e ++ new /\ fetched_ids new = [case_id].
Proof. intros Htr. eexists. split; [exact Htr|reflexivity]. Qed.

Lemma fetch_crashed case_id name (e e1 : env R) :
  trace e1 = trace e ++ [(GetCase (project_code self) case_id, Crash name)] ->
  exists new,
    trace e1 = trace e ++ new
    /\ stopped_by_crash new (Raise (ClientError name) : result unit).
Proof.
  intros Htr. eexists. split; [exact Htr|]. exists [], (GetCase (project_code self) case_id), name.
  auto.
Qed.

(** One round of Clear-all goes through its case unless the client crashes. *)
Lemma clear_round case (e : env R) r e' :
  case <> 0 ->
  qase_remove_all_params_from_case self case e = (r, e') ->
  exists new,
    trace e' = trace e ++ new
    /\ ((r = Ok tt /\ fetched_ids new = [case]) \/ stopped_by_crash new r).
Proof.
  intros Hc. unfold qase_remove_all_params_from_case, bind at 1.
  destruct (get_test_case_outcome case e Hc) as (o & e1 & -> & _ & Htr).
  destruct o as [origin|reason|name].
  - destruct (bool_decide (TestCase.params origin = ∅)).
    + intros [= <- <-]. destruct (fetch_only _ _ _ _ Htr) as (new & Hnew & Hids). eauto.
    + unfold bind at 1. rewrite logger_run. intros Hwrite.
      eapply fetch_then_write; [exact Htr|exact Hwrite].
  - intros [= <- <-]. destruct (fetch_only _ _ _ _ Htr) as (new & Hnew & Hids). eauto.
  - intros [= <- <-]. destruct (fetch_crashed _ _ _ _ Htr) as (new & Hnew & Hstop). eauto.
Qed.

(** One round of Add goes through its case unless the client crashes. *)
Lemma add_round `{Py.SetOrder} params case (e : env R) r e' :
  case <> 0 ->
  qase_add_params_to_case self params case e = (r, e') ->
  exists new,
    trace e' = trace e ++ new
    /\ ((r = Ok tt /\ fetched_ids new = [case]) \/ stopped_by_crash new r).
Proof.
  intros Hc. unfold qase_add_params_to_case, bind at 1.
  destruct (get_test_case_outcome case e Hc) as (o & e1 & -> & _ & Htr).
  destruct o as [origin|reason|name].
  - unfold bind at 1. rewrite logger_run. intros Hwrite.
    eapply fetch_then_write; [exact Htr|exact Hwrite].
  - intros [= <- <-]. destruct (fetch_only _ _ _ _ Htr) as (new & Hnew & Hids). eauto.
  - intros [= <- <-]. destruct (fetch_crashed _ _ _ _ Htr) as (new & Hnew & Hstop). eauto.
Qed.

(** A batch whose rounds go through their cases goes through its list. *)
Lemma for_each_goes_through (body : Z -> M (env R) unit) :
  (forall case e r e', case <> 0 -> body case e = (r, e') ->
     exists new,
       trace e' = trace e ++ new
       /\ ((r = Ok tt /\ fetched_ids new = [case]) \/ stopped_by_crash new r)) ->
  forall cases e r e',
    Forall (fun case => case <> 0) cases -> for_each cases body e = (r, e') ->
    exists new,
      trace e' = trace e ++ new
      /\ ((r = Ok tt /\ fetched_ids new = cases) \/ stopped_by_crash new r).
Proof.
  intros Hbody cases. induction cases as [|c rest IH]; intros e r e' Hall.
  - intros [= <- <-]. exists []. rewrite app_nil_r. auto.
  - apply Forall_cons in Hall as [Hc Hrest]. cbn [for_each]. unfold bind.
    destruct (body c e) as [r1 e1] eqn:Hround.
    destruct (Hbody c e r1 e1 Hc Hround) as (new1 & Htr1 & Hres1).
    destruct r1 as [[]|ex].
    + intros Hloop. destruct (IH e1 r e' Hrest Hloop) as (new2 & Htr2 & Hres2).
      exists (new1 ++ new2). split; [rewrite Htr2, Htr1, app_assoc; reflexivity|].
      destruct Hres1 as [[_ Hids]|(pre & rq & name & _ & [=])].
      destruct Hres2 as [[Hok Hids2]|Hstop].
      * left. split; [exact Hok|]. rewrite fetched_ids_app, Hids, Hids2. reflexivity.
      * right. apply stopped_later, Hstop.
    + intros [= <- <-]. exists new1. split; [exact Htr1|].
      destruct Hres1 as [[[=] _]|Hstop]. right. exact Hstop.
Qed.

(** X11: Add and Clear-all go through the whole list of cases.  For case
    ids other than 0: when the client crashes on no request (every failure
    is an [ApiException]) and every case fetched has parameters, the Add
    batch returns normally after it has fetched every case of the list, in
    the order of the list; the Clear-all batch either returns normally after
    it has fetched every case of the list, in order, or it was stopped by a
    crash of the client on its last request.  An [ApiException] on a fetch
    or on an update stops neither. *)
Theorem add_and_clear_batches_go_through `{Py.SetOrder} (cases : list Z)
    (params : list (string * list string)) (e : env R) :
  Forall (fun case => case <> 0) cases ->
  (Forall (fun ev => crashed ev = false /\ with_params ev)
          (issued (qase_add_params_to_cases self cases params) e) ->
   (qase_add_params_to_cases self cases params e).1 = Ok tt
   /\ fetched_ids (issued (qase_add_params_to_cases self cases params) e) = cases)
  /\ (((qase_remove_all_params_from_cases self cases e).1 = Ok tt
       /\ fetched_ids (issued (qase_remove_all_params_from_cases self cases) e) = cases)
      \/ stopped_by_crash (issued (qase_remove_all_params_from_cases self cases) e)
                          (qase_remove_all_params_from_cases self cases e).1).
Proof.
  intros Hcases. split.
  - destruct (qase_add_params_to_cases self cases params e) as [r e'] eqn:Hrun.
    destruct (for_each_goes_through (qase_add_params_to_case self params)
                (fun case e0 r0 e0' => add_round params case e0 r0 e0') cases e r e' Hcases Hrun)
      as (new & Htr & Hres).
    rewrite (issued_app _ e new) by (rewrite Hrun; exact Htr). cbn [fst].
    intros Hall. destruct Hres as [Hdone|Hstop]; [exact Hdone|].
    exfalso. apply (crash_is_seen _ _ Hstop).
    eapply Forall_impl; [exact Hall|]. intros ev [Hback _]. exact Hback.
  - destruct (qase_remove_all_params_from_cases self cases e) as [r e'] eqn:Hrun.
    destruct (for_each_goes_through (qase_remove_all_params_from_case self)
                (fun case e0 r0 e0' => clear_round case e0 r0 e0') cases e r e' Hcases Hrun)
      as (new & Htr & Hres).
    rewrite (issued_app _ e new) by (rewrite Hrun; exact Htr). cbn [fst]. exact Hres.
Qed.

(** X12: a case id 0 ends a batch of the case field editor with an
    [AssertionError]: when the cases before it went through, the batch
    stops in the state they left, and no case after it is looked at. *)
Theorem batch_stops_at_case_id_zero `{Py.SetOrder} (before after : list Z)
    (unwanted_params wanted_params : list (string * list string)) (e : env R) :
  ((qase_remove_unwanted_params_from_cases self before unwanted_params e).1 = Ok tt ->
   qase_remove_unwanted_params_from_cases self (before ++ 0 :: after) unwanted_params e
   = (Raise (AssertionError "case_id is required"),
      (qase_remove_unwanted_params_from_cases self before unwanted_params e).2))
  /\ ((qase_add_params_to_cases self before wanted_params e).1 = Ok tt ->
      qase_add_params_to_cases self (before ++ 0 :: after) wanted_params e
      = (Raise (AssertionError "case_id is required"),
         (qase_add_params_to_cases self before wanted_params e).2))
  /\ ((replace_params_in_cases self before unwanted_params wanted_params e).1 = Ok tt ->
      replace_params_in_cases self (before ++ 0 :: after) unwanted_params wanted_params e
      = (Raise (AssertionError "case_id is required"),
         (replace_params_in_cases self before unwanted_params wanted_params e).2))
  /\ ((qase_remove_all_params_from_cases self before e).1 = Ok tt ->
      qase_remove_all_params_from_cases self (before ++ 0 :: after) e
      = (Raise (AssertionError "case_id is required"),
         (qase_remove_all_params_from_cases self before e).2)).
Proof.
  split; [|split; [|split]]; intros Hbefore; apply for_each_stops; try exact Hbefore;
    reflexivity.
Qed.

(** The loop of Copy: the targets are written in order until the client
    crashes. *)
Lemma copy_loop params (cases : list Z) :
  forall (e : env R) r e',
    for_each cases (fun case =>
      update_a_test_case self case (params_update params) ;;; ret tt) e = (r, e') ->
    exists sent new,
      sent `prefix_of` cases
      /\ trace e' = trace e ++ new
      /\ new.*1 = map (fun case => UpdateCase (project_code self) case (params_update params)) sent
      /\ ((r = Ok tt /\ sent = cases) \/ stopped_by_crash new r).
Proof.
  induction cases as [|c rest IH]; intros e r e'.
  - intros [= <- <-]. exists [], []. rewrite app_nil_r. auto 6.
  - cbn [for_each]. unfold bind at 1.
    destruct ((update_a_test_case self c (params_update params) ;;; ret tt) e)
      as [r1 e1] eqn:Hwrite.
    destruct (write_outcome _ _ _ _ _ Hwrite) as (o & Htr1 & Hres1).
    assert (Hcrash : forall name, o = Crash name -> r1 = Raise (ClientError name))
      by (intros name ->; exact Hres1).
    assert (Hback : (forall name, o <> Crash name) -> r1 = Ok tt)
      by (intros Hno; destruct o; [exact Hres1|exact Hres1|destruct (Hno name eq_refl)]).
    destruct r1 as [[]|ex].
    + intros Hloop. destruct (IH e1 r e' Hloop) as (sent & new & Hpre & Htr & Hreq & Hres).
      exists (c :: sent), ((UpdateCase (project_code self) c (params_update params), o) :: new).
      split; [apply prefix_cons, Hpre|].
      split; [rewrite Htr, Htr1, <- app_assoc; reflexivity|].
      split; [cbn; rewrite Hreq; reflexivity|].
      destruct Hres as [[Hok ->]|Hstop]; [left; auto|right].
      apply (stopped_later [_] new), Hstop.
    + intros [= <- <-].
      exists [c], [(UpdateCase (project_code self) c (params_update params), o)].
      split; [apply prefix_cons, prefix_nil|]. split; [exact Htr1|]. split; [reflexivity|].
      right. destruct o as [b|reason|name]; try discriminate Hres1.
      exists [], (UpdateCase (project_code self) c (params_update params)), name.
      split; [reflexivity|exact Hres1].
Qed.

(** X13: Copy, for a source id other than 0.  It fetches the source case
    once.  When the fetch gives a case that has parameters, it sends that
    parameter map to the targets in the order of the list, each in one
    update: either all targets are written and it returns normally -
    whatever [ApiException] the updates meet - or the client crashed on the
    last update sent, and the targets after it are not written.  When the
    fetch ends in an [ApiException] it raises [AttributeError], and when the
    client crashes on the fetch that error is raised; in both cases no
    update is sent. *)
Theorem qase_copy_params_writes_source_params (case_to_copy : Z) (cases_to_update : list Z)
    (e : env R) :
  case_to_copy <> 0 ->
  match (CasesApi_get_case (project_code self) case_to_copy (remote e)).1 with
  | Success origin =>
      TestCase.params origin <> ∅ ->
      exists sent,
        sent `prefix_of` cases_to_update
        /\ (issued (qase_copy_params self case_to_copy cases_to_update) e).*1
           = GetCase (project_code self) case_to_copy
             :: map (fun case => UpdateCase (project_code self) case
                                            (params_update (TestCase.params origin)))
                    sent
        /\ (((qase_copy_params self case_to_copy cases_to_update e).1 = Ok tt
             /\ sent = cases_to_update)
            \/ stopped_by_crash (issued (qase_copy_params self case_to_copy cases_to_update) e)
                                (qase_copy_params self case_to_copy cases_to_update e).1)
  | Failure _ =>
      (qase_copy_params self case_to_copy cases_to_update e).1 = Raise AttributeError
      /\ (issued (qase_copy_params self case_to_copy cases_to_update) e).*1
         = [GetCase (project_code self) case_to_copy]
  | Crash name =>
      (qase_copy_params self case_to_copy cases_to_update e).1 = Raise (ClientError name)
      /\ (issued (qase_copy_params self case_to_copy cases_to_update) e).*1
         = [GetCase (project_code self) case_to_copy]
  end.
Proof.
  intros Hid.
  destruct (get_test_case_outcome case_to_copy e Hid) as (o & e1 & Hget & -> & Htr).
  destruct (qase_copy_params self case_to_copy cases_to_update e) as [r e'] eqn:Hrun.
  cbn [fst]. unfold qase_copy_params, bind at 1 in Hrun. rewrite Hget in Hrun.
  destruct o as [origin|reason|name].
  - intros _. unfold bind at 1 in Hrun. rewrite logger_run in Hrun.
    destruct (copy_loop _ _ _ _ _ Hrun) as (sent & new & Hpre & Htr2 & Hreq & Hres).
    cbn [trace] in Htr2.
    assert (Hissued : issued (qase_copy_params self case_to_copy cases_to_update) e
                      = (GetCase (project_code self) case_to_copy,
                         outcome_map CaseResponse (Success origin)) :: new).
    { apply issued_app. unfold qase_copy_params, bind at 1. rewrite Hget.
      unfold bind at 1. rewrite logger_run, Hrun. cbn [snd].
      rewrite Htr2, Htr, <- app_assoc. reflexivity. }
    rewrite Hissued. exists sent. split; [exact Hpre|]. split; [cbn; rewrite Hreq; reflexivity|].
    destruct Hres as [Hdone|Hstop]; [left; exact Hdone|right].
    apply (stopped_later [_] new), Hstop.
  - injection Hrun as <- <-. split; [reflexivity|].
    rewrite (issued_app _ e [(GetCase (project_code self) case_to_copy,
                              outcome_map CaseResponse (Failure reason))]);
      [reflexivity|].
    unfold qase_copy_params, bind. rewrite Hget. exact Htr.
  - injection Hrun as <- <-. split; [reflexivity|].
    rewrite (issued_app _ e [(GetCase (project_code self) case_to_copy,
                              outcome_map CaseResponse (Crash name))]);
      [reflexivity|].
    unfold qase_copy_params, bind. rewrite Hget. exact Htr.
Qed.

End Batches.

Lemma add_and_clear_batches_go_through_witness :
  ((qase_add_params_to_cases demo [1; 2] [("os", ["win"])]
      (start (project_with [case_with 1 [("os", ["mac"])]]))).1 = Ok tt
   /\ fetched_ids (issued (qase_add_params_to_cases demo [1; 2] [("os", ["win"])])
                          (start (project_with [case_with 1 [("os", ["mac"])]])))
      = [1; 2])
  /\ fetched_ids (issued (qase_remove_all_params_from_cases demo [1; 2])
                         (start (project_with [case_with 1 [("os", ["mac"])]])))
     = [1; 2].
Proof.
  assert (Hids : Forall (fun case => case <> 0) [1; 2])
    by (constructor; [lia|]; constructor; [lia|]; constructor).
  destruct (add_and_clear_batches_go_through demo [1; 2] [("os", ["win"])]
              (start (project_with [case_with 1 [("os", ["mac"])]])) Hids) as [Hadd Hclear].
  split.
  - apply Hadd.
    assert (Hissued :
              issued (qase_add_params_to_cases demo [1; 2] [("os", ["win"])])
                     (start (project_with [case_with 1 [("os", ["mac"])]]))
              = [(GetCase "DEMO" 1, Success (CaseResponse (case_with 1 [("os", ["mac"])])));
                 (UpdateCase "DEMO" 1
                    (params_update (list_to_map [("os", ["mac"; "win"])])),
                  Success (BaseResponse true));
                 (GetCase "DEMO" 2, Failure "404 Not Found")])
      by (vm_compute; reflexivity).
    rewrite Hissued. repeat constructor.
    intros Hempty. apply (f_equal (fun m => m !! "os")) in Hempty. vm_compute in Hempty.
    discriminate.
  - destruct Hclear as [[_ Hfetched]|Hstop]; [exact Hfetched|].
    destruct Hstop as (pre & rq & name & _ & Hraise). vm_compute in Hraise. discriminate.
Defined.

Lemma batch_stops_at_case_id_zero_witness :
  qase_remove_unwanted_params_from_cases demo ([1] ++ 0 :: [2]) [("os", ["win"])]
    (start (project_with [case_with 1 [("os", ["win"])]; case_with 2 []]))
  = (Raise (AssertionError "case_id is required"),
     (qase_remove_unwanted_params_from_cases demo [1] [("os", ["win"])]
        (start (project_with [case_with 1 [("os", ["win"])]; case_with 2 []]))).2)
  /\ qase_add_params_to_cases demo ([1] ++ 0 :: [2]) [("os", ["mac"])]
       (start (project_with [case_with 1 [("os", ["win"])]; case_with 2 []]))
     = (Raise (AssertionError "case_id is required"),
        (qase_add_params_to_cases demo [1] [("os", ["mac"])]
           (start (project_with [case_with 1 [("os", ["win"])]; case_with 2 []]))).2)
  /\ replace_params_in_cases demo ([1] ++ 0 :: [2]) [("os", ["win"])] [("os", ["mac"])]
       (start (project_with [case_with 1 [("os", ["win"])]; case_with 2 []]))
     = (Raise (AssertionError "case_id is required"),
        (replace_params_in_cases demo [1] [("os", ["win"])] [("os", ["mac"])]
           (start (project_with [case_with 1 [("os", ["win"])]; case_with 2 []]))).2)
  /\ qase_remove_all_params_from_cases demo ([1] ++ 0 :: [2])
       (start (project_with [case_with 1 [("os", ["win"])]; case_with 2 []]))
     = (Raise (AssertionError "case_id is required"),
        (qase_remove_all_params_from_cases demo [1]
           (start (project_with [case_with 1 [("os", ["win"])]; case_with 2 []]))).2).
Proof.
  destruct (batch_stops_at_case_id_zero demo [1] [2] [("os", ["win"])] [("os", ["mac"])]
              (start (project_with [case_with 1 [("os", ["win"])]; case_with 2 []])))
    as (Hremove & Hadd & Hreplace & Hclear).
  split; [apply Hremove; vm_compute; reflexivity|].
  split; [apply Hadd; vm_compute; reflexivity|].
  split; [apply Hreplace; vm_compute; reflexivity|].
  apply Hclear; vm_compute; reflexivity.
Defined.

Lemma qase_copy_params_writes_source_params_witness :
  exists sent,
    sent `prefix_of` [2; 3]
    /\ (issued (qase_copy_params demo 1 [2; 3])
          (start (project_with [case_with 1 [("os", ["mac"])]; case_with 2 []]))).*1
       = GetCase "DEMO" 1
         :: map (fun case => UpdateCase "DEMO" case
                               (params_update (TestCase.params (case_with 1 [("os", ["mac"])]))))
                sent
    /\ (((qase_copy_params demo 1 [2; 3]
            (start (project_with [case_with 1 [("os", ["mac"])]; case_with 2 []]))).1 = Ok tt
         /\ sent = [2; 3])
        \/ stopped_by_crash
             (issued (qase_copy_params demo 1 [2; 3])
                (start (project_with [case_with 1 [("os", ["mac"])]; case_with 2 []])))
             (qase_copy_params demo 1 [2; 3]
                (start (project_with [case_with 1 [("os", ["mac"])]; case_with 2 []]))).1).
Proof.
  assert (Hid : 1 <> 0) by lia.
  assert (Hparams : TestCase.params (case_with 1 [("os", ["mac"])]) <> ∅).
  { intros Hempty. apply (f_equal (fun m => m !! "os")) in Hempty. vm_compute in Hempty.
    discriminate. }
  exact (qase_copy_params_writes_source_params demo 1 [2; 3]
           (start (project_with [case_with 1 [("os", ["mac"])]; case_with 2 []])) Hid Hparams).
Defined.

(** On a remote that cannot be reached the error of the client passes the
    handlers: the batches stop at their first request. *)
Example offline_batches_stop :
  qase_remove_all_params_from_cases (H := offline_api) demo [1; 2] (start tt)
  = (Raise (ClientError "MaxRetryError"),
     mkEnv tt [(GetCase "DEMO" 1, Crash "MaxRetryError")] [])
  /\ qase_copy_params (H := offline_api) demo 1 [2; 3] (start tt)
     = (Raise (ClientError "MaxRetryError"),
        mkEnv tt [(GetCase "DEMO" 1, Crash "MaxRetryError")] []).
Proof. split; reflexivity. Qed.

(** ** Test results: the payload of [update_test_results] *)

Lemma nonempty_false s : nonempty s = false <-> s = "".
Proof. destruct s; simpl; split; congruence. Qed.

(** X14: the [param] field of the result payload.  It is absent exactly
    when [os_name], [trans_mode] and [test_params] are all empty; when it is
    there it has the key OS (with [os_name]) exactly for a non-empty
    [os_name], the key Test params exactly when [trans_mode] or
    [test_params] is non-empty, and no other key.  With an empty
    [trans_mode] the text under Test params starts with the separator. *)
Theorem result_dict_param (case_id : Z) (status comment os_name trans_mode test_params : string)
    (test_time : Z) :
  (res_param (result_dict case_id status comment os_name trans_mode test_params test_time) = None
   <-> os_name = "" /\ trans_mode = "" /\ test_params = "")
  /\ (forall param,
        res_param (result_dict case_id status comment os_name trans_mode test_params test_time)
        = Some param ->
        param !! "OS" = (if nonempty os_name then Some os_name else None)
        /\ param !! "Test params"
           = (if nonempty trans_mode || nonempty test_params
              then Some (params_string trans_mode test_params) else None)
        /\ forall key, key <> "OS" -> key <> "Test params" -> param !! key = None)
  /\ (trans_mode = "" -> test_params <> "" ->
      params_string trans_mode test_params = "; Other params: " +:+ test_params).
Proof.
  unfold result_dict. cbn [res_param]. split; [|split].
  - rewrite <- !nonempty_false.
    destruct (nonempty os_name), (nonempty trans_mode), (nonempty test_params); cbn;
      split; intros; try discriminate; try tauto; intuition discriminate.
  - intros param.
    destruct (nonempty os_name), (nonempty trans_mode || nonempty test_params); cbn;
      intros [= <-]; (split; [|split]); try intros key Hos Htp;
      rewrite ?lookup_insert_ne, ?lookup_singleton_ne, ?lookup_insert_eq, ?lookup_singleton_eq
        by done; reflexivity.
  - intros -> Hparams. unfold params_string. cbn [nonempty].
    destruct test_params; [congruence|]. reflexivity.
Qed.

Lemma result_dict_param_witness :
  res_param (result_dict 71 "passed" "" "" "" "Browser: Chrome" 1)
  = Some {["Test params" := "; Other params: Browser: Chrome"]}.
Proof.
  destruct (result_dict_param 71 "passed" "" "" "" "Browser: Chrome" 1) as (_ & _ & Htext).
  unfold result_dict. cbn. rewrite (Htext eq_refl); [reflexivity|discriminate].
Defined.

(** ** Milestones *)

Lemma filter_head_find {A} (p : A -> bool) (xs : list A) :
  match List.filter p xs with
  | first :: _ => List.find p xs = Some first
  | [] => List.find p xs = None
  end.
Proof.
  induction xs as [|x rest IH]; [reflexivity|]. cbn. destruct (p x); [reflexivity|exact IH].
Qed.

Section Milestones.
Context {R : Type} `{RemoteApi R}.
Variable self : QaseIO.
Variable get_milestones : string -> Z -> M (env R) (ListResponse Milestone.t).

(** X15: [get_milestone_id] looks at the first 100 milestones only.  When
    the remote answers with the first page of its milestones, the result is
    the id of the first milestone of that title among the first 100; when
    there is none there - also when a later milestone has the title - the
    result is 0 without [create_missing], and with it a milestone of that
    title is created. *)
Theorem get_milestone_id_searches_first_page (db : list Milestone.t) (milestone_title : string)
    (e e1 : env R) :
  get_milestones (project_code self) 100 e = (Ok (page db 100 0), e1) ->
  match List.find (fun i => String.eqb milestone_title (Milestone.title i)) (firstn 100 db) with
  | Some first =>
      forall create_missing,
        get_milestone_id self get_milestones milestone_title create_missing e
        = (Ok (Milestone.id first), e1)
  | None =>
      get_milestone_id self get_milestones milestone_title false e = (Ok 0, e1)
      /\ get_milestone_id self get_milestones milestone_title true e
         = create_milestone self milestone_title e1
  end.
Proof.
  intros Hpage.
  assert (Hrun : forall create_missing,
            get_milestone_id self get_milestones milestone_title create_missing e
            = match List.filter (fun i => String.eqb milestone_title (Milestone.title i))
                                (firstn 100 db) with
              | first :: _ => (Ok (Milestone.id first), e1)
              | [] => if create_missing then create_milestone self milestone_title e1
                      else (Ok 0, e1)
              end).
  { intros create_missing. unfold get_milestone_id, bind at 1. rewrite Hpage.
    cbn [page list_result entities]. change (Z.to_nat 100) with 100%nat.
    change (Z.to_nat 0) with 0%nat. change (skipn 0 db) with db.
    destruct (List.filter _ (firstn 100 db)); [destruct create_missing|]; reflexivity. }
  pose proof (filter_head_find (fun i => String.eqb milestone_title (Milestone.title i))
                (firstn 100 db)) as Hfind.
  destruct (List.filter _ (firstn 100 db)) as [|first others]; rewrite Hfind.
  - split; apply Hrun.
  - intros create_missing. apply Hrun.
Qed.

End Milestones.

Lemma get_milestone_id_searches_first_page_witness :
  get_milestone_id demo
    (fun _ limit => ret (page (repeat (Milestone.mk 1 "Backlog") 100 ++ [Milestone.mk 7 "Sprint 1"])
                              limit 0))
    "Sprint 1" false (start (project_with []))
  = (Ok 0, start (project_with []))
  /\ get_milestone_id demo
       (fun _ limit => ret (page (repeat (Milestone.mk 1 "Backlog") 100 ++ [Milestone.mk 7 "Sprint 1"])
                                 limit 0))
       "Sprint 1" true (start (project_with []))
     = create_milestone demo "Sprint 1" (start (project_with [])).
Proof.
  exact (get_milestone_id_searches_first_page demo
           (fun _ limit => ret (page (repeat (Milestone.mk 1 "Backlog") 100
                                      ++ [Milestone.mk 7 "Sprint 1"]) limit 0))
           (repeat (Milestone.mk 1 "Backlog") 100 ++ [Milestone.mk 7 "Sprint 1"])
           "Sprint 1" (start (project_with [])) (start (project_with [])) eq_refl).
Defined.

(** ** Suite synchronizer: what a pass asks of the remote *)

Section SyncFootprint.
Context {R : Type} `{RemoteApi R}.
Variable self : QaseIO.
Variable depth : nat.
Variable move_cases : bool.
Variable root_parent_suite : Py.pyid.
Variable assert_parent_suite : bool.

Lemma sync_lists : emits (sync_request move_cases) (get_suites self depth)
                   /\ emits (sync_request move_cases) (get_cases self depth).
Proof.
  split; [apply emits_get_suites|apply emits_get_cases]; intros; exact I.
Qed.

Lemma sync_create suite_name parent_id :
  emits (sync_request move_cases) (create_qase_suite self suite_name parent_id).
Proof. apply emits_create_qase_suite. intros; exact I. Qed.

Lemma emits_resolve_parent parent_suite suite_name st :
  emits (sync_request move_cases)
        (resolve_parent self depth root_parent_suite assert_parent_suite parent_suite suite_name st).
Proof.
  unfold resolve_parent. destruct (qase_new_dict st !! parent_suite); [apply emits_ret|].
  apply emits_bind.
  - destruct assert_parent_suite.
    + destruct (known_suites st !! parent_suite); [apply emits_ret|apply emits_raise].
    + destruct (Py.truthy (find_suite_id (qase_suites st) parent_suite)); [apply emits_ret|].
      apply emits_bind; [apply sync_create|]. intros suite_id.
      apply emits_bind; [apply emits_logger|]. intros _.
      apply emits_bind; [apply sync_lists|]. intros suites. apply emits_ret.
  - intros st1. destruct (known_suites st1 !! parent_suite); [apply emits_ret|apply emits_raise].
Qed.

Lemma emits_resolve_leaf parent_suite suite_name st :
  emits (sync_request move_cases)
        (resolve_leaf self depth root_parent_suite parent_suite suite_name st).
Proof.
  unfold resolve_leaf. destruct (qase_new_dict st !! parent_suite) as [inner|];
    [|apply emits_raise].
  destruct (inner !! suite_name); [apply emits_ret|].
  apply emits_bind.
  - match goal with |- context [Py.truthy ?v] => destruct (Py.truthy v) end; [apply emits_ret|].
    apply emits_bind.
    + destruct (inner !! "id") as [[id|cases id]|];
        [apply emits_ret|apply emits_raise|apply emits_ret].
    + intros parent_id. apply emits_bind; [apply sync_create|]. intros suite_id.
      apply emits_bind; [apply emits_logger|]. intros _.
      apply emits_bind; [apply sync_lists|]. intros suites. apply emits_ret.
  - intros [suite_id suites]. apply emits_ret.
Qed.

Lemma emits_record_case qase_cases parent_suite suite_name case st :
  emits (sync_request move_cases)
        (record_case self move_cases qase_cases parent_suite suite_name case st).
Proof.
  unfold record_case. destruct (qase_id case) as [qid|]; [|apply emits_ret].
  destruct (Py.truthy (Some qid)); [|apply emits_ret].
  destruct (qase_new_dict st !! parent_suite) as [inner|]; [|apply emits_raise].
  destruct (inner !! suite_name) as [[id|cases leaf_id]|];
    [apply emits_raise| |apply emits_raise].
  destruct (List.find _ qase_cases) as [qase_case|]; [|apply emits_ret].
  destruct (bool_decide (TestCase.suite_id qase_case <> leaf_id)); [|apply emits_ret].
  destruct move_cases eqn:Hmove.
  - apply emits_bind; [apply emits_logger|]. intros _.
    apply emits_bind; [|intros; apply emits_ret].
    apply emits_update_a_test_case. intros o. cbn. eauto.
  - apply emits_bind; [apply emits_logger|]. intros _. apply emits_ret.
Qed.

(** X16: what a synchronization pass asks of the remote.  Whatever the
    index, the known suites and the answers, every request of the pass is a
    page of the suite list, a page of the case list, a create-suite, or -
    only with [move_cases] - an update of a case that sets its suite id and
    leaves its parameters alone.  The pass deletes nothing, creates no case
    and rewrites no suite; without [move_cases] it updates no case. *)
Theorem sync_pass_requests (full_index : list test_file) (known : gmap string Py.pyid) :
  emits (sync_request move_cases)
        (update_test_suites_from_pytest self depth move_cases root_parent_suite
           assert_parent_suite full_index known).
Proof.
  unfold update_test_suites_from_pytest.
  apply emits_bind; [apply sync_lists|]. intros qase_suites.
  apply emits_bind; [apply sync_lists|]. intros qase_cases.
  apply emits_bind; [|intros; apply emits_ret].
  apply emits_fold_m. intros file st. unfold sync_file.
  destruct (Py.split (default "" (suite_name_field file))) as [|first more]; [apply emits_ret|].
  apply emits_bind; [apply emits_lift_result|]. intros parent_suite.
  apply emits_bind; [apply emits_resolve_parent|]. intros st1.
  apply emits_bind; [apply emits_resolve_leaf|]. intros st2.
  apply emits_fold_m. intros case st3. apply emits_record_case.
Qed.

End SyncFootprint.

(** ** Suite synchronizer: parent suites that are not among the known suites *)

Section UnknownParent.
Context {R : Type} `{RemoteApi R}.
Variable self : QaseIO.
Variable depth : nat.
Variable move_cases : bool.
Variable root_parent_suite : Py.pyid.

Lemma first_file_decides assert_parent_suite file rest known suites cases (e e1 e2 : env R)
    first parent more ex :
  get_suites self depth e = (Ok suites, e1) ->
  get_cases self depth e1 = (Ok cases, e2) ->
  Py.split (default "" (suite_name_field file)) = first :: parent :: more ->
  resolve_parent self depth root_parent_suite assert_parent_suite parent
    (Py.join " " (parent :: more)) (mkSync suites ∅ known) e2 = (Raise ex, e2) ->
  update_test_suites_from_pytest self depth move_cases root_parent_suite assert_parent_suite
    (file :: rest) known e = (Raise ex, e2).
Proof.
  intros Hsuites Hcases Hsplit Hparent.
  unfold update_test_suites_from_pytest, bind at 1. rewrite Hsuites.
  unfold bind at 1. rewrite Hcases. unfold bind at 1. cbn [fold_m]. unfold bind at 1.
  unfold sync_file. rewrite Hsplit. unfold bind at 1. cbn [Py.index nth_error lift_result skipn].
  unfold bind at 1. rewrite Hparent. reflexivity.
Qed.

(** X17: a parent suite that exists on the remote but is not among the known
    suites ends the pass.  When the first file of the index names a parent
    that some remote suite matches (with a non-zero id) and [known_suites]
    has no entry for it, the pass raises [KeyError] for that name right
    after the two fetches: nothing is created and no index is returned. *)
Theorem existing_parent_suite_must_be_known (file : test_file) (rest : list test_file)
    (known : gmap string Py.pyid) (suites : list Suite.t) (cases : list TestCase.t)
    (e e1 e2 : env R) (first parent : string) (more : list string) :
  get_suites self depth e = (Ok suites, e1) ->
  get_cases self depth e1 = (Ok cases, e2) ->
  Py.split (default "" (suite_name_field file)) = first :: parent :: more ->
  known !! parent = None ->
  Py.truthy (find_suite_id suites parent) = true ->
  update_test_suites_from_pytest self depth move_cases root_parent_suite false
    (file :: rest) known e = (Raise (KeyError parent), e2).
Proof.
  intros Hsuites Hcases Hsplit Hknown Hfound.
  eapply first_file_decides; try eassumption.
  unfold resolve_parent. cbn [qase_new_dict qase_suites known_suites].
  rewrite lookup_empty, Hfound. unfold bind, ret. cbn [known_suites].
  rewrite Hknown. reflexivity.
Qed.

(** X18: with [assert_parent_suite], a parent suite that is not among the
    known suites ends the pass with an [AssertionError] right after the two
    fetches, whether or not the remote has a suite of that name; nothing is
    created.  The message of the error names the parent suite, between
    double quotes. *)
Theorem asserted_parent_suite_must_be_known (file : test_file) (rest : list test_file)
    (known : gmap string Py.pyid) (suites : list Suite.t) (cases : list TestCase.t)
    (e e1 e2 : env R) (first parent : string) (more : list string) :
  get_suites self depth e = (Ok suites, e1) ->
  get_cases self depth e1 = (Ok cases, e2) ->
  Py.split (default "" (suite_name_field file)) = first :: parent :: more ->
  known !! parent = None ->
  update_test_suites_from_pytest self depth move_cases root_parent_suite true
    (file :: rest) known e
  = (Raise (AssertionError ("Parent suite " +:+ Py.quoted parent
                            +:+ " not found in known suites")), e2).
Proof.
  intros Hsuites Hcases Hsplit Hknown.
  eapply first_file_decides; try eassumption.
  unfold resolve_parent. cbn [qase_new_dict qase_suites known_suites].
  rewrite lookup_empty, Hknown. reflexivity.
Qed.

End UnknownParent.

Lemma existing_parent_suite_must_be_known_witness :
  update_test_suites_from_pytest demo 5 false None false
    [mkTestFile (Some "test Client login") [mkTestCase (Some 1)]] ∅
    (start (Sim.mk [] [Suite.mk 4 "Client" None] 10 []))
  = (Raise (KeyError "Client"),
     (get_cases demo 5 (get_suites demo 5 (start (Sim.mk [] [Suite.mk 4 "Client" None] 10 []))).2).2).
Proof.
  apply (existing_parent_suite_must_be_known demo 5 false None
           (mkTestFile (Some "test Client login") [mkTestCase (Some 1)]) [] ∅
           [Suite.mk 4 "Client" None] []
           (start (Sim.mk [] [Suite.mk 4 "Client" None] 10 []))
           (get_suites demo 5 (start (Sim.mk [] [Suite.mk 4 "Client" None] 10 []))).2
           _ "test" "Client" ["login"]).
  - vm_compute. reflexivity.
  - vm_compute. reflexivity.
  - vm_compute. reflexivity.
  - apply lookup_empty.
  - vm_compute. reflexivity.
Defined.

Lemma asserted_parent_suite_must_be_known_witness :
  update_test_suites_from_pytest demo 5 false None true
    [mkTestFile (Some "test Client login") [mkTestCase (Some 1)]] {["server" := Some 2]}
    (start (Sim.mk [] [Suite.mk 4 "Client" None] 10 []))
  = (Raise (AssertionError ("Parent suite " +:+ Py.quoted "Client"
                            +:+ " not found in known suites")),
     (get_cases demo 5 (get_suites demo 5 (start (Sim.mk [] [Suite.mk 4 "Client" None] 10 []))).2).2).
Proof.
  apply (asserted_parent_suite_must_be_known demo 5 false None
           (mkTestFile (Some "test Client login") [mkTestCase (Some 1)]) []
           {["server" := Some 2]}
           [Suite.mk 4 "Client" None] []
           (start (Sim.mk [] [Suite.mk 4 "Client" None] 10 []))
           (get_suites demo 5 (start (Sim.mk [] [Suite.mk 4 "Client" None] 10 []))).2
           _ "test" "Client" ["login"]).
  - vm_compute. reflexivity.
  - vm_compute. reflexivity.
  - vm_compute. reflexivity.
  - vm_compute. reflexivity.
Defined.

(** ** Suite synchronizer: what a normalized title looks like *)

Section NormalizedTitles.
Import Py.
Variable p : ascii -> bool.

Lemma all_chars_app a b : all_chars p (a +:+ b) = all_chars p a && all_chars p b.
Proof.
  induction a as [|c r IH]; [reflexivity|]. rewrite append_cons. cbn [all_chars].
  rewrite IH, andb_assoc. reflexivity.
Qed.

Lemma all_chars_split_once_head sep s :
  all_chars p s = true -> all_chars p (split_once_head sep s) = true.
Proof.
  induction s as [|c r IH]; [reflexivity|]. cbn [all_chars split_once_head].
  intros Hall. apply andb_true_iff in Hall as [Hc Hr].
  destruct (Ascii.eqb c sep); [reflexivity|]. cbn [all_chars]. rewrite Hc, IH by exact Hr.
  reflexivity.
Qed.

Lemma all_chars_lstrip s : all_chars p s = true -> all_chars p (lstrip s) = true.
Proof.
  induction s as [|c r IH]; [reflexivity|]. cbn [lstrip]. intros Hall.
  destruct (is_space c); [|exact Hall].
  cbn [all_chars] in Hall. apply andb_true_iff in Hall as [_ Hr]. apply IH, Hr.
Qed.

Lemma all_chars_rstrip s : all_chars p s = true -> all_chars p (rstrip s) = true.
Proof.
  induction s as [|c r IH]; [reflexivity|]. intros Hall.
  cbn [all_chars] in Hall. apply andb_true_iff in Hall as [Hc Hr].
  specialize (IH Hr). cbn [rstrip]. destruct (rstrip r) as [|d r'].
  - destruct (is_space c); [reflexivity|]. cbn [all_chars]. rewrite Hc. reflexivity.
  - cbn [all_chars] in *. rewrite Hc, IH. reflexivity.
Qed.

Lemma all_chars_replace_with_empty old s :
  all_chars p s = true -> all_chars p (replace_with_empty old s) = true.
Proof.
  induction s as [|c r IH]; [reflexivity|]. cbn [all_chars replace_with_empty].
  intros Hall. apply andb_true_iff in Hall as [Hc Hr].
  destruct (Ascii.eqb c old); [apply IH, Hr|]. cbn [all_chars]. rewrite Hc, IH by exact Hr.
  reflexivity.
Qed.

Lemma all_chars_split s : all_chars p s = true -> forallb (all_chars p) (split s) = true.
Proof.
  induction s as [|c r IH]; [reflexivity|]. cbn [all_chars split].
  intros Hall. apply andb_true_iff in Hall as [Hc Hr]. specialize (IH Hr).
  destruct (is_space c); [exact IH|].
  destruct (starts_token r).
  - destruct (split r) as [|t ts]; cbn [forallb all_chars] in *; rewrite Hc; [reflexivity|].
    exact IH.
  - cbn [forallb all_chars]. rewrite Hc, IH. reflexivity.
Qed.

Lemma all_chars_join tokens :
  p " " = true -> forallb (all_chars p) tokens = true -> all_chars p (join " " tokens) = true.
Proof.
  intros Hspace. induction tokens as [|t rest IH]; [reflexivity|].
  cbn [forallb]. intros Hall. apply andb_true_iff in Hall as [Ht Hrest].
  destruct rest as [|t' rest']; [exact Ht|].
  change (join " " (t :: t' :: rest')) with (t +:+ " " +:+ join " " (t' :: rest')).
  rewrite !all_chars_app, Ht, IH by exact Hrest. cbn [all_chars]. rewrite Hspace. reflexivity.
Qed.

(** The steps of the normalization after [lower] keep what holds of every
    character, as long as it holds of the space. *)
Lemma all_chars_cleaned s :
  p " " = true -> all_chars p s = true ->
  all_chars p (join " " (split (replace_with_empty "-" (strip (split_once_head "(" s))))) = true.
Proof.
  intros Hspace Hall. apply all_chars_join; [exact Hspace|]. apply all_chars_split.
  apply all_chars_replace_with_empty. unfold strip.
  apply all_chars_rstrip, all_chars_lstrip, all_chars_split_once_head, Hall.
Qed.

End NormalizedTitles.

Section NormalizedTitleFacts.
Import Py.

Lemma contains_char_all_chars c s :
  contains_char c s = negb (all_chars (fun d => negb (Ascii.eqb d c)) s).
Proof.
  induction s as [|d r IH]; [reflexivity|]. cbn [contains_char all_chars].
  rewrite IH. destruct (Ascii.eqb d c); reflexivity.
Qed.

Lemma split_once_head_cuts sep s :
  all_chars (fun d => negb (Ascii.eqb d sep)) (split_once_head sep s) = true.
Proof.
  induction s as [|c r IH]; [reflexivity|]. cbn [split_once_head].
  destruct (Ascii.eqb c sep) eqn:E; [reflexivity|]. cbn [all_chars]. rewrite E, IH. reflexivity.
Qed.

Lemma replace_with_empty_removes old s :
  all_chars (fun d => negb (Ascii.eqb d old)) (replace_with_empty old s) = true.
Proof.
  induction s as [|c r IH]; [reflexivity|]. cbn [replace_with_empty].
  destruct (Ascii.eqb c old) eqn:E; [exact IH|]. cbn [all_chars]. rewrite E, IH. reflexivity.
Qed.

Lemma clean_suite_name_no_paren title : contains_char "(" (clean_suite_name title) = false.
Proof.
  rewrite contains_char_all_chars. apply negb_false_iff. unfold clean_suite_name.
  apply all_chars_join; [reflexivity|]. apply all_chars_split, all_chars_replace_with_empty.
  unfold strip. apply all_chars_rstrip, all_chars_lstrip, split_once_head_cuts.
Qed.

Lemma clean_suite_name_no_hyphen title : contains_char "-" (clean_suite_name title) = false.
Proof.
  rewrite contains_char_all_chars. apply negb_false_iff. unfold clean_suite_name.
  apply all_chars_join; [reflexivity|]. apply all_chars_split, replace_with_empty_removes.
Qed.

Lemma lower_char_lowered c : is_lowered (lower_char c) = true.
Proof. destruct c as [[] [] [] [] [] [] [] []]; reflexivity. Qed.

Lemma lower_lowered s : all_chars is_lowered (lower s) = true.
Proof.
  induction s as [|c r IH]; [reflexivity|]. cbn [lower all_chars].
  rewrite lower_char_lowered, IH. reflexivity.
Qed.

Lemma lowered_fixed s : all_chars is_lowered s = true -> lower s = s.
Proof.
  induction s as [|c r IH]; [reflexivity|]. cbn [lower all_chars].
  intros Hall. apply andb_true_iff in Hall as [Hc Hr].
  apply Ascii.eqb_eq in Hc. rewrite Hc, IH by exact Hr. reflexivity.
Qed.

Lemma clean_suite_name_lowered title : lower (clean_suite_name title) = clean_suite_name title.
Proof.
  apply lowered_fixed. unfold clean_suite_name.
  apply all_chars_cleaned; [reflexivity|apply lower_lowered].
Qed.



(** X20: the normalization of remote titles is idempotent, and a remote
    suite is matched by its own normalized title: a suite titled
    [title] is found under the local name [clean_suite_name title]. *)
Theorem normalized_title_matches_its_suite (suite : Suite.t) :
  clean_suite_name (clean_suite_name (Suite.title suite)) = clean_suite_name (Suite.title suite)
  /\ suite_matches suite (clean_suite_name (Suite.title suite)) = true.
Proof.
  split.
  - pose (tokens := split (replace_with_empty "-"
                       (strip (split_once_head "(" (lower (Suite.title suite)))))).
    assert (Hclean : clean_suite_name (Suite.title suite) = join " " tokens) by reflexivity.
    rewrite Hclean. rewrite clean_suite_name_joined.
    + rewrite <- Hclean. apply clean_suite_name_lowered.
    + apply split_tokens.
    + rewrite <- Hclean. apply clean_suite_name_no_hyphen.
    + rewrite <- Hclean. apply clean_suite_name_no_paren.
  - unfold suite_matches. rewrite clean_suite_name_lowered. apply String.eqb_refl.
Qed.

End NormalizedTitleFacts.

(** ** Suite synchronizer: the cases listed in the returned index *)

Section IndexAgrees.
Implicit Types d : gmap string (gmap string suite_entry).
Implicit Types records : list (string * string * Z).

Lemma ids_under_app parent leaf records more :
  ids_under parent leaf (records ++ more)
  = ids_under parent leaf records ++ ids_under parent leaf more.
Proof. unfold ids_under. rewrite List.filter_app, map_app. reflexivity. Qed.

Lemma ids_under_none parent leaf records :
  (forall qid, (parent, leaf, qid) ∉ records) -> ids_under parent leaf records = [].
Proof.
  induction records as [|[[p l] q] rest IH]; intros Hnone; [reflexivity|].
  unfold ids_under. cbn [List.filter fst]. destruct (bool_decide_reflect ((p, l) = (parent, leaf))) as [Heq|Hne].
  - injection Heq as -> ->. exfalso. apply (Hnone q), elem_of_cons. auto.
  - apply IH. intros qid Hin. apply (Hnone qid), elem_of_cons. auto.
Qed.

Lemma ids_under_one parent leaf p l qid :
  ids_under parent leaf [(p, l, qid)] = if bool_decide ((p, l) = (parent, leaf)) then [qid] else [].
Proof. unfold ids_under. cbn. destruct (bool_decide _); reflexivity. Qed.

Lemma index_agrees_start : index_agrees ∅ [].
Proof.
  split.
  - intros parent leaf qid Hin. by apply elem_of_nil in Hin.
  - intros parent inner leaf cases id Hp. rewrite lookup_empty in Hp. discriminate.
Qed.

Lemma index_agrees_new_parent d records p v :
  index_agrees d records -> d !! p = None ->
  index_agrees (<[p := {["id" := IdEntry v]}]> d) records.
Proof.
  intros [Hlisted Hcases] Hnone. split.
  - intros parent leaf qid Hin. destruct (Hlisted _ _ _ Hin) as (inner & cases & id & Hp & Hl).
    exists inner, cases, id. rewrite lookup_insert_ne by congruence. auto.
  - intros parent inner leaf cases id Hp Hl. destruct (decide (parent = p)) as [->|Hne].
    + rewrite lookup_insert_eq in Hp. injection Hp as <-.
      destruct (decide (leaf = "id")) as [->|Hnl].
      * rewrite lookup_singleton_eq in Hl. discriminate.
      * rewrite lookup_singleton_ne in Hl by congruence. discriminate.
    + rewrite lookup_insert_ne in Hp by congruence. eapply Hcases; eassumption.
Qed.

Lemma index_agrees_new_leaf d records p inner leaf id :
  index_agrees d records -> d !! p = Some inner -> inner !! leaf = None ->
  index_agrees (<[p := <[leaf := LeafEntry [] id]> inner]> d) records.
Proof.
  intros [Hlisted Hcases] Hp Hleaf. split.
  - intros parent l qid Hin. destruct (Hlisted _ _ _ Hin) as (inner' & cases & id' & Hp' & Hl).
    destruct (decide (parent = p)) as [->|Hne].
    + assert (inner' = inner) by congruence. subst inner'.
      exists (<[leaf := LeafEntry [] id]> inner), cases, id'.
      rewrite lookup_insert_eq. split; [reflexivity|].
      rewrite lookup_insert_ne by congruence. exact Hl.
    + exists inner', cases, id'. rewrite lookup_insert_ne by congruence. auto.
  - intros parent inner' l cases id' Hp' Hl. destruct (decide (parent = p)) as [->|Hne].
    + rewrite lookup_insert_eq in Hp'. injection Hp' as <-.
      destruct (decide (l = leaf)) as [->|Hnl].
      * rewrite lookup_insert_eq in Hl. injection Hl as <- <-.
        symmetry. apply ids_under_none. intros qid Hin.
        destruct (Hlisted _ _ _ Hin) as (inner' & cases & id' & Hp' & Hl). congruence.
      * rewrite lookup_insert_ne in Hl by congruence. eapply Hcases; eassumption.
    + rewrite lookup_insert_ne in Hp' by congruence. eapply Hcases; eassumption.
Qed.

Lemma index_agrees_append d records p inner leaf cases v qid :
  index_agrees d records -> d !! p = Some inner -> inner !! leaf = Some (LeafEntry cases v) ->
  index_agrees (<[p := <[leaf := LeafEntry (cases ++ [qid]) v]> inner]> d)
               (records ++ [(p, leaf, qid)]).
Proof.
  intros [Hlisted Hcases] Hp Hleaf.
  assert (Hentry : forall parent l,
            (exists inner' cases' id, d !! parent = Some inner'
                                      /\ inner' !! l = Some (LeafEntry cases' id)) ->
            exists inner' cases' id,
              <[p := <[leaf := LeafEntry (cases ++ [qid]) v]> inner]> d !! parent = Some inner'
              /\ inner' !! l = Some (LeafEntry cases' id)).
  { intros parent l (inner' & cases' & id & Hp' & Hl).
    destruct (decide (parent = p)) as [->|Hne].
    - assert (inner' = inner) by congruence. subst inner'.
      destruct (decide (l = leaf)) as [->|Hnl].
      + eexists _, _, _. rewrite !lookup_insert_eq. split; reflexivity.
      + eexists _, _, _. rewrite lookup_insert_eq. split; [reflexivity|].
        rewrite lookup_insert_ne by congruence. exact Hl.
    - exists inner', cases', id. rewrite lookup_insert_ne by congruence. auto. }
  split.
  - intros parent l x Hin. apply Hentry. apply elem_of_app in Hin as [Hin|Hin].
    + eapply Hlisted, Hin.
    + apply list_elem_of_singleton in Hin. injection Hin as -> -> ->. eauto.
  - intros parent inner' l cases' id Hp' Hl. rewrite ids_under_app, ids_under_one.
    destruct (decide (parent = p)) as [->|Hne].
    + rewrite lookup_insert_eq in Hp'. injection Hp' as <-.
      destruct (decide (l = leaf)) as [->|Hnl].
      * rewrite lookup_insert_eq in Hl. injection Hl as <- <-.
        rewrite bool_decide_eq_true_2 by reflexivity.
        rewrite (Hcases _ _ _ _ _ Hp Hleaf). reflexivity.
      * rewrite lookup_insert_ne in Hl by congruence.
        rewrite bool_decide_eq_false_2 by congruence. rewrite app_nil_r.
        eapply Hcases; eassumption.
    + rewrite lookup_insert_ne in Hp' by congruence.
      rewrite bool_decide_eq_false_2 by congruence. rewrite app_nil_r.
      eapply Hcases; eassumption.
Qed.

End IndexAgrees.

Section IndexOfThePass.
Context {R : Type} `{RemoteApi R}.
Variable self : QaseIO.
Variable depth : nat.
Variable move_cases : bool.
Variable root_parent_suite : Py.pyid.
Variable assert_parent_suite : bool.

Lemma resolve_parent_agrees records p leaf st (e : env R) st' e' :
  resolve_parent self depth root_parent_suite assert_parent_suite p leaf st e = (Ok st', e') ->
  index_agrees (qase_new_dict st) records -> index_agrees (qase_new_dict st') records.
Proof.
  unfold resolve_parent.
  destruct (qase_new_dict st !! p) as [inner|] eqn:Hdict.
  - intros [= <- <-]. auto.
  - unfold bind at 1. destruct assert_parent_suite.
    + destruct (known_suites st !! p) as [v|] eqn:Hknown; [|discriminate].
      unfold ret. rewrite Hknown. intros [= <- <-] Hinv. apply index_agrees_new_parent; assumption.
    + destruct (Py.truthy (find_suite_id (qase_suites st) p)).
      * unfold ret. destruct (known_suites st !! p) as [v|]; [|discriminate].
        intros [= <- <-] Hinv. apply index_agrees_new_parent; assumption.
      * match goal with |- context [bind (create_qase_suite self ?n ?pa) ?K e] =>
          destruct (bind (create_qase_suite self n pa) K e) as [r e1] eqn:Hblock end.
        pose proof (create_and_refresh_events self depth _ _ _ _ _ _ Hblock)
          as (new & _ & _ & _ & Hres).
        cbn [fst] in Hres. destruct r as [st1|ex]; [|discriminate].
        destruct Hres as (suite_id & suites & -> & _).
        cbn [known_suites qase_suites qase_new_dict]. rewrite lookup_insert_eq.
        intros [= <- <-] Hinv. apply index_agrees_new_parent; assumption.
Qed.

Lemma resolve_leaf_agrees records p leaf st (e : env R) st' e' :
  resolve_leaf self depth root_parent_suite p leaf st e = (Ok st', e') ->
  index_agrees (qase_new_dict st) records -> index_agrees (qase_new_dict st') records.
Proof.
  unfold resolve_leaf.
  destruct (qase_new_dict st !! p) as [inner|] eqn:Hdict; [|discriminate].
  destruct (inner !! leaf) as [entry|] eqn:Hleaf.
  - intros [= <- <-]. auto.
  - unfold bind at 1.
    assert (Hdone : forall suite_id suites w,
              ret (mkSync suites
                     (<[p := <[leaf := LeafEntry [] suite_id]> inner]> (qase_new_dict st))
                     (known_suites st)) w = (Ok st', e') ->
              index_agrees (qase_new_dict st) records ->
              index_agrees (qase_new_dict st') records).
    { intros suite_id suites w [= <- <-] Hinv. cbn [qase_new_dict].
      apply index_agrees_new_leaf; assumption. }
    destruct (Py.truthy _); [apply Hdone|].
    unfold bind at 1.
    destruct (inner !! "id") as [[v|cases v]|]; unfold ret at 1, raise; try discriminate.
    + match goal with |- context [bind (create_qase_suite self ?n ?pa) ?K e] =>
        destruct (bind (create_qase_suite self n pa) K e) as [r e1] eqn:Hblock end.
      pose proof (create_and_refresh_events self depth _ _ _ _ _ _ Hblock)
        as (new & _ & _ & _ & Hres).
      cbn [fst] in Hres. destruct r as [pair|ex]; [|discriminate].
      destruct Hres as (suite_id & suites & -> & _). apply Hdone.
    + match goal with |- context [bind (create_qase_suite self ?n ?pa) ?K e] =>
        destruct (bind (create_qase_suite self n pa) K e) as [r e1] eqn:Hblock end.
      pose proof (create_and_refresh_events self depth _ _ _ _ _ _ Hblock)
        as (new & _ & _ & _ & Hres).
      cbn [fst] in Hres. destruct r as [pair|ex]; [|discriminate].
      destruct Hres as (suite_id & suites & -> & _). apply Hdone.
Qed.

Lemma record_case_agrees records qase_cases p leaf case st (e : env R) st' e' :
  record_case self move_cases qase_cases p leaf case st e = (Ok st', e') ->
  index_agrees (qase_new_dict st) records ->
  index_agrees (qase_new_dict st') (records ++ case_records p leaf case).
Proof.
  unfold record_case, case_records.
  destruct (qase_id case) as [qid|]; [|intros [= <- <-]; rewrite app_nil_r; auto].
  destruct (Py.truthy (Some qid)); [|intros [= <- <-]; rewrite app_nil_r; auto].
  destruct (qase_new_dict st !! p) as [inner|] eqn:Hdict; [|discriminate].
  destruct (inner !! leaf) as [[v|cases v]|] eqn:Hleaf; try discriminate.
  assert (Hdone : forall w,
            ret (mkSync (qase_suites st)
                   (<[p := <[leaf := LeafEntry (cases ++ [qid]) v]> inner]> (qase_new_dict st))
                   (known_suites st)) w = (Ok st', e') ->
            index_agrees (qase_new_dict st) records ->
            index_agrees (qase_new_dict st') (records ++ [(p, leaf, qid)])).
  { intros w [= <- <-] Hinv. apply index_agrees_append; assumption. }
  destruct (List.find _ qase_cases) as [qase_case|]; [|apply Hdone].
  destruct (bool_decide _); [|apply Hdone].
  destruct move_cases; unfold bind; rewrite logger_run; [|apply Hdone].
  match goal with |- context [update_a_test_case self ?c ?u ?w] =>
    destruct (update_a_test_case_trace self c u w) as (r & o & e2 & Hupd & _);
    rewrite Hupd end.
  destruct r as [b|ex]; [apply Hdone|discriminate].
Qed.

Lemma record_cases_agree qase_cases p leaf cases :
  forall records st (e : env R) st' e',
    fold_m cases (record_case self move_cases qase_cases p leaf) st e = (Ok st', e') ->
    index_agrees (qase_new_dict st) records ->
    index_agrees (qase_new_dict st') (records ++ flat_map (case_records p leaf) cases).
Proof.
  induction cases as [|case rest IH]; intros records st e st' e'.
  - intros [= <- <-]. rewrite app_nil_r. auto.
  - cbn [fold_m flat_map]. unfold bind.
    destruct (record_case _ _ _ _ _ case st e) as [[st1|ex] e1] eqn:Hcase; [|discriminate].
    intros Hrest Hinv. rewrite app_assoc. eapply IH; [exact Hrest|].
    eapply record_case_agrees; eassumption.
Qed.

Lemma sync_file_agrees records qase_cases file st (e : env R) st' e' :
  sync_file self depth move_cases root_parent_suite assert_parent_suite qase_cases file st e
  = (Ok st', e') ->
  index_agrees (qase_new_dict st) records ->
  index_agrees (qase_new_dict st') (records ++ file_records file).
Proof.
  unfold sync_file, file_records.
  destruct (Py.split (default "" (suite_name_field file))) as [|first tokens].
  - intros [= <- <-]. rewrite app_nil_r. auto.
  - destruct tokens as [|p rest]; [discriminate|].
    unfold bind at 1. cbn [Py.index nth_error lift_result skipn].
    unfold bind at 1.
    destruct (resolve_parent _ _ _ _ p _ st e) as [[st1|ex] e1] eqn:Hparent; [|discriminate].
    unfold bind at 1.
    destruct (resolve_leaf _ _ _ p _ st1 e1) as [[st2|ex] e2] eqn:Hleaf; [|discriminate].
    intros Hcases Hinv. eapply record_cases_agree; [exact Hcases|].
    eapply resolve_leaf_agrees; [exact Hleaf|].
    eapply resolve_parent_agrees; [exact Hparent|exact Hinv].
Qed.

Lemma sync_files_agree qase_cases files :
  forall records st (e : env R) st' e',
    fold_m files
      (sync_file self depth move_cases root_parent_suite assert_parent_suite qase_cases) st e
    = (Ok st', e') ->
    index_agrees (qase_new_dict st) records ->
    index_agrees (qase_new_dict st') (records ++ pass_records files).
Proof.
  induction files as [|file rest IH]; intros records st e st' e'.
  - intros [= <- <-]. rewrite app_nil_r. auto.
  - cbn [fold_m]. unfold pass_records. cbn [flat_map]. unfold bind.
    destruct (sync_file _ _ _ _ _ qase_cases file st e) as [[st1|ex] e1] eqn:Hfile;
      [|discriminate].
    intros Hrest Hinv. rewrite app_assoc. eapply IH; [exact Hrest|].
    eapply sync_file_agrees; eassumption.
Qed.

(** X21: the index a pass returns lists the cases of the local files, no
    more and no less.  When the pass returns, every test case with a truthy
    Qase id has a leaf entry under the parent- and leaf-suite name of its
    file, and the case list of every leaf entry holds exactly the truthy
    Qase ids of the files of those names, in the order of the files and of
    the cases in them (an id that is there twice is listed twice). *)
Theorem returned_index_lists_the_cases (full_index : list test_file)
    (known : gmap string Py.pyid) (e e' : env R)
    (dict : gmap string (gmap string suite_entry)) :
  update_test_suites_from_pytest self depth move_cases root_parent_suite assert_parent_suite
    full_index known e = (Ok dict, e') ->
  (forall parent leaf qid,
     (parent, leaf, qid) ∈ pass_records full_index ->
     exists inner cases id,
       dict !! parent = Some inner /\ inner !! leaf = Some (LeafEntry cases id) /\ qid ∈ cases)
  /\ (forall parent inner leaf cases id,
        dict !! parent = Some inner -> inner !! leaf = Some (LeafEntry cases id) ->
        cases = ids_under parent leaf (pass_records full_index)).
Proof.
  unfold update_test_suites_from_pytest, bind.
  destruct (get_suites self depth e) as [[suites|ex] e1]; [|discriminate].
  destruct (get_cases self depth e1) as [[cases|ex] e2]; [|discriminate].
  destruct (fold_m full_index _ _ e2) as [[st|ex] e3] eqn:Hfold; [|discriminate].
  intros [= <- <-].
  apply (sync_files_agree _ _ []) in Hfold; [|apply index_agrees_start].
  cbn [app] in Hfold. destruct Hfold as [Hlisted Hcases]. split; [|exact Hcases].
  intros parent leaf qid Hin.
  destruct (Hlisted _ _ _ Hin) as (inner & listed & id & Hp & Hl).
  exists inner, listed, id. split; [exact Hp|]. split; [exact Hl|].
  rewrite (Hcases _ _ _ _ _ Hp Hl). unfold ids_under.
  apply list_elem_of_fmap. exists (parent, leaf, qid). split; [reflexivity|].
  apply list_elem_of_In, filter_In. split; [apply list_elem_of_In, Hin|].
  apply bool_decide_eq_true_2. reflexivity.
Qed.

End IndexOfThePass.

Lemma returned_index_lists_the_cases_witness :
  exists dict e',
    update_test_suites_from_pytest demo 5 false None false
      [mkTestFile (Some "test client login")
                  [mkTestCase (Some 1); mkTestCase (Some 0); mkTestCase None; mkTestCase (Some 2)];
       mkTestFile (Some "test client login") [mkTestCase (Some 1)]]
      ∅ (start (project_with []))
    = (Ok dict, e')
    /\ forall parent inner leaf cases id,
         dict !! parent = Some inner -> inner !! leaf = Some (LeafEntry cases id) ->
         cases = ids_under parent leaf
                   (pass_records
                      [mkTestFile (Some "test client login")
                                  [mkTestCase (Some 1); mkTestCase (Some 0); mkTestCase None;
                                   mkTestCase (Some 2)];
                       mkTestFile (Some "test client login") [mkTestCase (Some 1)]]).
Proof.
  destruct (update_test_suites_from_pytest demo 5 false None false
              [mkTestFile (Some "test client login")
                          [mkTestCase (Some 1); mkTestCase (Some 0); mkTestCase None;
                           mkTestCase (Some 2)];
               mkTestFile (Some "test client login") [mkTestCase (Some 1)]]
              ∅ (start (project_with []))) as [[dict|ex] e'] eqn:Hrun;
    [|vm_compute in Hrun; discriminate].
  exists dict, e'. split; [reflexivity|].
  apply (returned_index_lists_the_cases demo 5 false None false _ _ _ _ _ Hrun).
Defined.

(** ** Case field editor: what Add does to the parameter map *)

Section AddEffect.
Context `{Py.SetOrder}.

Lemma add_param_other (m : gmap string (list string)) k vs key :
  key <> k -> add_param m (k, vs) !! key = m !! key.
Proof.
  intros Hne. unfold add_param. destruct (m !! k); rewrite lookup_insert_ne by congruence;
    reflexivity.
Qed.

Lemma add_param_deduplicates (m : gmap string (list string)) k vs :
  is_Some (m !! k) -> exists l, add_param m (k, vs) !! k = Some l /\ NoDup l.
Proof.
  intros [existing Hk]. unfold add_param. rewrite Hk, lookup_insert_eq.
  eexists. split; [reflexivity|]. apply Py.list_of_set_NoDup.
Qed.

Lemma add_params_keep_deduplicated params :
  forall (m : gmap string (list string)) key,
    (exists l, m !! key = Some l /\ NoDup l) ->
    exists l, add_params params m !! key = Some l /\ NoDup l.
Proof.
  unfold add_params. induction params as [|[k vs] rest IH]; intros m key Hm; [exact Hm|].
  cbn [fold_left]. apply IH. destruct (decide (key = k)) as [->|Hne].
  - apply add_param_deduplicates. destruct Hm as (l & -> & _). eauto.
  - rewrite add_param_other by exact Hne. exact Hm.
Qed.

(** X22: what Add does to a parameter map.  A key that is not listed keeps
    its list as it is; the keys afterwards are the old keys and the listed
    ones; under every key the values afterwards are the old values and the
    listed ones; and the list of a listed key that was there before comes
    out without duplicates, also when the old list had some. *)
Theorem add_params_effect (params : list (string * list string))
    (origin_params : gmap string (list string)) :
  (forall key, key ∉ params.*1 -> add_params params origin_params !! key = origin_params !! key)
  /\ (forall key, is_Some (add_params params origin_params !! key)
                  <-> is_Some (origin_params !! key) \/ key ∈ params.*1)
  /\ (forall key v, v ∈ default [] (add_params params origin_params !! key)
                    <-> v ∈ default [] (origin_params !! key)
                        \/ exists vs, (key, vs) ∈ params /\ v ∈ vs)
  /\ (forall key, key ∈ params.*1 -> is_Some (origin_params !! key) ->
                  NoDup (default [] (add_params params origin_params !! key))).
Proof.
  split; [|split; [apply add_params_dom|split; [apply add_params_values|]]].
  - revert origin_params. unfold add_params.
    induction params as [|[k vs] rest IH]; intros m key Hkey; [reflexivity|].
    cbn [fold_left]. cbn in Hkey. apply not_elem_of_cons in Hkey as [Hne Hrest].
    rewrite IH by exact Hrest. apply add_param_other, Hne.
  - revert origin_params. unfold add_params.
    induction params as [|[k vs] rest IH]; intros m key Hkey Hsome.
    + by apply elem_of_nil in Hkey.
    + cbn [fold_left]. destruct (decide (key = k)) as [->|Hne].
      * destruct (add_params_keep_deduplicated rest (add_param m (k, vs)) k
                    (add_param_deduplicates m k vs Hsome)) as (l & Hl & Hnodup).
        unfold add_params in Hl. rewrite Hl. exact Hnodup.
      * cbn in Hkey. apply elem_of_cons in Hkey as [Heq|Hkey]; [congruence|].
        apply IH; [exact Hkey|]. rewrite add_param_other by exact Hne. exact Hsome.
Qed.

End AddEffect.

Lemma add_params_effect_witness :
  add_params [("os", ["mac"])] (list_to_map [("os", ["win"; "win"]); ("browser", ["chrome"])])
  !! "browser" = Some ["chrome"]
  /\ NoDup (default [] (add_params [("os", ["mac"])]
                          (list_to_map [("os", ["win"; "win"]); ("browser", ["chrome"])])
                        !! "os")).
Proof.
  destruct (add_params_effect [("os", ["mac"])]
              (list_to_map [("os", ["win"; "win"]); ("browser", ["chrome"])]))
    as (Hother & _ & _ & Hnodup).
  split.
  - rewrite Hother; [reflexivity|]. cbn. intros Hin.
    apply list_elem_of_singleton in Hin. discriminate.
  - apply Hnodup; [cbn; apply list_elem_of_singleton; reflexivity|].
    vm_compute. eauto.
Defined.
